(** * Agent Trace: the attribution engine of [trace-store.ts]

    A shallow embedding of the reference trace store (range diff engine,
    model resolver, trace record builder, append-only store) and the
    properties its specification states about it, followed by the hook
    handlers of Cursor that call the store and by [slugify] of the
    documentation site.

    Conventions of the embedding:
    - a JavaScript string is a [string]; every [ascii] stands for one code
      unit, and the string operations used by the source ([split],
      [indexOf], [startsWith], [includes], [substring], [trim], [===]) are
      the code-unit-wise ones;
    - the content of a file is a [string] of bytes; the text the transcript
      reader decodes from it is a list of UTF-16 code units ([list N]), and
      so is the text [JSON.parse] reads;
    - [undefined] is [None]; a JavaScript number that counts lines is a [Z]
      (line numbers are integers), array offsets and sizes are [nat];
    - code that can throw returns an [outcome]; [try]/[catch] is
      [try_catch];
    - what the process reads from outside (environment variables, [git],
      the clock, the file system) is an argument of the function that
      reads it;
    - library calls of the runtime ([JSON.parse], [path.relative], the
      UTF-8 decoder of [buffer.toString]) are modelled from their
      definition; the calls the store only passes
      through ([mkdirSync], [appendFileSync], [path.join],
      [JSON.stringify]) are fields of a [Platform]. *)

From Stdlib Require Import String Ascii List Sorted ZArith Bool Arith Lia.
Import ListNotations.

Local Open Scope list_scope.
Local Open Scope string_scope.

(** ** JavaScript string primitives used by the source *)

Module JS.

(** The line feed, the separator of every [split("\n")] of the source. *)
Definition LF : ascii := "010"%char.

Definition nl : string := String LF "".

(** [truthy s]: a string is truthy exactly when it is not empty. *)
Definition truthy (s : string) : bool :=
  match s with
  | EmptyString => false
  | String _ _ => true
  end.

(** [s.startsWith(p)]. *)
Fixpoint startsWith (s p : string) {struct p} : bool :=
  match p with
  | EmptyString => true
  | String c p' =>
      match s with
      | EmptyString => false
      | String d s' => if Ascii.eqb c d then startsWith s' p' else false
      end
  end.

(** [s.indexOf(needle)], searched from the left; [pos] is the offset of [s]
    in the string the search started in. *)
Fixpoint indexOfFrom (s needle : string) (pos : nat) : option nat :=
  if startsWith s needle then Some pos
  else match s with
       | EmptyString => None
       | String _ s' => indexOfFrom s' needle (S pos)
       end.

(** [s.indexOf(needle)]: the first offset, or [-1]. *)
Definition indexOf (s needle : string) : Z :=
  match indexOfFrom s needle 0 with
  | Some i => Z.of_nat i
  | None => (-1)%Z
  end.

(** [s.includes(needle)]. *)
Definition includes (s needle : string) : bool :=
  match indexOfFrom s needle 0 with
  | Some _ => true
  | None => false
  end.

(** [s.substring(a, b)] for [a <= b]. *)
Definition substring (s : string) (a b : nat) : string :=
  String.substring a (b - a) s.

(** [s.split(sep)] for a separator of one code unit: never the empty
    array, [""] splits into [[""]]. *)
Fixpoint split (s : string) (sep : ascii) : list string :=
  match s with
  | EmptyString => [EmptyString]
  | String c s' =>
      if Ascii.eqb c sep then EmptyString :: split s' sep
      else match split s' sep with
           | [] => [String c EmptyString]
           | piece :: pieces => String c piece :: pieces
           end
  end.

End JS.

(** ** Outcomes of code that can throw *)

(** What a call does: it returns a value, it throws, or (for a loop run on
    fuel) it is still running when the fuel is spent. *)
Inductive outcome (A : Type) : Type :=
| Returns (a : A)
| Throws (error : string)
| Diverges.

Arguments Returns {A} a.
Arguments Throws {A} error.
Arguments Diverges {A}.

Definition bind {A B : Type} (m : outcome A) (k : A -> outcome B)
  : outcome B :=
  match m with
  | Returns a => k a
  | Throws e => Throws e
  | Diverges => Diverges
  end.

(** [try { body } catch { handler }]. *)
Definition try_catch {A : Type} (body : outcome A)
  (handler : string -> outcome A) : outcome A :=
  match body with
  | Returns a => Returns a
  | Throws e => handler e
  | Diverges => Diverges
  end.

Declare Scope outcome_scope.
Delimit Scope outcome_scope with outcome.
Notation "x <- m ;; k" := (bind m (fun x => k))
  (at level 61, m at next level, right associativity) : outcome_scope.

(** ** [String.prototype.trim] *)

Module Trim.
Local Open Scope nat_scope.

(** White space and line terminators among the code units an [ascii] can
    stand for: TAB, LF, VT, FF, CR, SP and NBSP. *)
Definition isWhiteSpace (c : ascii) : bool :=
  let n := nat_of_ascii c in
  ((9 <=? n) && (n <=? 13)) || (n =? 32) || (n =? 160).

Fixpoint trimStart (s : string) : string :=
  match s with
  | EmptyString => EmptyString
  | String c s' => if isWhiteSpace c then trimStart s' else s
  end.

(** The string without its trailing white space; [None] stands for a string
    that is white space only. *)
Fixpoint trimEndAux (s : string) : option string :=
  match s with
  | EmptyString => None
  | String c s' =>
      match trimEndAux s' with
      | Some t => Some (String c t)
      | None => if isWhiteSpace c then None else Some (String c EmptyString)
      end
  end.

Definition trimEnd (s : string) : string :=
  match trimEndAux s with
  | Some t => t
  | None => EmptyString
  end.

Definition trim (s : string) : string := trimEnd (trimStart s).

End Trim.

(** ** [JSON.parse] *)

Module Json.
Local Open Scope nat_scope.

#[local] Set Warnings "-register-all".

(** A parsed JSON value. A string holds its UTF-16 code units (an escape
    [\uXXXX] can denote any of them); a number holds the decimal it was
    written as, [mantissa * 10 ^ exponent]. The text that is parsed is a
    list of code units as well. *)
Inductive value : Type :=
| Null
| Bool (b : bool)
| Number (mantissa exponent : Z)
| Str (units : list N)
| Array (items : list value)
| Object (members : list (list N * value)).

(** The code units of a literal of the source. *)
Fixpoint units_of (s : string) : list N :=
  match s with
  | EmptyString => []
  | String c s' => N_of_ascii c :: units_of s'
  end.

(** Result of a parsing function: the value and the input left, a syntax
    error, or no fuel left. *)
Inductive parsed (A : Type) : Type :=
| Parsed (a : A) (rest : list N)
| SyntaxError
| NoFuel.

Arguments Parsed {A} a rest.
Arguments SyntaxError {A}.
Arguments NoFuel {A}.

(** JSON white space: SP, TAB, LF, CR. *)
Definition isWs (c : N) : bool :=
  ((c =? 32) || (c =? 9) || (c =? 10) || (c =? 13))%N.

Fixpoint skipWs (s : list N) : list N :=
  match s with
  | [] => []
  | c :: s' => if isWs c then skipWs s' else s
  end.

Definition digit (c : N) : option Z :=
  if ((48 <=? c) && (c <=? 57))%N then Some (Z.of_N (c - 48)) else None.

Definition hexDigit (c : N) : option N :=
  (if (48 <=? c) && (c <=? 57) then Some (c - 48)
   else if (65 <=? c) && (c <=? 70) then Some (c - 55)
   else if (97 <=? c) && (c <=? 102) then Some (c - 87)
   else None)%N.

(** A run of digits: its value added to [acc], how many there were, and the
    input left. *)
Fixpoint takeDigits (s : list N) (acc : Z) (count : nat)
  : Z * nat * list N :=
  match s with
  | [] => (acc, count, s)
  | c :: s' =>
      match digit c with
      | Some d => takeDigits s' (acc * 10 + d) (S count)
      | None => (acc, count, s)
      end
  end.

(** The escape after a backslash, other than [\u]. *)
Definition simpleEscape (c : N) : option N :=
  (if c =? 34 then Some 34         (* quotation mark *)
   else if c =? 92 then Some 92    (* reverse solidus *)
   else if c =? 47 then Some 47    (* solidus *)
   else if c =? 98 then Some 8     (* b *)
   else if c =? 102 then Some 12   (* f *)
   else if c =? 110 then Some 10   (* n *)
   else if c =? 114 then Some 13   (* r *)
   else if c =? 116 then Some 9    (* t *)
   else None)%N.

(** The characters of a string, after its opening quotation mark, up to
    and including the closing one. *)
Fixpoint parseChars (s : list N) : parsed (list N) :=
  match s with
  | [] => SyntaxError
  | c :: s1 =>
      if (c =? 34)%N then Parsed [] s1
      else if (c =? 92)%N then
        match s1 with
        | [] => SyntaxError
        | e :: s2 =>
            if (e =? 117)%N then
              match s2 with
              | h1 :: h2 :: h3 :: h4 :: s6 =>
                  match hexDigit h1, hexDigit h2, hexDigit h3, hexDigit h4 with
                  | Some a, Some b, Some c', Some d =>
                      match parseChars s6 with
                      | Parsed us rest =>
                          Parsed ((((a * 16 + b) * 16 + c') * 16 + d)%N :: us)
                                 rest
                      | other => other
                      end
                  | _, _, _, _ => SyntaxError
                  end
              | _ => SyntaxError
              end
            else
              match simpleEscape e with
              | Some u =>
                  match parseChars s2 with
                  | Parsed us rest => Parsed (u :: us) rest
                  | other => other
                  end
              | None => SyntaxError
              end
        end
      else if (c <? 32)%N then SyntaxError
      else
        match parseChars s1 with
        | Parsed us rest => Parsed (c :: us) rest
        | other => other
        end
  end.

(** A number: [-? int frac? exp?]. *)
Definition parseNumber (s : list N) : parsed value :=
  let '(negative, s0) :=
    match s with
    | c :: s' => if (c =? 45)%N then (true, s') else (false, s)
    | [] => (false, s)
    end in
  let int :=
    match s0 with
    | [] => None
    | c :: s' =>
        match digit c with
        | Some 0%Z => Some (0%Z, s')
        | Some _ => let '(v, _, r) := takeDigits s0 0 0 in Some (v, r)
        | None => None
        end
    end in
  match int with
  | None => SyntaxError
  | Some (i, s1) =>
      let frac :=
        match s1 with
        | c :: s' =>
            if (c =? 46)%N then
              let '(v, count, r) := takeDigits s' i 0 in
              match count with
              | O => None
              | S _ => Some (v, (- Z.of_nat count)%Z, r)
              end
            else Some (i, 0%Z, s1)
        | [] => Some (i, 0%Z, s1)
        end in
      match frac with
      | None => SyntaxError
      | Some (m, e, s2) =>
          let signed := if negative then (- m)%Z else m in
          match s2 with
          | c :: s' =>
              if ((c =? 101) || (c =? 69))%N then
                let '(minus, s3) :=
                  match s' with
                  | g :: s'' =>
                      if (g =? 45)%N then (true, s'')
                      else if (g =? 43)%N then (false, s'')
                      else (false, s')
                  | [] => (false, s')
                  end in
                let '(x, count, r) := takeDigits s3 0 0 in
                match count with
                | O => SyntaxError
                | S _ =>
                    Parsed (Number signed (e + (if minus then - x else x))%Z) r
                end
              else Parsed (Number signed e) s2
          | [] => Parsed (Number signed e) s2
          end
      end
  end.

(** What follows [name] in [s], when [s] starts with it. *)
Fixpoint afterPrefix (s : list N) (name : string) {struct name}
  : option (list N) :=
  match name with
  | EmptyString => Some s
  | String c name' =>
      match s with
      | [] => None
      | d :: s' =>
          if (N_of_ascii c =? d)%N then afterPrefix s' name' else None
      end
  end.

(** A literal name ([true], [false], [null]). *)
Definition parseLiteral (name : string) (v : value) (s : list N)
  : parsed value :=
  match afterPrefix s name with
  | Some rest => Parsed v rest
  | None => SyntaxError
  end.

(** [parseValue]: white space, then one value. [parseElements] and
    [parseMembers] read what follows the opening bracket or brace of a
    non-empty array or object. *)
Fixpoint parseValue (fuel : nat) (s : list N) : parsed value :=
  match fuel with
  | O => NoFuel
  | S fuel' =>
      match skipWs s with
      | [] => SyntaxError
      | c :: s1 =>
          if (c =? 123)%N then
            match skipWs s1 with
            | d :: s2 =>
                if (d =? 125)%N then Parsed (Object []) s2
                else
                  match parseMembers fuel' s1 with
                  | Parsed ms rest => Parsed (Object ms) rest
                  | SyntaxError => SyntaxError
                  | NoFuel => NoFuel
                  end
            | [] => SyntaxError
            end
          else if (c =? 91)%N then
            match skipWs s1 with
            | d :: s2 =>
                if (d =? 93)%N then Parsed (Array []) s2
                else
                  match parseElements fuel' s1 with
                  | Parsed vs rest => Parsed (Array vs) rest
                  | SyntaxError => SyntaxError
                  | NoFuel => NoFuel
                  end
            | [] => SyntaxError
            end
          else if (c =? 34)%N then
            match parseChars s1 with
            | Parsed us rest => Parsed (Str us) rest
            | SyntaxError => SyntaxError
            | NoFuel => NoFuel
            end
          else if (c =? 116)%N then parseLiteral "true" (Bool true) (c :: s1)
          else if (c =? 102)%N
          then parseLiteral "false" (Bool false) (c :: s1)
          else if (c =? 110)%N then parseLiteral "null" Null (c :: s1)
          else parseNumber (c :: s1)
      end
  end
with parseElements (fuel : nat) (s : list N) : parsed (list value) :=
  match fuel with
  | O => NoFuel
  | S fuel' =>
      match parseValue fuel' s with
      | Parsed v rest =>
          match skipWs rest with
          | c :: s1 =>
              if (c =? 44)%N then
                match parseElements fuel' s1 with
                | Parsed vs rest' => Parsed (v :: vs) rest'
                | other => other
                end
              else if (c =? 93)%N then Parsed [v] s1
              else SyntaxError
          | [] => SyntaxError
          end
      | SyntaxError => SyntaxError
      | NoFuel => NoFuel
      end
  end
with parseMembers (fuel : nat) (s : list N)
  : parsed (list (list N * value)) :=
  match fuel with
  | O => NoFuel
  | S fuel' =>
      match skipWs s with
      | q :: s1 =>
          if (q =? 34)%N then
            match parseChars s1 with
            | Parsed key rest =>
                match skipWs rest with
                | colon :: s2 =>
                    if (colon =? 58)%N then
                      match parseValue fuel' s2 with
                      | Parsed v rest' =>
                          match skipWs rest' with
                          | c :: s3 =>
                              if (c =? 44)%N then
                                match parseMembers fuel' s3 with
                                | Parsed ms rest'' =>
                                    Parsed ((key, v) :: ms) rest''
                                | other => other
                                end
                              else if (c =? 125)%N
                                   then Parsed [(key, v)] s3
                              else SyntaxError
                          | [] => SyntaxError
                          end
                      | SyntaxError => SyntaxError
                      | NoFuel => NoFuel
                      end
                    else SyntaxError
                | [] => SyntaxError
                end
            | SyntaxError => SyntaxError
            | NoFuel => NoFuel
            end
          else SyntaxError
      | [] => SyntaxError
      end
  end.

(** What the proofs about fuel say of a parsing function run on [fuel]: it
    reads at least one code unit when it succeeds, and stops for lack of
    fuel only below [bound]. *)
Definition within {A : Type} (bound fuel : nat) (s : list N) (r : parsed A)
  : Prop :=
  match r with
  | Parsed _ rest => List.length rest < List.length s
  | SyntaxError => True
  | NoFuel => fuel < bound
  end.

(** [JSON.parse(text)]: one value between white space, nothing after it.
    The fuel is enough for every text ([parse_never_diverges]); limits of
    an engine on the depth of nesting are not modelled. *)
Definition parse (text : list N) : outcome value :=
  match parseValue (2 * List.length text + 2) text with
  | Parsed v rest =>
      match skipWs rest with
      | [] => Returns v
      | _ :: _ => Throws "SyntaxError"
      end
  | SyntaxError => Throws "SyntaxError"
  | NoFuel => Diverges
  end.

(** [v[key]] on a parsed value; [None] is [undefined]. Of members written
    twice the last one is kept; values other than objects have no property
    of the names the source reads. *)
Fixpoint lookup (key : list N) (members : list (list N * value))
  : option value :=
  match members with
  | [] => None
  | (k, v) :: rest =>
      match lookup key rest with
      | Some later => Some later
      | None =>
          if list_eq_dec N.eq_dec k key then Some v else None
      end
  end.

Definition get (v : value) (key : string) : option value :=
  match v with
  | Object members => lookup (units_of key) members
  | _ => None
  end.

(** The double a number denotes is zero when its mantissa is, or when the
    decimal is at most [2 ^ -1075] (it rounds to zero). *)
Definition isZero (mantissa exponent : Z) : bool :=
  ((mantissa =? 0) ||
   ((exponent <? 0) &&
    (Z.abs mantissa * 2 ^ 1075 <=? 10 ^ (- exponent))))%Z.

Definition truthy (v : value) : bool :=
  match v with
  | Null => false
  | Bool b => b
  | Number m e => negb (isZero m e)
  | Str [] => false
  | Str (_ :: _) => true
  | Array _ => true
  | Object _ => true
  end.

End Json.

(** ** Model resolver: normalization *)

(** The ordered prefix table of [normalizeModelId]; [Object.entries] visits
    these keys in insertion order. *)
Definition prefixes : list (string * string) :=
  [ ("claude-", "anthropic");
    ("gpt-", "openai");
    ("o1", "openai");
    ("o3", "openai");
    ("gemini-", "google") ].

(** The [for ... of] loop over the table, leaving at the first prefix that
    matches. *)
Fixpoint firstPrefix (table : list (string * string)) (model : string)
  : option string :=
  match table with
  | [] => None
  | (prefix, provider) :: rest =>
      if JS.startsWith model prefix then Some (provider ++ "/" ++ model)
      else firstPrefix rest model
  end.

Definition normalizeModelId (model : option string) : option string :=
  match model with
  | None => None
  | Some m =>
      if negb (JS.truthy m) then None
      else if JS.includes m "/" then Some m
      else match firstPrefix prefixes m with
           | Some qualified => Some qualified
           | None => Some m
           end
  end.

(** ** Range diff engine *)

(** The [range] field of a [FileEdit], as the editing tool sends it. *)
Record ToolRange := {
  start_line_number : Z;
  end_line_number : Z;
  start_column : Z;
  end_column : Z
}.

Record FileEdit := {
  old_string : string;
  new_string : string;
  range : option ToolRange
}.

Record RangePosition := {
  start_line : Z;
  end_line : Z
}.

(** The inner loop of [diffToFindChangedLines]: [remaining] holds
    [oldLines[lookAhead..]]; the result is the first [lookAhead] whose line
    is [line]. *)
Fixpoint lookAheadFrom (remaining : list string) (lookAhead : nat)
  (line : string) : option nat :=
  match remaining with
  | [] => None
  | l :: rest =>
      if String.eqb l line then Some lookAhead
      else lookAheadFrom rest (S lookAhead) line
  end.

(** The outer loop of [diffToFindChangedLines], over [newLines[newIdx..]]. *)
Fixpoint diffLoop (oldLines : list string) (oldIdx : nat)
  (newLines : list string) (newIdx : nat) : list nat :=
  match newLines with
  | [] => []
  | line :: rest =>
      let same :=
        match nth_error oldLines oldIdx with
        | Some l => String.eqb l line
        | None => false
        end in
      if same then diffLoop oldLines (S oldIdx) rest (S newIdx)
      else
        match lookAheadFrom (skipn oldIdx oldLines) oldIdx line with
        | Some lookAhead => diffLoop oldLines (S lookAhead) rest (S newIdx)
        | None => newIdx :: diffLoop oldLines oldIdx rest (S newIdx)
        end
  end.

Definition diffToFindChangedLines (oldStr newStr : string) : list nat :=
  diffLoop (JS.split oldStr JS.LF) 0 (JS.split newStr JS.LF) 0.

(** The loop of [computeRangePositions] that merges adjacent offsets; it
    runs over [changedOffsets[1..]] and ends with the last [push]. *)
Fixpoint mergeLoop (startLine : Z) (rangeStart rangeEnd : nat)
  (offsets : list nat) : list RangePosition :=
  match offsets with
  | [] =>
      [ {| start_line := startLine + Z.of_nat rangeStart;
           end_line := startLine + Z.of_nat rangeEnd |} ]
  | o :: rest =>
      if Nat.eqb o (rangeEnd + 1) then mergeLoop startLine rangeStart o rest
      else
        {| start_line := startLine + Z.of_nat rangeStart;
           end_line := startLine + Z.of_nat rangeEnd |}
        :: mergeLoop startLine o o rest
  end.

(** [fileContent.substring(0, idx).split("\n").length]. *)
Definition lineAt (fileContent : string) (idx : Z) : Z :=
  Z.of_nat
    (List.length (JS.split (JS.substring fileContent 0 (Z.to_nat idx)) JS.LF)).

(** Truthiness of the optional [fileContent] argument. *)
Definition truthyContent (fileContent : option string) : bool :=
  match fileContent with
  | Some c => JS.truthy c
  | None => false
  end.

Definition contentOf (fileContent : option string) : string :=
  match fileContent with
  | Some c => c
  | None => ""
  end.

(** Case 3 of the [flatMap] callback: the whole [new_string] as one range. *)
Definition fallbackRange (fileContent : option string) (edit : FileEdit)
  : list RangePosition :=
  let lineCount := Z.of_nat (List.length (JS.split (new_string edit) JS.LF)) in
  let atLineOne := [ {| start_line := 1; end_line := lineCount |} ] in
  if truthyContent fileContent then
    let idx := JS.indexOf (contentOf fileContent) (new_string edit) in
    if negb (idx =? -1)%Z then
      let startLine := lineAt (contentOf fileContent) idx in
      [ {| start_line := startLine; end_line := startLine + lineCount - 1 |} ]
    else atLineOne
  else atLineOne.

(** The callback given to [flatMap]: the ranges of one edit. *)
Definition editRanges (fileContent : option string) (edit : FileEdit)
  : list RangePosition :=
  match range edit with
  | Some r =>
      [ {| start_line := start_line_number r;
           end_line := end_line_number r |} ]
  | None =>
      if JS.truthy (old_string edit) && JS.truthy (new_string edit)
         && truthyContent fileContent
      then
        let idx := JS.indexOf (contentOf fileContent) (new_string edit) in
        if negb (idx =? -1)%Z then
          let startLine := lineAt (contentOf fileContent) idx in
          match diffToFindChangedLines (old_string edit) (new_string edit) with
          | [] => []
          | first :: others => mergeLoop startLine first first others
          end
        else fallbackRange fileContent edit
      else fallbackRange fileContent edit
  end.

Definition computeRangePositions (edits : list FileEdit)
  (fileContent : option string) : list RangePosition :=
  flat_map (editRanges fileContent)
    (filter (fun e => JS.truthy (new_string e)) edits).

(** ** The text of a transcript *)

(** [buffer.toString("utf-8")]: the UTF-8 decoder of the Encoding Standard,
    which the runtime follows. A byte that cannot go on or start a character
    gives U+FFFD and, when it ends a character that was begun, is read again
    as the start of the next one; a character begun at the end of the bytes
    gives U+FFFD. A byte order mark is decoded like every other character:
    it is white space for [trim], so that a decoder that drops it at the
    start gives the same trimmed lines. *)
Module Utf8.
Local Open Scope N_scope.

Definition REPLACEMENT : N := 0xFFFD.

(** The decoder between two bytes: at the start of a character, or inside
    one, with [needed] bytes still to come, the bits read so far, and the
    bounds of the next byte. *)
Inductive state : Type :=
| Start
| Pending (needed : nat) (codePoint lower upper : N).

(** The UTF-16 code units of a code point. *)
Definition unitsOf (codePoint : N) : list N :=
  if codePoint <? 0x10000 then [codePoint]
  else [0xD800 + (codePoint - 0x10000) / 0x400;
        0xDC00 + (codePoint - 0x10000) mod 0x400].

(** A byte at the start of a character; [b mod 32] is [b & 0x1F]. *)
Definition lead (b : N) : list N * state :=
  if b <=? 0x7F then ([b], Start)
  else if (0xC2 <=? b) && (b <=? 0xDF)
  then ([], Pending 1 (b mod 32) 0x80 0xBF)
  else if (0xE0 <=? b) && (b <=? 0xEF)
  then ([], Pending 2 (b mod 16)
              (if b =? 0xE0 then 0xA0 else 0x80)
              (if b =? 0xED then 0x9F else 0xBF))
  else if (0xF0 <=? b) && (b <=? 0xF4)
  then ([], Pending 3 (b mod 8)
              (if b =? 0xF0 then 0x90 else 0x80)
              (if b =? 0xF4 then 0x8F else 0xBF))
  else ([REPLACEMENT], Start).

Definition step (st : state) (b : N) : list N * state :=
  match st with
  | Start => lead b
  | Pending needed codePoint lower upper =>
      if (lower <=? b) && (b <=? upper) then
        let codePoint' := codePoint * 64 + b mod 64 in
        match needed with
        | S (S n) => ([], Pending (S n) codePoint' 0x80 0xBF)
        | _ => (unitsOf codePoint', Start)
        end
      else
        let '(us, st') := lead b in (REPLACEMENT :: us, st')
  end.

(** The end of the bytes. *)
Definition flush (st : state) : list N :=
  match st with
  | Start => []
  | Pending _ _ _ _ => [REPLACEMENT]
  end.

Fixpoint decodeFrom (st : state) (bytes : string) : list N :=
  match bytes with
  | EmptyString => flush st
  | String c rest =>
      let '(us, st') := step st (N_of_ascii c) in
      (us ++ decodeFrom st' rest)%list
  end.

Definition decode (bytes : string) : list N := decodeFrom Start bytes.

(** The states the decoder comes to from [Start]: the bounds are those of
    a continuation byte, and the bits read so far are not those of an
    overlong form. *)
Definition reached (st : state) : Prop :=
  match st with
  | Start => True
  | Pending needed codePoint lower upper =>
      0x80 <= lower /\ upper <= 0xBF /\
      match needed with
      | 1%nat => 2 <= codePoint
      | 2%nat => 1 <= codePoint \/ 0xA0 <= lower
      | 3%nat => 1 <= codePoint \/ 0x90 <= lower
      | _ => False
      end
  end.

End Utf8.

(** The string primitives the reader applies to the decoded text, on lists
    of code units. *)
Module Units.
Local Open Scope N_scope.

Definition LF : N := 10.

(** A string is truthy exactly when it is not empty. *)
Definition truthy (s : list N) : bool :=
  match s with
  | [] => false
  | _ :: _ => true
  end.

(** [s.split(sep)] for a separator of one code unit. *)
Fixpoint split (s : list N) (sep : N) : list (list N) :=
  match s with
  | [] => [[]]
  | c :: s' =>
      if c =? sep then [] :: split s' sep
      else match split s' sep with
           | [] => [[c]]
           | piece :: pieces => (c :: piece) :: pieces
           end
  end.

(** White space and line terminators of ECMAScript: TAB, LF, VT, FF, CR,
    SP, NBSP, the other space separators of Unicode, the line and paragraph
    separators, and the byte order mark. *)
Definition isWhiteSpace (u : N) : bool :=
  ((9 <=? u) && (u <=? 13)) || (u =? 32) || (u =? 0xA0) || (u =? 0x1680)
  || ((0x2000 <=? u) && (u <=? 0x200A)) || (u =? 0x2028) || (u =? 0x2029)
  || (u =? 0x202F) || (u =? 0x205F) || (u =? 0x3000) || (u =? 0xFEFF).

Fixpoint trimStart (s : list N) : list N :=
  match s with
  | [] => []
  | c :: s' => if isWhiteSpace c then trimStart s' else s
  end.

(** The string without its trailing white space; [None] stands for a string
    that is white space only. *)
Fixpoint trimEndAux (s : list N) : option (list N) :=
  match s with
  | [] => None
  | c :: s' =>
      match trimEndAux s' with
      | Some t => Some (c :: t)
      | None => if isWhiteSpace c then None else Some [c]
      end
  end.

Definition trimEnd (s : list N) : list N :=
  match trimEndAux s with
  | Some t => t
  | None => []
  end.

Definition trim (s : list N) : list N := trimEnd (trimStart s).

End Units.

(** ** Model resolver: transcript extraction *)

(** What a path of the file system holds, as far as the reader can tell:
    nothing that opens, something that opens and reports a size but cannot
    be read (a directory), or a regular file. The transcript reader reads
    the content of a regular file as bytes, by offset, and decodes them. *)
Inductive Node : Type :=
| Missing
| Unreadable (size : nat)
| Regular (content : string).

Definition FileSystem := string -> Node.

Definition openSync (fs : FileSystem) (path : string) : outcome Node :=
  match fs path with
  | Missing => Throws "ENOENT"
  | node => Returns node
  end.

(** [fstatSync(fd).size]. *)
Definition fstatSync (fd : Node) : outcome nat :=
  match fd with
  | Missing => Throws "EBADF"
  | Unreadable size => Returns size
  | Regular content => Returns (String.length content)
  end.

(** [readSync(fd, buffer, 0, length, position)] followed by
    [buffer.toString("utf-8")]: the bytes of the file from [position] on,
    decoded. *)
Definition readSync (fd : Node) (length position : nat)
  : outcome (list N) :=
  match fd with
  | Regular content =>
      Returns (Utf8.decode (String.substring position length content))
  | _ => Throws "EISDIR"
  end.

(** [entry.message?.model]; reading a property of [null] throws. *)
Definition messageModel (entry : Json.value) : outcome (option Json.value) :=
  match entry with
  | Json.Null => Throws "TypeError"
  | _ =>
      match Json.get entry "message" with
      | None => Returns None
      | Some Json.Null => Returns None
      | Some message => Returns (Json.get message "model")
      end
  end.

(** One turn of the inner [for] loop: [Some model] when the function
    returns at this line, [None] when the loop goes on to the line before. *)
Definition modelOfLine (rawLine : list N) : outcome (option Json.value) :=
  let line := Units.trim rawLine in
  if negb (Units.truthy line) then Returns None
  else
    try_catch
      (entry <- Json.parse line ;;
       model <- messageModel entry ;;
       match model with
       | Some m => if Json.truthy m then Returns (Some m) else Returns None
       | None => Returns None
       end)%outcome
      (fun _ => Returns None).

(** The inner [for] loop, from the last line of the window to the first. *)
Fixpoint scanLines (linesFromEnd : list (list N))
  : outcome (option Json.value) :=
  match linesFromEnd with
  | [] => Returns None
  | line :: before =>
      (found <- modelOfLine line ;;
       match found with
       | Some m => Returns (Some m)
       | None => scanLines before
       end)%outcome
  end.

(** The [while (readSize <= stats.size)] loop. [closeSync(fd)] does not
    throw on the descriptor that was opened and is left out. *)
Fixpoint windowLoop (fuel : nat) (fd : Node) (size readSize : nat)
  : outcome (option Json.value) :=
  match fuel with
  | O => Diverges
  | S fuel' =>
      if (readSize <=? size)%nat then
        (content <- readSync fd readSize (size - readSize) ;;
         found <- scanLines (rev (Units.split content Units.LF)) ;;
         match found with
         | Some m => Returns (Some m)
         | None =>
             if (size <=? readSize)%nat then Returns None
             else windowLoop fuel' fd size (Nat.min size (readSize * 2))
         end)%outcome
      else Returns None
  end.

(** The value returned is the [model] field as it was parsed: the source
    tests that it is truthy, not that it is a string. *)
Definition extractModelFromTranscript (fs : FileSystem)
  (transcriptPath : string) : outcome (option Json.value) :=
  try_catch
    (fd <- openSync fs transcriptPath ;;
     size <- fstatSync fd ;;
     let readSize := Nat.min size (4 * 1024) in
     windowLoop (S size) fd size readSize)%outcome
    (fun _ => Returns None).

(** *** What the reader is specified to find *)

(** A line of the file is a run of its bytes between two line feeds; the
    reader sees its decoded text ([Utf8Facts.decode_lines]). The text of
    the line parses and carries the truthy model [m]. *)
Definition carries_model (line : string) (m : Json.value) : Prop :=
  modelOfLine (Utf8.decode line) = Returns (Some m).

(** The line is passed over: it is blank, it does not parse, or it has no
    truthy [message.model]. *)
Definition no_model (line : string) : Prop :=
  modelOfLine (Utf8.decode line) = Returns None.

(** The model of the line closest to the end that carries one, or nothing
    when no line does. *)
Inductive last_model (lines : list string) : option Json.value -> Prop :=
| last_model_at (before : list string) (line : string) (after : list string)
    (m : Json.value) :
    lines = (before ++ line :: after)%list ->
    carries_model line m ->
    Forall no_model after ->
    last_model lines (Some m)
| last_model_none :
    Forall no_model lines ->
    last_model lines None.

(** The last [readSize] bytes of the file, and their lines. *)
Definition tailWindow (content : string) (readSize : nat) : string :=
  String.substring (String.length content - readSize) readSize content.

Definition windowLines (content : string) (readSize : nat) : list string :=
  JS.split (tailWindow content readSize) JS.LF.

(** The window starts inside a line: the byte of the file before it is no
    line feed, so that the first line of the window is the end of a longer
    line of the file. *)
Definition starts_inside_line (content : string) (readSize : nat) : Prop :=
  exists front c,
    content = front ++ String c (tailWindow content readSize) /\
    c <> JS.LF.

(** The size of the window at turn [k] of the loop: 4096 doubled [k] times
    and capped at the size of the file. *)
Definition windowSize (size k : nat) : nat := Nat.min size (4096 * 2 ^ k).

(** ** [path.relative] of Node's POSIX [path] module *)

Module Path.

Definition slash : ascii := "/"%char.

(** The segments of a path, [.] and empty ones dropped and [..] resolved,
    pushed on the reversed list [stack] of the segments so far. *)
Fixpoint normalizeOnto (stack segments : list string) : list string :=
  match segments with
  | [] => rev stack
  | seg :: rest =>
      if String.eqb seg "" || String.eqb seg "." then normalizeOnto stack rest
      else if String.eqb seg ".." then normalizeOnto (tl stack) rest
      else normalizeOnto (seg :: stack) rest
  end.

(** [path.resolve(p)]: the segments of the absolute path [p] denotes, a
    relative [p] being read from the working directory. *)
Definition resolve (cwd p : string) : list string :=
  if JS.startsWith p "/" then normalizeOnto [] (JS.split p slash)
  else normalizeOnto [] (JS.split cwd slash ++ JS.split p slash)%list.

Fixpoint dropCommon (from to : list string) : list string * list string :=
  match from, to with
  | f :: from', t :: to' =>
      if String.eqb f t then dropCommon from' to' else (from, to)
  | _, _ => (from, to)
  end.

(** [path.relative(from, to)]: one [..] for every segment of [from] below
    the common directory, then the segments of [to] below it. *)
Definition relative (cwd from to : string) : string :=
  let '(up, down) := dropCommon (resolve cwd from) (resolve cwd to) in
  String.concat "/" (map (fun _ => "..") up ++ down)%list.

End Path.

(** ** Trace record builder *)

Inductive ContributorType : Type := human | ai | mixed | unknown.

Record Contributor := {
  contributor_type : ContributorType;
  model_id : option string
}.

Record Range := {
  range_start_line : Z;
  range_end_line : Z;
  content_hash : option string;
  range_contributor : option Contributor
}.

Record Conversation := {
  url : option string;
  contributor : option Contributor;
  ranges : list Range;
  related : option (list (string * string))
}.

Record FileEntry := {
  path : string;
  conversations : list Conversation
}.

Inductive VcsType : Type := git | jj | hg | svn.

Record Vcs := {
  vcs_type : VcsType;
  revision : string
}.

Record ToolInfo := {
  tool_name : string;
  tool_version : option string
}.

Record TraceRecord := {
  version : string;
  id : string;
  timestamp : string;
  vcs : option Vcs;
  tool : option ToolInfo;
  files : list FileEntry;
  metadata : option (list (string * Json.value))
}.

(** What the process reads from its environment: the variables, what the
    two [git] commands print (or that they fail), the working directory,
    and the values [crypto.randomUUID()] and [new Date().toISOString()]
    give at the call. *)
Record ProcessEnv := {
  CURSOR_PROJECT_DIR : option string;
  CLAUDE_PROJECT_DIR : option string;
  CURSOR_VERSION : option string;
  gitShowToplevel : outcome string;
  gitRevParseHead : string -> outcome string;
  cwd : string;
  randomUUID : string;
  nowISOString : string
}.

(** The chain of [??]: the [git] command runs only when both variables are
    unset, and its trimmed output is a string, so [process.cwd()] is never
    reached. *)
Definition getWorkspaceRoot (env : ProcessEnv) : outcome string :=
  match CURSOR_PROJECT_DIR env with
  | Some dir => Returns dir
  | None =>
      match CLAUDE_PROJECT_DIR env with
      | Some dir => Returns dir
      | None => (out <- gitShowToplevel env ;; Returns (Trim.trim out))%outcome
      end
  end.

Definition truthyVar (v : option string) : bool :=
  match v with
  | Some s => JS.truthy s
  | None => false
  end.

Definition getToolInfo (env : ProcessEnv) : ToolInfo :=
  if truthyVar (CURSOR_VERSION env)
  then {| tool_name := "cursor"; tool_version := CURSOR_VERSION env |}
  else if truthyVar (CLAUDE_PROJECT_DIR env)
  then {| tool_name := "claude-code"; tool_version := None |}
  else {| tool_name := "unknown"; tool_version := None |}.

Definition getVcsInfo (env : ProcessEnv) (dir : string) : option Vcs :=
  match gitRevParseHead env dir with
  | Returns out => Some {| vcs_type := git; revision := Trim.trim out |}
  | _ => None
  end.

(** [toRelativePath(absolutePath, root)]; [workdir] is the working directory
    of the process, which [path.relative] reads relative paths from. *)
Definition toRelativePath (workdir absolutePath root : string) : string :=
  if JS.startsWith absolutePath root
  then Path.relative workdir root absolutePath
  else absolutePath.

(** The options bag of [createTrace]. *)
Record TraceOptions := {
  model : option string;
  rangePositions : option (list RangePosition);
  transcript : option string;
  opt_metadata : option (list (string * Json.value))
}.

(** [{ ...pos }]: a range with the two fields of the position. *)
Definition spread (pos : RangePosition) : Range :=
  {| range_start_line := start_line pos;
     range_end_line := end_line pos;
     content_hash := None;
     range_contributor := None |}.

Definition createTrace (env : ProcessEnv) (type : ContributorType)
  (filePath : string) (opts : TraceOptions) : outcome TraceRecord :=
  (root <- getWorkspaceRoot env ;;
   let modelId := normalizeModelId (model opts) in
   let conversationUrl :=
     if truthyVar (transcript opts)
     then Some ("file://" ++ contentOf (transcript opts))
     else None in
   let ranges :=
     match rangePositions opts with
     | Some (pos :: more) => map spread (pos :: more)
     | _ =>
         [ {| range_start_line := 1; range_end_line := 1;
              content_hash := None; range_contributor := None |} ]
     end in
   let conversation :=
     {| url := conversationUrl;
        contributor :=
          Some {| contributor_type := type; model_id := modelId |};
        ranges := ranges;
        related := None |} in
   Returns
     {| version := "1.0";
        id := randomUUID env;
        timestamp := nowISOString env;
        vcs := getVcsInfo env root;
        tool := Some (getToolInfo env);
        files :=
          [ {| path := toRelativePath (cwd env) filePath root;
               conversations := [conversation] |} ];
        metadata := opt_metadata opts |})%outcome.

(** ** Append-only store *)

Definition TRACE_PATH : string := ".agent-trace/traces.jsonl".

(** The file system the store writes to, and the library calls whose
    results the store passes on: [existsSync], [mkdirSync] with
    [recursive: true], [appendFileSync], [path.join], [JSON.stringify].
    A world is a state of the file system. *)
Record Platform (World : Type) := {
  existsSync : World -> string -> bool;
  mkdirSync : World -> string -> outcome World;
  appendFileSync : World -> string -> string -> outcome World;
  join : string -> string -> string;
  stringify : TraceRecord -> string
}.

Arguments existsSync {World} _ _ _.
Arguments mkdirSync {World} _ _ _.
Arguments appendFileSync {World} _ _ _ _.
Arguments join {World} _ _ _.
Arguments stringify {World} _ _.

Definition appendTrace {World : Type} (os : Platform World)
  (env : ProcessEnv) (w : World) (trace : TraceRecord) : outcome World :=
  (root <- getWorkspaceRoot env ;;
   let filePath := join os root TRACE_PATH in
   let dir := join os root ".agent-trace" in
   w' <- (if negb (existsSync os w dir) then mkdirSync os w dir
          else Returns w) ;;
   appendFileSync os w' filePath (stringify os trace ++ JS.nl))%outcome.

(** ** Reading the edited file *)

(** [readFileSync(path, "utf-8")]. *)
Definition readFileSync (fs : FileSystem) (path : string) : outcome string :=
  match fs path with
  | Missing => Throws "ENOENT"
  | Unreadable _ => Throws "EISDIR"
  | Regular content => Returns content
  end.

Definition tryReadFile (fs : FileSystem) (path : string)
  : outcome (option string) :=
  try_catch
    (content <- readFileSync fs path ;; Returns (Some content))%outcome
    (fun _ => Returns None).

(** ** Paths under the workspace root *)

(** [p] falls under [root]: the segments of [root] lead the segments of
    [p]. *)
Fixpoint leads (rootSegments pathSegments : list string) : bool :=
  match rootSegments, pathSegments with
  | [], _ => true
  | r :: rs, s :: ss => String.eqb r s && leads rs ss
  | _ :: _, [] => false
  end.

Definition under_root (workdir root p : string) : bool :=
  leads (Path.resolve workdir root) (Path.resolve workdir p).

(** The range of a conversation, read back as a position. *)
Definition position_of (r : Range) : RangePosition :=
  {| start_line := range_start_line r; end_line := range_end_line r |}.

Definition defaultRange : Range :=
  {| range_start_line := 1; range_end_line := 1;
     content_hash := None; range_contributor := None |}.

(** ** Properties of range sets named by the specification *)

(** [start_line <= end_line]. *)
Definition well_formed (r : RangePosition) : Prop :=
  (start_line r <= end_line r)%Z.

(** [a] ends before [b] starts. *)
Definition before_range (a b : RangePosition) : Prop :=
  (end_line a < start_line b)%Z.

(** No two ranges of the list share a line. *)
Definition non_overlapping (rs : list RangePosition) : Prop :=
  ForallOrdPairs (fun a b => before_range a b \/ before_range b a) rs.

(** The range set is one range of one line. *)
Definition single_line (rs : list RangePosition) : Prop :=
  exists l, rs = [ {| start_line := l; end_line := l |} ].

(** The range an editing tool sent, as [computeRangePositions] emits it. *)
Definition verbatim (r : ToolRange) : RangePosition :=
  {| start_line := start_line_number r; end_line := end_line_number r |}.

(** ** Sample inputs *)

Module Samples.

Definition lines3 (a b c : string) : string :=
  a ++ JS.nl ++ b ++ JS.nl ++ c.

(** old: line1, line2, line3; new: line1, NEW, line3. *)
Definition middleLineEdit : FileEdit :=
  {| old_string := lines3 "line1" "line2" "line3";
     new_string := lines3 "line1" "NEW" "line3";
     range := None |}.

Definition middleLineFile : string := lines3 "line1" "NEW" "line3".

(** A deletion that carries a range: the new text is empty. *)
Definition rangedDeletion : FileEdit :=
  {| old_string := "foo";
     new_string := "";
     range := Some {| start_line_number := 5; end_line_number := 7;
                      start_column := 1; end_column := 4 |} |}.

(** An insertion that carries a range. *)
Definition rangedInsertion : FileEdit :=
  {| old_string := "old";
     new_string := "new content" ++ JS.nl ++ "line 2";
     range := Some {| start_line_number := 10; end_line_number := 15;
                      start_column := 1; end_column := 10 |} |}.

(** A range sent with its ends swapped. *)
Definition swappedRange : FileEdit :=
  {| old_string := "";
     new_string := "x";
     range := Some {| start_line_number := 5; end_line_number := 3;
                      start_column := 1; end_column := 1 |} |}.

Definition insertA : FileEdit :=
  {| old_string := ""; new_string := "a"; range := None |}.

Definition insertB : FileEdit :=
  {| old_string := ""; new_string := "b"; range := None |}.

(** An edit that changes nothing. *)
Definition noop : FileEdit :=
  {| old_string := "same"; new_string := "same"; range := None |}.

(** A process started by Cursor in the project /home/user/project. *)
Definition cursorEnv : ProcessEnv :=
  {| CURSOR_PROJECT_DIR := Some "/home/user/project";
     CLAUDE_PROJECT_DIR := None;
     CURSOR_VERSION := Some "1.0.0";
     gitShowToplevel := Throws "ENOENT";
     gitRevParseHead := fun _ => Throws "ENOENT";
     cwd := "/home/user/project";
     randomUUID := "00000000-0000-4000-8000-000000000000";
     nowISOString := "2026-01-01T00:00:00.000Z" |}.

(** A process with neither variable set, outside of any repository. *)
Definition bareEnv : ProcessEnv :=
  {| CURSOR_PROJECT_DIR := None;
     CLAUDE_PROJECT_DIR := None;
     CURSOR_VERSION := None;
     gitShowToplevel := Throws "not a git repository";
     gitRevParseHead := fun _ => Throws "not a git repository";
     cwd := "/tmp";
     randomUUID := "00000000-0000-4000-8000-000000000000";
     nowISOString := "2026-01-01T00:00:00.000Z" |}.

Definition noOptions : TraceOptions :=
  {| model := None; rangePositions := None; transcript := None;
     opt_metadata := None |}.

Definition twoRanges : TraceOptions :=
  {| model := Some "claude-3-opus";
     rangePositions := Some [ {| start_line := 4; end_line := 6 |};
                              {| start_line := 2; end_line := 2 |} ];
     transcript := None;
     opt_metadata := None |}.

(** A file in a directory next to the project whose name starts with the
    name of the project. *)
Definition siblingFile : string := "/home/user/project-other/file.ts".

(** A disk that holds directories and files, and may be mounted
    read-only. *)
Record Disk := {
  readOnly : bool;
  directories : list string;
  contents : list (string * string)
}.

Definition diskPlatform : Platform Disk :=
  {| existsSync := fun d p => existsb (String.eqb p) (directories d);
     mkdirSync := fun d p =>
       if readOnly d then Throws "EROFS"
       else Returns {| readOnly := false;
                       directories := p :: directories d;
                       contents := contents d |};
     appendFileSync := fun d p data =>
       if readOnly d then Throws "EROFS"
       else Returns {| readOnly := false;
                       directories := directories d;
                       contents := (p, data) :: contents d |};
     join := fun a b => a ++ "/" ++ b;
     stringify := fun _ => "{}" |}.

Definition readOnlyDisk : Disk :=
  {| readOnly := true; directories := []; contents := [] |}.

Definition emptyRecord : TraceRecord :=
  {| version := "1.0"; id := ""; timestamp := ""; vcs := None; tool := None;
     files := []; metadata := None |}.

(** A quotation mark, and a word between two of them. *)
Definition quote : string := String "034"%char "".

Definition quoted (word : string) : string := quote ++ word ++ quote.

(** The record [{"message":{"model":"m"}}], 25 bytes. *)
Definition modelRecord : string :=
  "{" ++ quoted "message" ++ ":{" ++ quoted "model" ++ ":" ++ quoted "m"
  ++ "}}".

Fixpoint spaces (n : nat) : string :=
  match n with
  | O => EmptyString
  | S n' => String " "%char (spaces n')
  end.

(** A transcript of 4097 bytes and one line: the letter x, the record, and
    4071 spaces. The line is not JSON; its last 4096 bytes are. *)
Definition garbledTranscript : string := "x" ++ modelRecord ++ spaces 4071.

(** A transcript of 4099 bytes and two lines: xx, and the record followed
    by 4071 spaces. The first window of 4096 bytes starts after the line
    feed, on the line of the record. *)
Definition alignedTranscript : string :=
  "xx" ++ JS.nl ++ modelRecord ++ spaces 4071.

(** A transcript whose last record carries a model. *)
Definition shortTranscript : string :=
  "{}" ++ JS.nl ++ "not json" ++ JS.nl ++ modelRecord ++ JS.nl.

(** The record behind a byte order mark (the bytes EF BB BF), which
    decodes to U+FEFF and is trimmed. *)
Definition markedTranscript : string :=
  String "239" (String "187" (String "191" (modelRecord ++ JS.nl))).

(** The record behind the byte A0, which is no UTF-8: it decodes to
    U+FFFD, which [trim] keeps, and the line does not parse. *)
Definition strayByteTranscript : string :=
  String "160" (modelRecord ++ JS.nl).

(** A record whose model is the letter e with an acute accent, the bytes
    C3 A9. *)
Definition accentTranscript : string :=
  "{" ++ quoted "message" ++ ":{" ++ quoted "model" ++ ":"
  ++ quoted (String "195" (String "169" "")) ++ "}}" ++ JS.nl.

End Samples.

(** ** Texts as lists of lines *)

(** [c] does not occur in [s]. *)
Fixpoint lacks (c : ascii) (s : string) : bool :=
  match s with
  | EmptyString => true
  | String d s' => negb (Ascii.eqb d c) && lacks c s'
  end.

(** How often [c] occurs in [s]. *)
Fixpoint countChar (c : ascii) (s : string) : nat :=
  match s with
  | EmptyString => 0
  | String d s' => (if Ascii.eqb d c then 1 else 0) + countChar c s'
  end.

(** The text whose lines are [lines]: [lines.join("\n")]. *)
Definition joinLines (lines : list string) : string :=
  String.concat JS.nl lines.

(** The line [line] lies in one of the ranges. *)
Definition covers (rs : list RangePosition) (line : Z) : Prop :=
  Exists (fun r => (start_line r <= line <= end_line r)%Z) rs.

(** At least one line lies between the end of [a] and the start of [b]. *)
Definition separated (a b : RangePosition) : Prop :=
  (end_line a + 1 < start_line b)%Z.

(** [s] is [before ++ needle ++ after], and no occurrence of [needle] in
    [s] starts further left. *)
Definition first_occurrence (needle s before after : string) : Prop :=
  s = before ++ needle ++ after /\
  forall b a, s = b ++ needle ++ a -> String.length before <= String.length b.

(** The number of the line a text starts on when [before] precedes it: one
    more than the line feeds in [before]. *)
Definition lineOf (before : string) : Z :=
  Z.of_nat (S (countChar JS.LF before)).

(** The number of lines of a text. *)
Definition lineCount (text : string) : Z :=
  Z.of_nat (S (countChar JS.LF text)).

(** ** Plain path segments *)

(** A segment that [path.resolve] keeps as it is: not empty, not [.] or
    [..], and without a slash. *)
Definition plain (segment : string) : bool :=
  negb (String.eqb segment "") && negb (String.eqb segment ".")
  && negb (String.eqb segment "..") && lacks Path.slash segment.

(** The absolute path of the segments. *)
Definition absolute (segments : list string) : string :=
  "/" ++ String.concat "/" segments.

(** ** More sample inputs *)

Module Cases.

(** Two lines are added between lines that the tool sent along as
    context. *)
Definition importsBefore : list string := ["import a"; "import b"].

Definition importsAdded : list string := ["import c"; "import d"].

Definition bodyAfter : list string := [""; "main()"].

Definition importEdit : FileEdit :=
  {| old_string := joinLines (importsBefore ++ bodyAfter);
     new_string := joinLines (importsBefore ++ importsAdded ++ bodyAfter);
     range := None |}.

(** The file after the edit: a comment line, then the new text, then a
    last line. *)
Definition importFile : string :=
  joinLines (["// header"] ++ importsBefore ++ importsAdded ++ bodyAfter
             ++ ["// end"]).

(** Three lines inserted after the first line of a file of five lines. *)
Definition insertedLines : FileEdit :=
  {| old_string := "";
     new_string := joinLines ["multi"; "line"; "content"];
     range := None |}.

Definition fiveLineFile : string :=
  joinLines ["line 1"; "multi"; "line"; "content"; "line 5"].

(** Three lines that the file does not hold. *)
Definition strayLines : FileEdit :=
  {| old_string := "";
     new_string := joinLines ["new"; "stuff"; "here"];
     range := None |}.

End Cases.

(** What the specification calls "containing a provider separator" and
    "matching a prefix", as propositions on strings. *)
Definition contains (needle s : string) : Prop :=
  exists before after, s = before ++ needle ++ after.

Definition has_prefix (p s : string) : Prop :=
  exists rest, s = p ++ rest.

(** ** Hook handler *)

(** The line ranges a record attributes, file by file and conversation by
    conversation. *)
Definition attributed (record : TraceRecord) : list RangePosition :=
  flat_map
    (fun entry =>
       flat_map (fun c => map position_of (ranges c)) (conversations entry))
    (files record).

(** The links to a transcript a record holds. *)
Definition transcripts (record : TraceRecord) : list (option string) :=
  flat_map (fun entry => map url (conversations entry)) (files record).

(** The range a tool sent with an edit, when it sent one. *)
Definition sentRange (edit : FileEdit) : list RangePosition :=
  match range edit with
  | Some r => [verbatim r]
  | None => []
  end.

Module Hook.

(** The fields of the payload that the model resolver and the two file-edit
    handlers of Cursor read; a field the payload lacks is [None]. *)
Record HookInput := {
  hook_event_name : string;
  model : option string;
  transcript_path : option string;
  conversation_id : option string;
  generation_id : option string;
  file_path : option string;
  edits : option (list FileEdit)
}.

(** The model of the payload is a string; the model of a transcript is
    the JSON value that was parsed. *)
Definition resolveModel (fs : FileSystem) (input : HookInput)
  : outcome (option Json.value) :=
  match model input with
  | Some (String c rest) =>
      Returns (Some (Json.Str (Json.units_of (String c rest))))
  | _ =>
      match transcript_path input with
      | Some (String c rest) =>
          extractModelFromTranscript fs (String c rest)
      | _ => Returns None
      end
  end.

(** [input.edits ?? []]. *)
Definition editsOf (input : HookInput) : list FileEdit :=
  match edits input with
  | Some es => es
  | None => []
  end.

(** A property of the [metadata] object. The record is only ever passed to
    [JSON.stringify], which leaves out a property whose value is
    [undefined]; such a property is left out of the list. *)
Definition property (key : string) (value : option string)
  : list (string * Json.value) :=
  match value with
  | Some s => [(key, Json.Str (Json.units_of s))]
  | None => []
  end.

(** [tryReadFile(input.file_path!)]. The assertion [!] is erased when the
    source is compiled: without a path [readFileSync] throws, and
    [tryReadFile] catches. *)
Definition readEdited (fs : FileSystem) (filePath : option string)
  : outcome (option string) :=
  match filePath with
  | Some p => tryReadFile fs p
  | None => try_catch (Throws "ERR_INVALID_ARG_TYPE") (fun _ => Returns None)
  end.

(** [createTrace("ai", input.file_path!, options)]. Without a path the call
    throws at [absolutePath.startsWith], after the workspace root was looked
    up. *)
Definition traceEdited (env : ProcessEnv) (filePath : option string)
  (opts : TraceOptions) : outcome TraceRecord :=
  match filePath with
  | Some p => createTrace env ai p opts
  | None => bind (getWorkspaceRoot env) (fun _ => Throws "TypeError")
  end.

Definition afterFileEdit {World : Type} (os : Platform World)
  (env : ProcessEnv) (fs : FileSystem) (w : World) (input : HookInput)
  : outcome World :=
  (content <- readEdited fs (file_path input) ;;
   let rangePositions := computeRangePositions (editsOf input) content in
   trace <- traceEdited env (file_path input)
              (Build_TraceOptions (model input) (Some rangePositions)
                 (transcript_path input)
                 (Some (property "conversation_id" (conversation_id input)
                        ++ property "generation_id" (generation_id input))
                         %list)) ;;
   appendTrace os env w trace)%outcome.

Definition afterTabFileEdit {World : Type} (os : Platform World)
  (env : ProcessEnv) (w : World) (input : HookInput) : outcome World :=
  (let rangePositions := computeRangePositions (editsOf input) None in
   trace <- traceEdited env (file_path input)
              (Build_TraceOptions (model input) (Some rangePositions) None
                 (Some (property "conversation_id" (conversation_id input)
                        ++ property "generation_id" (generation_id input))
                         %list)) ;;
   appendTrace os env w trace)%outcome.

End Hook.

(** ** Heading anchors of the documentation site *)

Module Site.
Local Open Scope nat_scope.

(** [toLowerCase] on one code unit below 256: the letters A to Z, and the
    capital letters of Latin-1 from 192 to 222 apart from the
    multiplication sign. *)
Definition toLowerCaseUnit (c : ascii) : ascii :=
  let n := nat_of_ascii c in
  if ((65 <=? n) && (n <=? 90))
     || ((192 <=? n) && (n <=? 222) && negb (n =? 215))
  then ascii_of_nat (n + 32)
  else c.

Fixpoint toLowerCase (s : string) : string :=
  match s with
  | EmptyString => EmptyString
  | String c s' => String (toLowerCaseUnit c) (toLowerCase s')
  end.

(** The class [\w]: letters, digits and the underscore. *)
Definition isWord (c : ascii) : bool :=
  let n := nat_of_ascii c in
  ((65 <=? n) && (n <=? 90)) || ((97 <=? n) && (n <=? 122))
  || ((48 <=? n) && (n <=? 57)) || (n =? 95).

Definition isHyphen (c : ascii) : bool := Ascii.eqb c "-".

(** [replace(/[^\w\s-]/g, "")]. *)
Fixpoint removeSpecial (s : string) : string :=
  match s with
  | EmptyString => EmptyString
  | String c s' =>
      if isWord c || Trim.isWhiteSpace c || isHyphen c
      then String c (removeSpecial s')
      else removeSpecial s'
  end.

(** [replace(/C+/g, "-")] for a class [C] of code units: every maximal run
    of [C] becomes one hyphen. [inRun] tells that the unit before was in
    [C]. *)
Fixpoint replaceRuns (C : ascii -> bool) (inRun : bool) (s : string)
  : string :=
  match s with
  | EmptyString => EmptyString
  | String c s' =>
      if C c then
        if inRun then replaceRuns C true s'
        else String "-" (replaceRuns C true s')
      else String c (replaceRuns C false s')
  end.

Definition slugify (text : string) : string :=
  Trim.trim
    (replaceRuns isHyphen false
       (replaceRuns Trim.isWhiteSpace false
          (removeSpecial (toLowerCase text)))).

(** *** What a slug is made of *)

(** A small letter, a digit, an underscore or a hyphen. *)
Definition isSlugUnit (c : ascii) : bool :=
  let n := nat_of_ascii c in
  ((97 <=? n) && (n <=? 122)) || ((48 <=? n) && (n <=? 57))
  || (n =? 95) || (n =? 45).

(** Every code unit of [s] satisfies [p]. *)
Fixpoint every (p : ascii -> bool) (s : string) : bool :=
  match s with
  | EmptyString => true
  | String c s' => p c && every p s'
  end.

(** Two code units of [s] that follow each other both satisfy [p]. *)
Fixpoint adjacent (p : ascii -> bool) (s : string) : bool :=
  match s with
  | EmptyString => false
  | String c s' =>
      match s' with
      | EmptyString => false
      | String d _ => (p c && p d) || adjacent p s'
      end
  end.

End Site.

(** ** Facts about the string primitives *)

Module JSFacts.
Import JS.

Lemma startsWith_app (p r : string) : startsWith (p ++ r) p = true.
Proof.
  induction p as [|c p IH]; simpl; [reflexivity|].
  now rewrite Ascii.eqb_refl.
Qed.

Lemma startsWith_has_prefix (s p : string) :
  startsWith s p = true <-> has_prefix p s.
Proof.
  split.
  - revert s. induction p as [|c p IH]; intros s H.
    + now exists s.
    + destruct s as [|d s]; simpl in H; [discriminate|].
      destruct (Ascii.eqb c d) eqn:E; [|discriminate].
      apply Ascii.eqb_eq in E. subst d.
      destruct (IH _ H) as [r ->]. now exists r.
  - intros [r ->]. apply startsWith_app.
Qed.

Lemma indexOfFrom_shift (s needle : string) (pos : nat) :
  indexOfFrom s needle pos =
  option_map (fun i => i + pos) (indexOfFrom s needle 0).
Proof.
  revert pos. induction s as [|c s IH]; intros pos; simpl.
  - destruct (startsWith "" needle); reflexivity.
  - destruct (startsWith (String c s) needle); [reflexivity|].
    rewrite (IH (S pos)), (IH 1).
    destruct (indexOfFrom s needle 0); simpl; [f_equal; lia|reflexivity].
Qed.

(** The offset found by [indexOfFrom] splits the string at an occurrence. *)
Lemma indexOfFrom_Some (s needle : string) (i : nat) :
  indexOfFrom s needle 0 = Some i ->
  exists before after,
    s = before ++ needle ++ after /\ String.length before = i.
Proof.
  revert i. induction s as [|c s IH]; intros i; simpl.
  - destruct (startsWith "" needle) eqn:E; [|discriminate].
    intros [= <-]. apply startsWith_has_prefix in E. destruct E as [r E].
    exists "", r. now split.
  - destruct (startsWith (String c s) needle) eqn:E.
    + intros [= <-]. apply startsWith_has_prefix in E. destruct E as [r E].
      exists "", r. now split.
    + rewrite indexOfFrom_shift.
      destruct (indexOfFrom s needle 0) as [j|] eqn:Ej; [|discriminate].
      simpl. intros [= <-].
      destruct (IH j eq_refl) as (b & a & -> & Hlen).
      exists (String c b), a. split; [reflexivity|]. simpl. lia.
Qed.

Lemma indexOfFrom_None (s needle : string) :
  indexOfFrom s needle 0 = None -> ~ contains needle s.
Proof.
  induction s as [|c s IH]; simpl.
  - destruct (startsWith "" needle) eqn:E; [discriminate|].
    intros _ (b & a & H).
    destruct b; simpl in H; [|discriminate].
    rewrite H, startsWith_app in E. discriminate.
  - destruct (startsWith (String c s) needle) eqn:E; [discriminate|].
    rewrite indexOfFrom_shift.
    destruct (indexOfFrom s needle 0) eqn:Ej; [discriminate|].
    intros _ (b & a & H).
    destruct b as [|d b]; simpl in H.
    + rewrite H, startsWith_app in E. discriminate.
    + injection H as -> ->. apply IH; [reflexivity|]. now exists b, a.
Qed.

Lemma includes_contains (s needle : string) :
  includes s needle = true <-> contains needle s.
Proof.
  unfold includes. destruct (indexOfFrom s needle 0) as [i|] eqn:E.
  - split; [intros _|reflexivity].
    destruct (indexOfFrom_Some _ _ _ E) as (b & a & H & _). now exists b, a.
  - split; [discriminate|]. intros H. now apply indexOfFrom_None in E.
Qed.

Lemma truthy_nonempty (s : string) : truthy s = true <-> s <> "".
Proof. destruct s; simpl; split; congruence. Qed.

End JSFacts.

(** ** [JSON.parse] needs no more fuel than it is given *)

Module JsonFacts.
Import Json.
Local Open Scope nat_scope.

Lemma skipWs_length (s : list N) :
  List.length (skipWs s) <= List.length s.
Proof.
  induction s as [|c s IH]; simpl; [lia|].
  destruct (isWs c); simpl; lia.
Qed.

Lemma skipWs_cons (s : list N) (c : N) (rest : list N) :
  skipWs s = c :: rest -> List.length rest < List.length s.
Proof.
  intros H. pose proof (skipWs_length s) as L. rewrite H in L. simpl in L. lia.
Qed.

Lemma takeDigits_length (s : list N) (acc : Z) (count : nat) :
  List.length (snd (takeDigits s acc count)) <= List.length s.
Proof.
  revert acc count. induction s as [|c s IH]; intros acc count; simpl; [lia|].
  destruct (digit c); simpl; [|lia].
  specialize (IH (acc * 10 + z)%Z (S count)). lia.
Qed.

Lemma afterPrefix_length (s : list N) (name : string) (rest : list N) :
  afterPrefix s name = Some rest ->
  List.length s = String.length name + List.length rest.
Proof.
  revert s. induction name as [|c name IH]; intros s; simpl.
  - now intros [= ->].
  - destruct s as [|d s]; [discriminate|].
    destruct (N_of_ascii c =? d)%N; [|discriminate].
    intros H. simpl. now rewrite (IH _ H).
Qed.

Lemma parseLiteral_length (name : string) (v w : value)
  (s rest : list N) :
  name <> EmptyString ->
  parseLiteral name v s = Parsed w rest ->
  List.length rest < List.length s.
Proof.
  unfold parseLiteral. intros Hn.
  destruct (afterPrefix s name) as [r|] eqn:E; [|discriminate].
  intros [= _ <-]. apply afterPrefix_length in E.
  destruct name; [contradiction|]. simpl in E. lia.
Qed.

Lemma parseLiteral_fuel (name : string) (v : value) (s : list N) :
  parseLiteral name v s <> NoFuel.
Proof. unfold parseLiteral. destruct (afterPrefix s name); discriminate. Qed.

Lemma parseChars_length (s : list N) :
  match parseChars s with
  | Parsed _ rest => List.length rest < List.length s
  | SyntaxError => True
  | NoFuel => False
  end.
Proof.
  assert (H : forall n s, List.length s <= n ->
            match parseChars s with
            | Parsed _ rest => List.length rest < List.length s
            | SyntaxError => True
            | NoFuel => False
            end); [|now apply (H (List.length s))].
  clear s. induction n as [|n IH]; intros s Hn.
  { destruct s; [exact I|simpl in Hn; lia]. }
  destruct s as [|c s1]; [exact I|].
  cbn [parseChars]. simpl in Hn.
  destruct (c =? 34)%N; [simpl in *; lia|].
  destruct (c =? 92)%N.
  - destruct s1 as [|e s2]; [exact I|].
    destruct (e =? 117)%N.
    + destruct s2 as [|h1 [|h2 [|h3 [|h4 s6]]]]; try exact I.
      destruct (hexDigit h1), (hexDigit h2), (hexDigit h3), (hexDigit h4);
        try exact I.
      specialize (IH s6 ltac:(simpl in Hn; lia)).
      destruct (parseChars s6); simpl in *; [lia|exact I|exact IH].
    + destruct (simpleEscape e); [|exact I].
      specialize (IH s2 ltac:(simpl in Hn; lia)).
      destruct (parseChars s2); simpl in *; [lia|exact I|exact IH].
  - destruct (c <? 32)%N; [exact I|].
    specialize (IH s1 ltac:(lia)).
    destruct (parseChars s1); simpl in *; [lia|exact I|exact IH].
Qed.

Ltac split_parser :=
  repeat
    (cbn [fst snd orb];
     match goal with
     | H : digit ?c = _ |- context [digit ?c] => rewrite H
     | |- context [takeDigits (?c :: ?s) ?acc ?count] => cbn [takeDigits]
     | |- context [takeDigits ?s ?acc ?count] =>
         let L := fresh "L" in
         pose proof (takeDigits_length s acc count) as L;
         destruct (takeDigits s acc count) as [[? ?] ?]; simpl in L
     | |- context [digit ?c] => destruct (digit c) eqn:?
     | |- context [N.eqb ?a ?b] => destruct (N.eqb a b)
     | |- context [match ?x with _ => _ end] => is_var x; destruct x
     end).

Lemma parseNumber_length (s : list N) :
  match parseNumber s with
  | Parsed _ rest => List.length rest < List.length s
  | SyntaxError => True
  | NoFuel => False
  end.
Proof.
  unfold parseNumber. split_parser; simpl in *; try exact I; lia.
Qed.

Lemma parser_fuel (fuel : nat) :
  (forall s, within (2 * List.length s + 1) fuel s (parseValue fuel s)) /\
  (forall s, within (2 * List.length s + 2) fuel s (parseElements fuel s)) /\
  (forall s, within (2 * List.length s + 2) fuel s (parseMembers fuel s)).
Proof.
  induction fuel as [|fuel (IHv & IHe & IHm)].
  { repeat split; intros s; simpl; lia. }
  repeat split; intros s.
  - cbn [parseValue].
    destruct (skipWs s) as [|c s1] eqn:Ws; [exact I|].
    apply skipWs_cons in Ws.
    destruct (c =? 123)%N.
    { destruct (skipWs s1) as [|d s2] eqn:Ws1; [exact I|].
      apply skipWs_cons in Ws1.
      destruct (d =? 125)%N; [simpl; lia|].
      pose proof (IHm s1) as H.
      destruct (parseMembers fuel s1); simpl in *; lia. }
    destruct (c =? 91)%N.
    { destruct (skipWs s1) as [|d s2] eqn:Ws1; [exact I|].
      apply skipWs_cons in Ws1.
      destruct (d =? 93)%N; [simpl; lia|].
      pose proof (IHe s1) as H.
      destruct (parseElements fuel s1); simpl in *; lia. }
    destruct (c =? 34)%N.
    { pose proof (parseChars_length s1) as H.
      destruct (parseChars s1); simpl in *; [lia|exact I|contradiction]. }
    assert (Hlit : forall name v, name <> EmptyString ->
              within (2 * List.length s + 1) (S fuel) s
                     (parseLiteral name v (c :: s1))).
    { intros name v Hname.
      pose proof (parseLiteral_length name v) as Hl.
      pose proof (parseLiteral_fuel name v (c :: s1)) as Hf.
      destruct (parseLiteral name v (c :: s1)) as [w rest| |] eqn:E;
        [|exact I|contradiction].
      specialize (Hl w _ _ Hname E). simpl in *. lia. }
    destruct (c =? 116)%N; [now apply Hlit|].
    destruct (c =? 102)%N; [now apply Hlit|].
    destruct (c =? 110)%N; [now apply Hlit|].
    pose proof (parseNumber_length (c :: s1)) as H.
    destruct (parseNumber (c :: s1)); simpl in *;
      [lia|exact I|contradiction].
  - cbn [parseElements].
    pose proof (IHv s) as Hv.
    destruct (parseValue fuel s) as [v rest| |]; simpl in *; [|exact I|lia].
    destruct (skipWs rest) as [|c s1] eqn:Ws; [exact I|].
    apply skipWs_cons in Ws.
    destruct (c =? 44)%N.
    { pose proof (IHe s1) as H.
      destruct (parseElements fuel s1); simpl in *; lia. }
    destruct (c =? 93)%N; simpl; [lia|exact I].
  - cbn [parseMembers].
    destruct (skipWs s) as [|q s1] eqn:Ws; [exact I|].
    apply skipWs_cons in Ws.
    destruct (q =? 34)%N; [|exact I].
    pose proof (parseChars_length s1) as Hk.
    destruct (parseChars s1) as [key rest| |]; [|exact I|contradiction].
    destruct (skipWs rest) as [|colon s2] eqn:Ws2; [exact I|].
    apply skipWs_cons in Ws2.
    destruct (colon =? 58)%N; [|exact I].
    pose proof (IHv s2) as Hv.
    destruct (parseValue fuel s2) as [v rest'| |]; simpl in *; [|exact I|lia].
    destruct (skipWs rest') as [|c s3] eqn:Ws3; [exact I|].
    apply skipWs_cons in Ws3.
    destruct (c =? 44)%N.
    { pose proof (IHm s3) as H.
      destruct (parseMembers fuel s3); simpl in *; lia. }
    destruct (c =? 125)%N; simpl; [lia|exact I].
Qed.

(** [JSON.parse] returns or throws on every text. *)
Lemma parse_never_diverges (text : list N) : parse text <> Diverges.
Proof.
  unfold parse.
  destruct (parser_fuel (2 * List.length text + 2)) as (Hv & _ & _).
  specialize (Hv text).
  destruct (parseValue (2 * List.length text + 2) text) as [v rest| |];
    simpl in Hv; [destruct (skipWs rest)| |lia]; discriminate.
Qed.

End JsonFacts.

(** ** The decoder and the lines of a text *)

Module Utf8Facts.
Import Utf8.
Local Open Scope N_scope.

Ltac split_tests :=
  repeat match goal with
         | |- context [?a <=? ?b] => destruct (N.leb_spec a b)
         | |- context [?a <? ?b] => destruct (N.ltb_spec a b)
         | |- context [?a =? ?b] => destruct (N.eqb_spec a b)
         end; cbn [andb orb negb fst snd].

Ltac masked b n :=
  let Hd := fresh "Hd" in
  let Hm := fresh "Hm" in
  pose proof (N.div_mod b n ltac:(discriminate)) as Hd;
  pose proof (N.mod_lt b n ltac:(discriminate)) as Hm;
  generalize dependent (b mod n); generalize dependent (b / n); intros.

Lemma unitsOf_high (codePoint : N) :
  128 <= codePoint -> ~ In 10 (unitsOf codePoint).
Proof.
  intros H. unfold unitsOf.
  generalize ((codePoint - 0x10000) / 0x400)
             ((codePoint - 0x10000) mod 0x400). intros q r.
  split_tests; cbn [In]; intros Hin;
    repeat destruct Hin as [E|Hin]; try lia; contradiction.
Qed.

Lemma lead_facts (b : N) :
  reached (snd (lead b)) /\
  (b <> 10 -> ~ In 10 (fst (lead b))) /\
  (b = 10 -> lead b = ([10], Start)).
Proof.
  unfold lead.
  destruct (N.leb_spec b 0x7F) as [Hascii|Hhigh].
  { cbn [fst snd reached In]. repeat split.
    - intros Hb [E|[]]. now apply Hb.
    - now intros ->. }
  assert (Hno : b = 10 -> False) by (intros ->; discriminate Hhigh).
  destruct ((0xC2 <=? b) && (b <=? 0xDF)) eqn:H2.
  { apply andb_true_iff in H2. destruct H2 as [Hl Hu].
    apply N.leb_le in Hl, Hu. masked b 32.
    cbn [fst snd reached In]. repeat split; try lia; tauto. }
  destruct ((0xE0 <=? b) && (b <=? 0xEF)) eqn:H3.
  { apply andb_true_iff in H3. destruct H3 as [Hl Hu].
    apply N.leb_le in Hl, Hu. masked b 16.
    cbn [fst snd reached In]. repeat split; try tauto.
    - destruct (N.eqb_spec b 0xE0); lia.
    - destruct (N.eqb_spec b 0xED); lia.
    - destruct (N.eqb_spec b 0xE0); [right|left]; lia. }
  destruct ((0xF0 <=? b) && (b <=? 0xF4)) eqn:H4.
  { apply andb_true_iff in H4. destruct H4 as [Hl Hu].
    apply N.leb_le in Hl, Hu. masked b 8.
    cbn [fst snd reached In]. repeat split; try tauto.
    - destruct (N.eqb_spec b 0xF0); lia.
    - destruct (N.eqb_spec b 0xF4); lia.
    - destruct (N.eqb_spec b 0xF0); [right|left]; lia. }
  cbn [fst snd reached In]. repeat split; try tauto.
  intros _ [E|[]]. discriminate E.
Qed.

Lemma step_facts (st : state) (b : N) :
  reached st ->
  reached (snd (step st b)) /\
  (b <> 10 -> ~ In 10 (fst (step st b))) /\
  (b = 10 -> step st b = (flush st ++ [10], Start)%list).
Proof.
  destruct st as [|needed codePoint lower upper]; [intros _; apply lead_facts|].
  intros (Hlower & Hupper & Hbits). cbn [step].
  destruct ((lower <=? b) && (b <=? upper)) eqn:Hrange.
  - apply andb_true_iff in Hrange. destruct Hrange as [Hl Hu].
    apply N.leb_le in Hl, Hu. masked b 64.
    destruct needed as [|[|[|[|needed]]]]; try contradiction;
      cbn [fst snd reached]; (split; [|split]); try lia;
      try exact I; try (intros _ []).
    intros _. apply unitsOf_high. lia.
  - destruct (lead_facts b) as (Hst & Hunits & Hfeed).
    destruct (lead b) as [us st'] eqn:E. cbn [fst snd] in *.
    split; [exact Hst|]. split.
    + intros Hb [Hr|Hin]; [discriminate|]. now apply Hunits.
    + intros Hb. specialize (Hfeed Hb). now injection Hfeed as -> ->.
Qed.

Lemma split_after (us rest first : list N) (pieces : list (list N))
  (sep : N) :
  ~ In sep us ->
  Units.split rest sep = first :: pieces ->
  Units.split (us ++ rest) sep = (us ++ first)%list :: pieces.
Proof.
  intros Hus Hrest. induction us as [|u us IH]; [exact Hrest|].
  cbn [app Units.split].
  destruct (N.eqb_spec u sep) as [->|_]; [elim Hus; now left|].
  rewrite IH; [reflexivity|]. intros Hin. apply Hus. now right.
Qed.

Lemma line_feed_byte (c : ascii) :
  N_of_ascii c = 10 <-> c = JS.LF.
Proof.
  split; [|now intros ->].
  intros H. rewrite <- (ascii_N_embedding c), H. reflexivity.
Qed.

(** The lines of the decoded text are the decoded lines of the bytes: a
    line feed is one byte, ends every character that was begun, and is no
    part of another character. *)
Lemma decodeFrom_lines (st : state) (bytes : string) :
  reached st ->
  exists first rest,
    JS.split bytes JS.LF = first :: rest /\
    Units.split (decodeFrom st bytes) Units.LF
    = decodeFrom st first :: map decode rest.
Proof.
  revert st. induction bytes as [|c bytes IH]; intros st Hst.
  - exists EmptyString, []. split; [reflexivity|].
    now destruct st.
  - destruct (step_facts st (N_of_ascii c) Hst) as (Hst' & Hunits & Hfeed).
    cbn [JS.split decodeFrom].
    destruct (Ascii.eqb_spec c JS.LF) as [->|Hc].
    + rewrite (Hfeed eq_refl).
      destruct (IH Start I) as (first & rest & Hsplit & Hlines).
      exists EmptyString, (first :: rest). rewrite Hsplit.
      split; [reflexivity|]. rewrite <- app_assoc.
      rewrite (split_after (flush st) _ [] (decode first :: map decode rest));
        [now rewrite app_nil_r
        |destruct st; [intros []|intros [E|[]]; discriminate E]|].
      cbn [app Units.split]. unfold Units.LF at 1. cbn [N.eqb Pos.eqb].
      fold Units.LF. unfold decode. now rewrite Hlines.
    + destruct (step st (N_of_ascii c)) as [us st'] eqn:E.
      cbn [fst snd] in *.
      destruct (IH st' Hst') as (first & rest & Hsplit & Hlines).
      exists (String c first), rest. rewrite Hsplit.
      split; [reflexivity|]. cbn [decodeFrom]. rewrite E.
      apply split_after; [|exact Hlines].
      apply Hunits. intros H. apply Hc. now apply line_feed_byte.
Qed.

Lemma decode_lines (bytes : string) :
  Units.split (decode bytes) Units.LF = map decode (JS.split bytes JS.LF).
Proof.
  destruct (decodeFrom_lines Start bytes I) as (first & rest & -> & Hlines).
  exact Hlines.
Qed.

End Utf8Facts.

(** ** Normalization of model identifiers *)

Section Normalization.
Import JS JSFacts.

(** The loop returns at the first entry of the table whose prefix matches. *)
Lemma firstPrefix_Some (table : list (string * string)) (m qualified : string) :
  firstPrefix table m = Some qualified ->
  exists before prefix provider after,
    table = (before ++ (prefix, provider) :: after)%list /\
    Forall (fun entry => startsWith m (fst entry) = false) before /\
    startsWith m prefix = true /\
    qualified = provider ++ "/" ++ m.
Proof.
  induction table as [|[prefix provider] table IH]; simpl; [discriminate|].
  destruct (startsWith m prefix) eqn:E.
  - intros [= <-]. exists [], prefix, provider, table. auto.
  - intros H. destruct (IH H) as (b & p' & pr & a & -> & Hb & Hp & Hq).
    exists ((prefix, provider) :: b), p', pr, a. auto.
Qed.

Lemma firstPrefix_None (table : list (string * string)) (m : string) :
  firstPrefix table m = None <->
  Forall (fun entry => startsWith m (fst entry) = false) table.
Proof.
  induction table as [|[prefix provider] table IH]; simpl.
  - split; auto.
  - destruct (startsWith m prefix) eqn:E.
    + split; [discriminate|]. intros H. inversion H; subst. simpl in *.
      congruence.
    + rewrite IH. split; [now constructor|]. intros H. now inversion H.
Qed.

Lemma firstPrefix_at (before after : list (string * string))
  (prefix provider m : string) :
  Forall (fun entry => startsWith m (fst entry) = false) before ->
  startsWith m prefix = true ->
  firstPrefix (before ++ (prefix, provider) :: after) m
  = Some (provider ++ "/" ++ m).
Proof.
  induction 1 as [|[p' pr'] before Hx _ IH]; intros Hp; simpl.
  - now rewrite Hp.
  - simpl in Hx. rewrite Hx. now apply IH.
Qed.

Lemma qualified_includes_slash (provider m : string) :
  includes (provider ++ "/" ++ m) "/" = true.
Proof. apply includes_contains. now exists provider, m. Qed.

Lemma qualified_truthy (provider m : string) :
  truthy (provider ++ "/" ++ m) = true.
Proof. destruct provider; reflexivity. Qed.

Lemma not_has_prefix (m p : string) :
  ~ has_prefix p m -> startsWith m p = false.
Proof.
  intros H. destruct (startsWith m p) eqn:E; [|reflexivity].
  now apply startsWith_has_prefix in E.
Qed.

Lemma not_contains (m needle : string) :
  ~ contains needle m -> includes m needle = false.
Proof.
  intros H. destruct (includes m needle) eqn:E; [|reflexivity].
  now apply includes_contains in E.
Qed.

(** C7. [normalizeModelId]: undefined and the empty string give undefined;
    an identifier that contains the separator [/] is returned unchanged;
    otherwise the first prefix of the ordered table (claude-, gpt-, o1, o3,
    gemini-) that the identifier starts with decides the provider and the
    result is provider/identifier; with no such prefix the identifier is
    returned unchanged. In particular claude-3-opus becomes
    anthropic/claude-3-opus and mistral-large stays as it is. *)
Theorem normalizeModelId_contract :
  normalizeModelId None = None /\
  normalizeModelId (Some "") = None /\
  (forall m, m <> "" -> contains "/" m -> normalizeModelId (Some m) = Some m) /\
  prefixes = [ ("claude-", "anthropic"); ("gpt-", "openai"); ("o1", "openai");
               ("o3", "openai"); ("gemini-", "google") ] /\
  (forall m before prefix provider after,
      m <> "" -> ~ contains "/" m ->
      prefixes = (before ++ (prefix, provider) :: after)%list ->
      (forall entry, In entry before -> ~ has_prefix (fst entry) m) ->
      has_prefix prefix m ->
      normalizeModelId (Some m) = Some (provider ++ "/" ++ m)) /\
  (forall m,
      m <> "" -> ~ contains "/" m ->
      (forall entry, In entry prefixes -> ~ has_prefix (fst entry) m) ->
      normalizeModelId (Some m) = Some m) /\
  normalizeModelId (Some "claude-3-opus") = Some "anthropic/claude-3-opus" /\
  normalizeModelId (Some "mistral-large") = Some "mistral-large".
Proof.
  repeat split; try reflexivity.
  - intros m Hm Hc. unfold normalizeModelId.
    apply truthy_nonempty in Hm. rewrite Hm. cbn [negb].
    apply includes_contains in Hc. now rewrite Hc.
  - intros m before prefix provider after Hm Hc Htable Hbefore Hprefix.
    unfold normalizeModelId.
    apply truthy_nonempty in Hm. rewrite Hm. cbn [negb].
    rewrite (not_contains _ _ Hc), Htable.
    rewrite firstPrefix_at; [reflexivity| |now apply startsWith_has_prefix].
    apply Forall_forall. intros entry Hin.
    apply not_has_prefix. now apply Hbefore.
  - intros m Hm Hc Hnone. unfold normalizeModelId.
    apply truthy_nonempty in Hm. rewrite Hm. cbn [negb].
    rewrite (not_contains _ _ Hc).
    replace (firstPrefix prefixes m) with (@None string); [reflexivity|].
    symmetry. apply firstPrefix_None, Forall_forall. intros entry Hin.
    apply not_has_prefix. now apply Hnone.
Qed.

(** C10. [normalizeModelId] is idempotent on every input: a second pass
    leaves the result of the first unchanged. *)
Theorem normalizeModelId_idempotent (m : option string) :
  normalizeModelId (normalizeModelId m) = normalizeModelId m.
Proof.
  destruct m as [m|]; [|reflexivity].
  assert (E : normalizeModelId (Some m) =
              if negb (truthy m) then None
              else if includes m "/" then Some m
              else match firstPrefix prefixes m with
                   | Some qualified => Some qualified
                   | None => Some m
                   end) by reflexivity.
  rewrite E.
  destruct (truthy m) eqn:Hm; cbn [negb]; [|reflexivity].
  destruct (includes m "/") eqn:Hs.
  - exact E.
  - destruct (firstPrefix prefixes m) as [qualified|] eqn:Hp.
    + apply firstPrefix_Some in Hp.
      destruct Hp as (_ & _ & provider & _ & _ & _ & _ & ->).
      unfold normalizeModelId.
      now rewrite qualified_truthy, qualified_includes_slash.
    + exact E.
Qed.

End Normalization.

(** ** The range diff engine *)

Section RangeDiff.
Import JS JSFacts.
Local Open Scope Z_scope.

Lemma split_length_pos (s : string) (sep : ascii) :
  (1 <= List.length (split s sep))%nat.
Proof.
  induction s as [|c s IH]; simpl; [lia|].
  destruct (Ascii.eqb c sep); simpl; [lia|].
  destruct (split s sep); simpl in *; lia.
Qed.

Lemma lineAt_pos (fileContent : string) (idx : Z) : 1 <= lineAt fileContent idx.
Proof.
  unfold lineAt.
  pose proof (split_length_pos (substring fileContent 0 (Z.to_nat idx)) LF).
  lia.
Qed.

Lemma indexOf_found (s needle : string) :
  negb (indexOf s needle =? -1) = true <-> contains needle s.
Proof.
  rewrite <- includes_contains. unfold indexOf, includes.
  destruct (indexOfFrom s needle 0) as [i|]; simpl.
  - destruct (Z.of_nat i =? -1) eqn:E; [apply Z.eqb_eq in E; lia|].
    simpl. tauto.
  - split; discriminate.
Qed.

(** *** The line diff *)

(** The offsets pushed by the loop are those of lines of [newStr], in
    increasing order. *)
Lemma diffLoop_increasing (oldLines newLines : list string)
  (oldIdx newIdx : nat) :
  StronglySorted lt (diffLoop oldLines oldIdx newLines newIdx) /\
  Forall (fun o => newIdx <= o < newIdx + List.length newLines)%nat
         (diffLoop oldLines oldIdx newLines newIdx).
Proof.
  revert oldIdx newIdx.
  induction newLines as [|line rest IH]; intros oldIdx newIdx; simpl.
  - split; constructor.
  - assert (Hshift : forall oi,
      StronglySorted lt (diffLoop oldLines oi rest (S newIdx)) /\
      Forall (fun o => newIdx <= o < newIdx + S (List.length rest))%nat
             (diffLoop oldLines oi rest (S newIdx))).
    { intros oi. destruct (IH oi (S newIdx)) as [Hs Hf]. split; [exact Hs|].
      eapply Forall_impl; [|exact Hf]. simpl. intros; lia. }
    destruct (match nth_error oldLines oldIdx with
              | Some l => String.eqb l line
              | None => false
              end); [apply Hshift|].
    destruct (lookAheadFrom (skipn oldIdx oldLines) oldIdx line);
      [apply Hshift|].
    destruct (IH oldIdx (S newIdx)) as [Hs Hf]. split.
    + constructor; [exact Hs|].
      eapply Forall_impl; [|exact Hf]. simpl. intros; lia.
    + constructor; [lia|].
      eapply Forall_impl; [|exact Hf]. simpl. intros; lia.
Qed.

(** Every line of identical texts is matched in place. *)
Lemma diffLoop_same (done lines : list string) (newIdx : nat) :
  diffLoop (done ++ lines) (List.length done) lines newIdx = [].
Proof.
  revert done newIdx.
  induction lines as [|line rest IH]; intros done newIdx; simpl;
    [reflexivity|].
  rewrite nth_error_app2, Nat.sub_diag by lia. simpl.
  rewrite String.eqb_refl.
  replace (done ++ line :: rest)%list with ((done ++ [line]) ++ rest)%list
    by now rewrite <- app_assoc.
  replace (S (List.length done)) with (List.length (done ++ [line]))
    by (rewrite length_app; simpl; lia).
  apply IH.
Qed.

Lemma diffToFindChangedLines_same (text : string) :
  diffToFindChangedLines text text = [].
Proof. apply (diffLoop_same [] (split text LF) 0). Qed.

(** *** Merging adjacent offsets *)

Lemma mergeLoop_ranges (startLine : Z) (offsets : list nat) :
  forall rangeStart rangeEnd : nat,
    (rangeStart <= rangeEnd)%nat ->
    StronglySorted lt offsets ->
    Forall (fun o => rangeEnd < o)%nat offsets ->
    StronglySorted before_range
      (mergeLoop startLine rangeStart rangeEnd offsets) /\
    Forall (fun r => startLine + Z.of_nat rangeStart <= start_line r
                     /\ start_line r <= end_line r)
      (mergeLoop startLine rangeStart rangeEnd offsets).
Proof.
  induction offsets as [|o rest IH]; intros rangeStart rangeEnd Hle Hs Hf;
    simpl.
  - split; repeat constructor; simpl; lia.
  - inversion Hs as [|? ? Hs' Hall]; subst.
    inversion Hf as [|? ? Ho Hf']; subst.
    assert (Hrest : Forall (fun o' => o < o')%nat rest) by exact Hall.
    destruct (Nat.eqb o (rangeEnd + 1)) eqn:E.
    + apply Nat.eqb_eq in E.
      destruct (IH rangeStart o ltac:(lia) Hs' Hrest) as [H1 H2].
      split; assumption.
    + apply Nat.eqb_neq in E.
      destruct (IH o o ltac:(lia) Hs' Hrest) as [H1 H2].
      split.
      * constructor; [exact H1|].
        eapply Forall_impl; [|exact H2].
        unfold before_range. simpl. intros r [Hr _]. lia.
      * constructor; [simpl; lia|].
        eapply Forall_impl; [|exact H2]. simpl. intros r [Hr Hr']. lia.
Qed.

(** *** The ranges of one edit *)

Lemma fallbackRange_one (fileContent : option string) (edit : FileEdit) :
  exists r, fallbackRange fileContent edit = [r] /\
            1 <= start_line r <= end_line r.
Proof.
  unfold fallbackRange.
  pose proof (split_length_pos (new_string edit) LF) as Hn.
  destruct (truthyContent fileContent).
  - destruct (negb (indexOf (contentOf fileContent) (new_string edit) =? -1)).
    + eexists. split; [reflexivity|]. simpl.
      pose proof (lineAt_pos (contentOf fileContent)
                    (indexOf (contentOf fileContent) (new_string edit))).
      lia.
    + eexists. split; [reflexivity|]. simpl. lia.
  - eexists. split; [reflexivity|]. simpl. lia.
Qed.

Lemma diffed_ranges (startLine : Z) (oldStr newStr : string) :
  1 <= startLine ->
  let rs := match diffToFindChangedLines oldStr newStr with
            | [] => []
            | first :: others => mergeLoop startLine first first others
            end in
  StronglySorted before_range rs /\
  Forall (fun r => 1 <= start_line r <= end_line r) rs.
Proof.
  intros Hstart. unfold diffToFindChangedLines.
  destruct (diffLoop_increasing (split oldStr LF) (split newStr LF) 0 0)
    as [Hs _].
  destruct (diffLoop (split oldStr LF) 0 (split newStr LF) 0)
    as [|first others]; simpl.
  - split; constructor.
  - inversion Hs as [|? ? Hs' Hall]; subst.
    destruct (mergeLoop_ranges startLine others first first
                ltac:(lia) Hs' Hall) as [H1 H2].
    split; [exact H1|].
    eapply Forall_impl; [|exact H2]. simpl. intros r [Hr Hr']. lia.
Qed.

Lemma editRanges_sorted (fileContent : option string) (edit : FileEdit) :
  StronglySorted before_range (editRanges fileContent edit).
Proof.
  unfold editRanges. destruct (range edit) as [r|].
  - repeat constructor.
  - assert (Hfb : StronglySorted before_range (fallbackRange fileContent edit)).
    { destruct (fallbackRange_one fileContent edit) as (r & -> & _).
      repeat constructor. }
    destruct (truthy (old_string edit) && truthy (new_string edit)
              && truthyContent fileContent)%bool; [|exact Hfb].
    destruct (negb (indexOf (contentOf fileContent) (new_string edit) =? -1));
      [|exact Hfb].
    apply diffed_ranges, lineAt_pos.
Qed.

Lemma editRanges_line_numbers (fileContent : option string) (edit : FileEdit) :
  range edit = None ->
  Forall (fun r => 1 <= start_line r <= end_line r)
         (editRanges fileContent edit).
Proof.
  intros Hr. unfold editRanges. rewrite Hr.
  assert (Hfb : Forall (fun r => 1 <= start_line r <= end_line r)
                       (fallbackRange fileContent edit)).
  { destruct (fallbackRange_one fileContent edit) as (r & -> & H).
    now repeat constructor. }
  destruct (truthy (old_string edit) && truthy (new_string edit)
            && truthyContent fileContent)%bool; [|exact Hfb].
  destruct (negb (indexOf (contentOf fileContent) (new_string edit) =? -1));
    [|exact Hfb].
  apply diffed_ranges, lineAt_pos.
Qed.

(** *** The whole call *)

Lemma computeRangePositions_app (before after : list FileEdit)
  (fileContent : option string) :
  computeRangePositions (before ++ after) fileContent =
  (computeRangePositions before fileContent ++
   computeRangePositions after fileContent)%list.
Proof.
  unfold computeRangePositions. now rewrite filter_app, flat_map_app.
Qed.

Lemma computeRangePositions_one (edit : FileEdit)
  (fileContent : option string) :
  computeRangePositions [edit] fileContent =
  if truthy (new_string edit) then editRanges fileContent edit else [].
Proof.
  unfold computeRangePositions. simpl.
  destruct (truthy (new_string edit)); simpl; [apply app_nil_r|reflexivity].
Qed.

Lemma computeRangePositions_cons (edit : FileEdit) (after : list FileEdit)
  (fileContent : option string) :
  computeRangePositions (edit :: after) fileContent =
  (computeRangePositions [edit] fileContent ++
   computeRangePositions after fileContent)%list.
Proof. apply (computeRangePositions_app [edit] after). Qed.

Lemma sorted_non_overlapping (rs : list RangePosition) :
  StronglySorted before_range rs -> non_overlapping rs.
Proof.
  induction 1 as [|a rs _ IH Hall]; constructor; [|exact IH].
  eapply Forall_impl; [|exact Hall]. simpl. now left.
Qed.

Lemma contains_empty_file (needle : string) :
  contains needle "" -> needle = "".
Proof.
  intros (b & a & H). destruct b; [|discriminate].
  destruct needle; [reflexivity|discriminate].
Qed.

(** C1 (as amended). For old line1/line2/line3 and new line1/NEW/line3 the
    line diff finds the single changed offset 1; without file content
    [computeRangePositions] falls back to the whole new text, lines 1 to 3;
    with the file content line1/NEW/line3 the result is exactly the range
    from line 2 to line 2. *)
Theorem middle_line_edit_ranges :
  diffToFindChangedLines (old_string Samples.middleLineEdit)
                         (new_string Samples.middleLineEdit) = [1%nat] /\
  computeRangePositions [Samples.middleLineEdit] None
  = [ {| start_line := 1; end_line := 3 |} ] /\
  computeRangePositions [Samples.middleLineEdit] (Some Samples.middleLineFile)
  = [ {| start_line := 2; end_line := 2 |} ].
Proof. repeat split; reflexivity. Qed.

(** C1 fails as stated: without file content the range set of the sample
    edit is not a single line, it spans the three lines of the new text. *)
Lemma middle_line_edit_without_file_spans_three_lines :
  ~ (single_line (computeRangePositions [Samples.middleLineEdit] None) /\
     computeRangePositions [Samples.middleLineEdit]
       (Some Samples.middleLineFile)
     = [ {| start_line := 2; end_line := 2 |} ]).
Proof.
  intros [[l H] _].
  change (computeRangePositions [Samples.middleLineEdit] None)
    with [ {| start_line := 1; end_line := 3 |} ] in H.
  injection H as H1 H3. lia.
Qed.

(** C2 (as amended). An edit that carries an explicit range and whose new
    text is not empty contributes exactly that range, whatever its texts
    and whatever the file content, at its place among the ranges of the
    other edits; an edit whose new text is empty contributes nothing, with
    or without a range. *)
Theorem explicit_range_emitted (edit : FileEdit) (r : ToolRange)
  (fileContent : option string) (before after : list FileEdit) :
  range edit = Some r ->
  (new_string edit <> "" ->
   computeRangePositions [edit] fileContent = [verbatim r] /\
   computeRangePositions (before ++ edit :: after) fileContent
   = (computeRangePositions before fileContent
      ++ verbatim r :: computeRangePositions after fileContent)%list) /\
  (new_string edit = "" ->
   computeRangePositions [edit] fileContent = [] /\
   computeRangePositions (before ++ edit :: after) fileContent
   = (computeRangePositions before fileContent
      ++ computeRangePositions after fileContent)%list).
Proof.
  intros Hr.
  rewrite computeRangePositions_app, (computeRangePositions_cons edit after).
  rewrite computeRangePositions_one. unfold editRanges. rewrite Hr.
  split; intros Hnew.
  - apply truthy_nonempty in Hnew. rewrite Hnew. now split.
  - rewrite Hnew. now split.
Qed.

Lemma explicit_range_emitted_witness :
  computeRangePositions [Samples.rangedInsertion] None
  = [ {| start_line := 10; end_line := 15 |} ] /\
  computeRangePositions
    [Samples.insertA; Samples.rangedInsertion; Samples.insertB] None
  = [ {| start_line := 1; end_line := 1 |};
      {| start_line := 10; end_line := 15 |};
      {| start_line := 1; end_line := 1 |} ].
Proof.
  refine (proj1 (explicit_range_emitted Samples.rangedInsertion _
                   None [Samples.insertA] [Samples.insertB] eq_refl) _).
  discriminate.
Defined.

(** C2 fails as stated: an edit with an explicit range and an empty new
    text is dropped by the filter before its range is read. *)
Lemma ranged_deletion_dropped :
  (exists r, range Samples.rangedDeletion = Some r /\
             computeRangePositions [Samples.rangedDeletion] None
             <> [verbatim r]) /\
  computeRangePositions [Samples.rangedDeletion] None = [] /\
  computeRangePositions [Samples.rangedDeletion] (Some "foo") = [].
Proof.
  repeat split. eexists. split; [reflexivity|]. discriminate.
Qed.

(** C3 (as amended). The output lists the ranges of the edits in the order
    of the edits. The ranges of one edit are in ascending order and do not
    overlap. A range computed from the texts (no explicit range) has
    [1 <= start_line <= end_line]; an explicit range is emitted as sent, so
    every range of the output has [start_line <= end_line] when every
    explicit range sent has. Ranges of different edits may overlap. *)
Theorem computeRangePositions_range_sets (fileContent : option string) :
  (forall before after,
      computeRangePositions (before ++ after) fileContent
      = (computeRangePositions before fileContent
         ++ computeRangePositions after fileContent)%list) /\
  (forall edit,
      StronglySorted before_range (computeRangePositions [edit] fileContent)
      /\ non_overlapping (computeRangePositions [edit] fileContent)) /\
  (forall edit,
      range edit = None ->
      Forall (fun r => 1 <= start_line r /\ well_formed r)
             (computeRangePositions [edit] fileContent)) /\
  (forall edits,
      (forall edit r, In edit edits -> range edit = Some r ->
                      start_line_number r <= end_line_number r) ->
      Forall well_formed (computeRangePositions edits fileContent)).
Proof.
  assert (Hsorted : forall edit,
    StronglySorted before_range (computeRangePositions [edit] fileContent)).
  { intros edit. rewrite computeRangePositions_one.
    destruct (truthy (new_string edit));
      [apply editRanges_sorted|constructor]. }
  assert (Hnum : forall edit, range edit = None ->
    Forall (fun r => 1 <= start_line r /\ well_formed r)
           (computeRangePositions [edit] fileContent)).
  { intros edit Hr. rewrite computeRangePositions_one.
    destruct (truthy (new_string edit)); [|constructor].
    eapply Forall_impl; [|apply editRanges_line_numbers, Hr].
    unfold well_formed. simpl. intros; lia. }
  repeat split.
  - intros. apply computeRangePositions_app.
  - apply Hsorted.
  - apply sorted_non_overlapping, Hsorted.
  - exact Hnum.
  - intros edits. induction edits as [|edit edits IH]; intros Hsent.
    + constructor.
    + rewrite computeRangePositions_cons. apply Forall_app. split.
      * destruct (range edit) as [r|] eqn:Hr.
        -- rewrite computeRangePositions_one. unfold editRanges. rewrite Hr.
           destruct (truthy (new_string edit)); repeat constructor.
           unfold well_formed. simpl. apply (Hsent edit r); [now left|exact Hr].
        -- eapply Forall_impl; [|apply Hnum, Hr]. simpl. tauto.
      * apply IH. intros e r Hin. apply Hsent. now right.
Qed.

(** C3 fails as stated: two insertions without file content both fall back
    to line 1 and overlap, and an explicit range sent with its ends swapped
    is emitted with [start_line > end_line]. *)
Lemma overlapping_and_swapped_ranges :
  computeRangePositions [Samples.insertA; Samples.insertB] None
  = [ {| start_line := 1; end_line := 1 |};
      {| start_line := 1; end_line := 1 |} ] /\
  ~ non_overlapping
      (computeRangePositions [Samples.insertA; Samples.insertB] None) /\
  computeRangePositions [Samples.swappedRange] None
  = [ {| start_line := 5; end_line := 3 |} ] /\
  ~ Forall well_formed (computeRangePositions [Samples.swappedRange] None).
Proof.
  assert (E1 : computeRangePositions [Samples.insertA; Samples.insertB] None
               = [ {| start_line := 1; end_line := 1 |};
                   {| start_line := 1; end_line := 1 |} ]) by reflexivity.
  assert (E2 : computeRangePositions [Samples.swappedRange] None
               = [ {| start_line := 5; end_line := 3 |} ]) by reflexivity.
  rewrite E1, E2. repeat split.
  - intros H. inversion H as [|a l Hall _]; subst.
    inversion Hall as [|b l' [Hb|Hb] _]; subst;
      unfold before_range in Hb; simpl in Hb; lia.
  - intros H. inversion H as [|a l Hwf _]; subst.
    unfold well_formed in Hwf. simpl in Hwf. lia.
Qed.

(** C4 (as amended). An edit whose old text equals its new text produces
    no range exactly when the text is empty, or the edit carries no explicit
    range and the supplied file content contains the text. Otherwise it
    yields its explicit range or, with none given (no file content, or the
    text is not found in it), falls back to one range that covers all lines
    of the text. *)
Theorem unchanged_text_ranges (text : string) (sent : option ToolRange)
  (fileContent : option string) :
  (computeRangePositions
     [ {| old_string := text; new_string := text; range := sent |} ]
     fileContent = []
   <-> text = "" \/
       (sent = None /\
        exists content, fileContent = Some content /\ contains text content))
  /\
  (forall r, sent = Some r -> text <> "" ->
     computeRangePositions
       [ {| old_string := text; new_string := text; range := sent |} ]
       fileContent = [verbatim r]) /\
  (sent = None ->
   computeRangePositions
     [ {| old_string := text; new_string := text; range := sent |} ]
     fileContent = [] \/
   exists r,
     computeRangePositions
       [ {| old_string := text; new_string := text; range := sent |} ]
       fileContent = [r] /\
     end_line r - start_line r + 1
     = Z.of_nat (List.length (split text LF))).
Proof.
  rewrite computeRangePositions_one. simpl.
  destruct (truthy text) eqn:Ht.
  2:{ destruct text; [|discriminate].
      split; [split; [now left|reflexivity]|].
      split; [congruence|now left]. }
  assert (Hne : text <> "") by now apply truthy_nonempty.
  destruct sent as [r|].
  { unfold editRanges. simpl. split; [|split].
    - split; [discriminate|]. intros [H|[H _]]; [contradiction|discriminate].
    - now intros r' [= <-] _.
    - discriminate. }
  set (edit := {| old_string := text; new_string := text; range := None |}).
  assert (Hfb : fallbackRange fileContent edit <> [] /\
                exists r, fallbackRange fileContent edit = [r] /\
                  end_line r - start_line r + 1
                  = Z.of_nat (List.length (split text LF))).
  { unfold fallbackRange. simpl.
    destruct (truthyContent fileContent);
      [destruct (negb (indexOf (contentOf fileContent) text =? -1))|];
      (split; [discriminate|eexists; split; [reflexivity|simpl; lia]]). }
  destruct Hfb as [Hfb1 Hfb2].
  unfold editRanges. simpl. rewrite Ht. simpl.
  split; [|split; [discriminate|intros _]].
  - destruct (truthyContent fileContent) eqn:Hc.
    + destruct fileContent as [content|]; [|discriminate]. simpl.
      destruct (negb (indexOf content text =? -1)) eqn:Hidx.
      * rewrite diffToFindChangedLines_same.
        split; [intros _|reflexivity]. right. split; [reflexivity|].
        exists content. split; [reflexivity|]. now apply indexOf_found.
      * split; [intros H; now apply Hfb1 in H|].
        intros [H|(_ & c & [= <-] & H)]; [contradiction|].
        apply indexOf_found in H. congruence.
    + split; [intros H; now apply Hfb1 in H|].
      intros [H|(_ & c & -> & H)]; [contradiction|].
      simpl in Hc. destruct c; [|discriminate].
      now apply contains_empty_file in H.
  - destruct (truthyContent fileContent) eqn:Hc; [|now right].
    destruct fileContent as [content|]; [|discriminate]. simpl.
    destruct (negb (indexOf content text =? -1)); [|now right].
    rewrite diffToFindChangedLines_same. now left.
Qed.

(** C4 fails as stated: without file content an edit that changes nothing
    still yields the fallback range. *)
Lemma unchanged_text_without_file_yields_range :
  old_string Samples.noop = new_string Samples.noop /\
  computeRangePositions [Samples.noop] None
  = [ {| start_line := 1; end_line := 1 |} ] /\
  computeRangePositions [Samples.noop] None <> [].
Proof. repeat split. discriminate. Qed.

End RangeDiff.

(** ** The trace record builder *)

Section Builder.
Import JS JSFacts.

Lemma createTrace_returns (env : ProcessEnv) (type : ContributorType)
  (filePath : string) (opts : TraceOptions) (root : string) :
  getWorkspaceRoot env = Returns root ->
  exists record, createTrace env type filePath opts = Returns record.
Proof. intros H. unfold createTrace. rewrite H. simpl. eauto. Qed.

(** C8. [createTrace] returns a record whenever the workspace root is
    found, whatever the options are, and every record it produces has one
    file entry with one conversation whose ranges are not empty: the
    default range from line 1 to line 1 when no range positions were given
    (the option absent or the empty list), and otherwise the positions
    given, unchanged and in order. *)
Theorem createTrace_ranges (env : ProcessEnv) (type : ContributorType)
  (filePath : string) (opts : TraceOptions) :
  (forall root,
      getWorkspaceRoot env = Returns root ->
      exists record, createTrace env type filePath opts = Returns record) /\
  (forall record,
      createTrace env type filePath opts = Returns record ->
      exists entry conversation,
        files record = [entry] /\
        conversations entry = [conversation] /\
        ranges conversation <> [] /\
        (rangePositions opts = None \/ rangePositions opts = Some [] ->
         ranges conversation = [defaultRange]) /\
        (forall positions,
            rangePositions opts = Some positions -> positions <> [] ->
            ranges conversation = map spread positions /\
            map position_of (ranges conversation) = positions)).
Proof.
  split; [intros root; apply createTrace_returns|].
  intros record. unfold createTrace.
  destruct (getWorkspaceRoot env) as [root| |]; simpl; try discriminate.
  intros [= <-]. simpl. eexists. eexists.
  split; [reflexivity|]. split; [reflexivity|]. simpl.
  destruct (rangePositions opts) as [[|pos more]|]; simpl.
  - split; [discriminate|]. split; [reflexivity|].
    intros positions [= <-]. congruence.
  - split; [discriminate|]. split; [intros [H|H]; discriminate|].
    intros positions [= <-] _. split; [reflexivity|].
    simpl. f_equal; [now destruct pos|].
    rewrite map_map. rewrite <- (map_id more) at 2.
    apply map_ext. now intros [].
  - split; [discriminate|]. split; [reflexivity|]. discriminate.
Qed.

Lemma createTrace_ranges_witness :
  exists record,
    createTrace Samples.cursorEnv ai "/home/user/project/src/a.ts"
      Samples.twoRanges = Returns record /\
    exists entry conversation,
      files record = [entry] /\
      conversations entry = [conversation] /\
      map position_of (ranges conversation)
      = [ {| start_line := 4; end_line := 6 |};
          {| start_line := 2; end_line := 2 |} ].
Proof.
  destruct (createTrace_ranges Samples.cursorEnv ai
              "/home/user/project/src/a.ts" Samples.twoRanges)
    as [Hreturns Hshape].
  destruct (Hreturns "/home/user/project" eq_refl) as [record Hrecord].
  exists record. split; [exact Hrecord|].
  destruct (Hshape record Hrecord)
    as (entry & conversation & Hfiles & Hconversations & _ & _ & Hgiven).
  exists entry, conversation.
  split; [exact Hfiles|]. split; [exact Hconversations|].
  apply (Hgiven _ eq_refl). discriminate.
Defined.

(** [toRelativePath] leaves a path that does not start with the root as it
    was supplied. *)
Lemma toRelativePath_outside (workdir absolutePath root : string) :
  ~ has_prefix root absolutePath ->
  toRelativePath workdir absolutePath root = absolutePath.
Proof.
  intros H. unfold toRelativePath.
  destruct (startsWith absolutePath root) eqn:E; [|reflexivity].
  now apply startsWith_has_prefix in E.
Qed.

(** C5 at the failing input. The file /home/user/project-other/file.ts is
    not under the root /home/user/project, yet its path starts with the
    characters of the root, so [createTrace] stores the rewritten path
    ../project-other/file.ts instead of the path supplied. A path inside the
    root is stored relative, and a path that does not start with the
    characters of the root is stored as supplied. *)
Theorem createTrace_sibling_directory_path :
  under_root "/home/user/project" "/home/user/project" Samples.siblingFile
  = false /\
  toRelativePath "/home/user/project" Samples.siblingFile "/home/user/project"
  = "../project-other/file.ts" /\
  (exists record,
      createTrace Samples.cursorEnv ai Samples.siblingFile Samples.noOptions
      = Returns record /\
      map path (files record) = ["../project-other/file.ts"]) /\
  toRelativePath "/home/user/project" "/home/user/project/src/file.ts"
    "/home/user/project" = "src/file.ts" /\
  toRelativePath "/home/user/project" "/other/path/file.ts"
    "/home/user/project" = "/other/path/file.ts".
Proof.
  repeat split. eexists. split; reflexivity.
Qed.

(** The positions given are kept, in the order given, and the model is
    normalized. *)
Example createTrace_two_ranges :
  exists record,
    createTrace Samples.cursorEnv ai "/home/user/project/src/a.ts"
      Samples.twoRanges = Returns record /\
    map (fun c => map position_of (ranges c))
        (flat_map conversations (files record))
    = [ [ {| start_line := 4; end_line := 6 |};
          {| start_line := 2; end_line := 2 |} ] ] /\
    map contributor (flat_map conversations (files record))
    = [ Some {| contributor_type := ai;
                model_id := Some "anthropic/claude-3-opus" |} ] /\
    map path (files record) = ["src/a.ts"].
Proof. eexists. repeat split. Qed.

(** With neither variable set and no repository, the workspace root cannot
    be found and [createTrace] throws. *)
Example createTrace_without_root :
  createTrace Samples.bareEnv ai "a.ts" Samples.noOptions
  = Throws "not a git repository".
Proof. reflexivity. Qed.

End Builder.

(** ** The transcript reader *)

Section Transcript.
Import JS JSFacts.
Local Open Scope nat_scope.

Lemma messageModel_never_diverges (entry : Json.value) :
  messageModel entry <> Diverges.
Proof.
  unfold messageModel. destruct entry; cbn; try discriminate.
  destruct (Json.lookup _ members) as [[]|]; discriminate.
Qed.

Lemma modelOfLine_returns (line : list N) :
  exists found, modelOfLine line = Returns found.
Proof.
  unfold modelOfLine.
  destruct (negb (Units.truthy (Units.trim line))); [eauto|].
  pose proof (JsonFacts.parse_never_diverges (Units.trim line)) as Hp.
  destruct (Json.parse (Units.trim line)) as [entry|e|];
    cbn [bind try_catch];
    [|eauto|congruence].
  pose proof (messageModel_never_diverges entry) as Hm.
  destruct (messageModel entry) as [[m|]|e|]; cbn [bind try_catch];
    [destruct (Json.truthy m); cbn [try_catch]|..]; eauto.
  now elim Hm.
Qed.

(** A line carries a model exactly when its trimmed text parses to a value
    whose [message] has a truthy [model]. *)
Lemma carries_model_iff (line : string) (m : Json.value) :
  carries_model line m <->
  exists entry message,
    Json.parse (Units.trim (Utf8.decode line)) = Returns entry /\
    Json.get entry "message" = Some message /\
    Json.get message "model" = Some m /\
    Json.truthy m = true.
Proof.
  unfold carries_model, modelOfLine.
  generalize (Units.trim (Utf8.decode line)). intros text. split.
  - destruct (negb (Units.truthy text)); [discriminate|].
    destruct (Json.parse text) as [entry|e|];
      cbn [bind try_catch]; try discriminate.
    unfold messageModel.
    destruct entry; cbn; try discriminate.
    destruct (Json.lookup _ members) as [message|] eqn:Hmsg;
      [|discriminate].
    destruct message; cbn; try discriminate.
    destruct (Json.lookup _ members0) as [model|] eqn:Hmodel;
      cbn; [|discriminate].
    destruct (Json.truthy model) eqn:Ht; cbn; [|discriminate].
    intros [= <-]. eexists. eexists. repeat split; [exact Hmsg| |exact Ht].
    exact Hmodel.
  - intros (entry & message & Hp & Hmsg & Hmodel & Ht).
    destruct (negb (Units.truthy text)) eqn:Hblank.
    { destruct text; [discriminate Hp|discriminate Hblank]. }
    rewrite Hp. cbn [bind try_catch]. unfold messageModel.
    destruct entry; try discriminate Hmsg. rewrite Hmsg.
    destruct message; try discriminate Hmodel.
    cbn [bind try_catch]. rewrite Hmodel. cbn. now rewrite Ht.
Qed.

(** A line that does not parse is passed over. *)
Lemma unparsable_line_skipped (line error : string) :
  Json.parse (Units.trim (Utf8.decode line)) = Throws error ->
  no_model line.
Proof.
  intros H. unfold no_model, modelOfLine.
  destruct (negb (Units.truthy (Units.trim (Utf8.decode line))));
    [reflexivity|].
  now rewrite H.
Qed.

Lemma last_model_snoc_skip (lines : list string) (line : string)
  (r : option Json.value) :
  no_model line -> last_model lines r -> last_model (lines ++ [line]) r.
Proof.
  intros Hn [before x after m -> Hx Hafter|Hall].
  - apply (last_model_at _ before x (after ++ [line]) m);
      [now rewrite <- app_assoc|exact Hx|].
    apply Forall_app. split; [exact Hafter|now constructor].
  - apply last_model_none, Forall_app. split; [exact Hall|now constructor].
Qed.

(** The inner loop finds the model of the last line that carries one. *)
Lemma scanLines_last_model (lines : list string) :
  exists r,
    scanLines (rev (map Utf8.decode lines)) = Returns r /\
    last_model lines r.
Proof.
  induction lines as [|line lines IH] using rev_ind.
  - exists None. split; [reflexivity|]. now apply last_model_none.
  - rewrite map_app, rev_app_distr. cbn [map rev app scanLines].
    destruct (modelOfLine_returns (Utf8.decode line)) as [[m|] Hm];
      rewrite Hm; simpl.
    + exists (Some m). split; [reflexivity|].
      now apply (last_model_at _ lines line [] m).
    + destruct IH as (r & Hr & Hl). exists r. split.
      * rewrite Hr. now destruct r.
      * now apply last_model_snoc_skip.
Qed.

Lemma last_model_unique (lines : list string) (r r' : option Json.value) :
  last_model lines r -> last_model lines r' -> r = r'.
Proof.
  assert (Hsame : forall (b b' a a' : list string) (x x' : string) m m',
            (b ++ x :: a = b' ++ x' :: a')%list ->
            carries_model x m -> carries_model x' m' ->
            Forall no_model a -> Forall no_model a' -> m = m').
  { induction b as [|y b IHb]; intros [|y' b'] a a' x x' m m' E Hx Hx' Ha Ha';
      simpl in E; injection E as E1 E2.
    - subst. unfold carries_model in *. congruence.
    - subst. exfalso. apply Forall_app in Ha. destruct Ha as [_ Ha].
      inversion Ha as [|? ? Hn _]. unfold no_model, carries_model in *.
      congruence.
    - subst. exfalso. apply Forall_app in Ha'. destruct Ha' as [_ Ha'].
      inversion Ha' as [|? ? Hn _]. unfold no_model, carries_model in *.
      congruence.
    - eapply IHb; eassumption. }
  intros [b x a m -> Hx Ha|Hall] [b' x' a' m' E Hx' Ha'|Hall'].
  - f_equal. eapply Hsame; eassumption.
  - exfalso. apply Forall_app in Hall'. destruct Hall' as [_ Hall'].
    inversion Hall' as [|? ? Hn _]. unfold no_model, carries_model in *.
    congruence.
  - exfalso. subst lines. apply Forall_app in Hall. destruct Hall as [_ Hall].
    inversion Hall as [|? ? Hn _]. unfold no_model, carries_model in *.
    congruence.
  - reflexivity.
Qed.

(** *** Windows *)

Lemma windowSize_le (size k : nat) : windowSize size k <= size.
Proof. unfold windowSize. lia. Qed.

Lemma windowSize_first (size : nat) :
  Nat.min size (4 * 1024) = windowSize size 0.
Proof. reflexivity. Qed.

Lemma windowSize_doubles (size k : nat) :
  windowSize size (S k) = Nat.min size (windowSize size k * 2).
Proof.
  unfold windowSize. rewrite Nat.pow_succ_r'.
  set (p := 2 ^ k). lia.
Qed.

Lemma windowSize_grows (size k : nat) :
  windowSize size k < size -> windowSize size k < windowSize size (S k).
Proof.
  rewrite windowSize_doubles. unfold windowSize.
  pose proof (Nat.pow_nonzero 2 k ltac:(lia)) as Hp.
  set (p := 2 ^ k) in *. lia.
Qed.

Lemma substring_all (s : string) : String.substring 0 (String.length s) s = s.
Proof. induction s as [|c s IH]; simpl; [reflexivity|now rewrite IH]. Qed.

Lemma tailWindow_whole (content : string) :
  tailWindow content (String.length content) = content.
Proof. unfold tailWindow. rewrite Nat.sub_diag. apply substring_all. Qed.

(** The window is an end piece of the file. *)
Lemma substring_end (s : string) (n : nat) :
  exists front, s = front ++ String.substring n (String.length s - n) s.
Proof.
  revert n. induction s as [|c s IH]; intros [|n].
  - now exists "".
  - now exists "".
  - exists "". rewrite Nat.sub_0_r, substring_all. reflexivity.
  - destruct (IH n) as [front Hf]. exists (String c front).
    simpl. now rewrite <- Hf.
Qed.

Lemma tailWindow_end (content : string) (readSize : nat) :
  readSize <= String.length content ->
  exists front, content = front ++ tailWindow content readSize.
Proof.
  intros H. unfold tailWindow.
  destruct (substring_end content (String.length content - readSize))
    as [front Hf].
  exists front.
  now replace (String.length content - (String.length content - readSize))
    with readSize in Hf by lia.
Qed.

Lemma substring_length (s : string) (n m : nat) :
  n + m <= String.length s -> String.length (String.substring n m s) = m.
Proof.
  revert n m. induction s as [|c s IH]; intros [|n] [|m] H; simpl in *;
    try reflexivity; try lia.
  - f_equal. apply IH. lia.
  - apply IH. lia.
  - apply IH. lia.
Qed.

Lemma tailWindow_length (content : string) (readSize : nat) :
  readSize <= String.length content ->
  String.length (tailWindow content readSize) = readSize.
Proof. intros H. unfold tailWindow. apply substring_length. lia. Qed.

(** The lines of an end piece are lines of the whole, but for the first,
    which may be the end of a longer line. *)
Lemma split_end (front back : string) (sep : ascii)
  (first : string) (rest : list string) :
  split back sep = first :: rest ->
  exists before joined,
    split (front ++ back) sep = (before ++ joined :: rest)%list.
Proof.
  intros Hb. induction front as [|c front (before & joined & IH)]; simpl.
  - now exists [], first.
  - destruct (Ascii.eqb c sep).
    + exists ("" :: before), joined. now rewrite IH.
    + rewrite IH. destruct before as [|b before]; simpl.
      * now exists [], (String c joined).
      * now exists (String c b :: before), joined.
Qed.

(** The loop stops at the first window, in the order of their sizes, that
    holds a line with a model, or at the window that is the whole file. *)
Lemma windowLoop_first_hit (content : string) (fuel k : nat) :
  String.length content - windowSize (String.length content) k < fuel ->
  exists j result,
    windowLoop fuel (Regular content) (String.length content)
      (windowSize (String.length content) k) = Returns result /\
    k <= j /\
    (forall i, k <= i < j ->
       windowSize (String.length content) i < String.length content /\
       last_model
         (windowLines content (windowSize (String.length content) i)) None) /\
    last_model
      (windowLines content (windowSize (String.length content) j)) result /\
    (result = None ->
     windowSize (String.length content) j = String.length content).
Proof.
  set (size := String.length content).
  revert k. induction fuel as [|fuel IH]; intros k Hfuel; [lia|].
  cbn [windowLoop].
  pose proof (windowSize_le size k) as Hle.
  rewrite (proj2 (Nat.leb_le _ _) Hle). cbn [readSync bind].
  rewrite Utf8Facts.decode_lines.
  destruct (scanLines_last_model (windowLines content (windowSize size k)))
    as (r & Hr & Hl).
  unfold windowLines, tailWindow in Hr. fold size in Hr.
  rewrite Hr. cbn [bind].
  destruct r as [m|].
  - exists k, (Some m). repeat split; try lia; [exact Hl|discriminate].
  - destruct (size <=? windowSize size k) eqn:E.
    + apply Nat.leb_le in E.
      exists k, None. repeat split; try lia. exact Hl.
    + apply Nat.leb_gt in E. rewrite <- windowSize_doubles.
      pose proof (windowSize_grows size k E) as Hgrow.
      destruct (IH (S k) ltac:(lia)) as (j & result & Hrun & Hj & Hbefore & Hat).
      exists j, result. split; [exact Hrun|]. split; [lia|].
      split; [|exact Hat].
      intros i Hi. destruct (Nat.eq_dec i k) as [->|Hne].
      * now split.
      * apply Hbefore. lia.
Qed.

(** The lines of a text after a separator are lines of the whole text. *)
Lemma split_at_separator (a b : string) (sep : ascii) :
  split (a ++ String sep b) sep = (split a sep ++ split b sep)%list.
Proof.
  induction a as [|c a IH]; simpl.
  - now rewrite Ascii.eqb_refl.
  - destruct (Ascii.eqb c sep); [now rewrite IH|].
    rewrite IH. destruct (split a sep) as [|x xs] eqn:E; [|reflexivity].
    pose proof (split_length_pos a sep) as Hp. rewrite E in Hp.
    simpl in Hp. lia.
Qed.

Lemma last_model_after (before lines : list string) (m : Json.value) :
  last_model lines (Some m) -> last_model (before ++ lines) (Some m).
Proof.
  intros H. inversion H as [b x a m' E Hx Ha|]; subst.
  apply (last_model_at _ (before ++ b) x a m);
    [now rewrite <- app_assoc|exact Hx|exact Ha].
Qed.

Lemma last_byte (s : string) :
  s <> "" -> exists front c, s = front ++ String c "".
Proof.
  induction s as [|c s IH]; [congruence|]. intros _.
  destruct s as [|d s].
  - now exists "", c.
  - destruct (IH ltac:(discriminate)) as (front & e & ->).
    now exists (String c front), e.
Qed.

Lemma append_String (a : string) (c : ascii) (b : string) :
  (a ++ String c "") ++ b = a ++ String c b.
Proof. induction a as [|d a IH]; simpl; [reflexivity|now rewrite IH]. Qed.

(** A window smaller than the file follows a line feed or starts inside a
    line. *)
Lemma window_start (content : string) (readSize : nat) :
  readSize < String.length content ->
  (exists front,
      content = front ++ String LF (tailWindow content readSize)) \/
  starts_inside_line content readSize.
Proof.
  intros Hsize.
  destruct (tailWindow_end content readSize ltac:(lia)) as [front Hfront].
  pose proof (tailWindow_length content readSize ltac:(lia)) as Hlen.
  assert (Hne : front <> "").
  { intros ->. simpl in Hfront. rewrite <- Hfront in Hlen. lia. }
  destruct (last_byte front Hne) as (front' & c & ->).
  rewrite append_String in Hfront.
  destruct (Ascii.eqb_spec c LF) as [->|Hc].
  - left. now exists front'.
  - right. now exists front', c.
Qed.

(** A model found in a window that follows a line feed is the model of the
    last line of the file that carries one. *)
Lemma aligned_window_model (content front : string) (readSize : nat)
  (m : Json.value) :
  content = front ++ String LF (tailWindow content readSize) ->
  last_model (windowLines content readSize) (Some m) ->
  last_model (split content LF) (Some m).
Proof.
  intros Hfront Hl. rewrite Hfront at 1.
  rewrite split_at_separator. now apply last_model_after.
Qed.

(** A model found in a window whose first line carries none is the model
    of the last line of the file that carries one. *)
Lemma window_model_of_file (content : string) (readSize : nat)
  (r : option Json.value) :
  readSize <= String.length content ->
  no_model (hd "" (windowLines content readSize)) ->
  last_model (windowLines content readSize) r ->
  r <> None ->
  last_model (split content LF) r.
Proof.
  intros Hsize Hfirst Hl Hr.
  destruct (tailWindow_end content readSize Hsize) as [front Hfront].
  unfold windowLines in *.
  destruct (split (tailWindow content readSize) LF) as [|first rest] eqn:Hs.
  { pose proof (split_length_pos (tailWindow content readSize) LF) as Hp.
    rewrite Hs in Hp. simpl in Hp. lia. }
  destruct (split_end front _ LF first rest Hs) as (before & joined & Hall).
  rewrite <- Hfront in Hall. rewrite Hall. simpl in Hfirst.
  destruct Hl as [b x a m E Hx Ha|]; [|congruence].
  destruct b as [|y b]; simpl in E; injection E as <- ->.
  - unfold carries_model, no_model in *. congruence.
  - apply (last_model_at _ (before ++ joined :: b) x a m);
      [now rewrite <- app_assoc|exact Hx|exact Ha].
Qed.

Lemma extract_regular (fs : FileSystem) (transcriptPath content : string) :
  fs transcriptPath = Regular content ->
  extractModelFromTranscript fs transcriptPath =
  windowLoop (S (String.length content)) (Regular content)
    (String.length content) (windowSize (String.length content) 0).
Proof.
  intros Hc. unfold extractModelFromTranscript, openSync.
  rewrite Hc. cbn [bind fstatSync]. rewrite windowSize_first.
  destruct (windowLoop_first_hit content (S (String.length content)) 0
              ltac:(lia)) as (j & result & -> & _).
  reflexivity.
Qed.

Lemma extract_not_regular (fs : FileSystem) (transcriptPath : string) :
  fs transcriptPath = Missing \/
  (exists size, fs transcriptPath = Unreadable size) ->
  extractModelFromTranscript fs transcriptPath = Returns None.
Proof.
  intros [Hc|[size Hc]]; unfold extractModelFromTranscript, openSync;
    rewrite Hc; [reflexivity|].
  cbn [bind fstatSync windowLoop].
  now destruct (Nat.min size (4 * 1024) <=? size).
Qed.

(** The reader returns on every file system and path. *)
Lemma extractModelFromTranscript_returns (fs : FileSystem)
  (transcriptPath : string) :
  exists result, extractModelFromTranscript fs transcriptPath = Returns result.
Proof.
  destruct (fs transcriptPath) as [|size|content] eqn:Hc.
  - exists None. apply extract_not_regular. now left.
  - exists None. apply extract_not_regular. right. now exists size.
  - rewrite (extract_regular fs transcriptPath content Hc).
    destruct (windowLoop_first_hit content (S (String.length content)) 0
                ltac:(lia)) as (j & result & -> & _).
    now exists result.
Qed.

(** C6 (as amended). [extractModelFromTranscript] never throws and always
    returns. A path that does not open or cannot be read gives undefined.
    The lines the reader scans are the decoded lines of the bytes it read.
    A line that does not parse is passed over; a line carries a model when
    it parses to a value whose message has a truthy model; and a scan of
    lines gives the model of the last line that carries one. On a regular
    file the windows are the last [min(size, 4096 * 2^k)] bytes, each the
    double of the one before capped at the size of the file; the result is
    the model of the last model-bearing line of the first window that
    holds one, and undefined only after the window that is the whole file
    was scanned and no line of the file carries a model. The result is the
    model of the last model-bearing line of the file whenever no window
    that was scanned and is smaller than the file starts inside a line with
    a piece that itself parses and carries a model; a window that starts
    after a line feed holds whole lines only and needs no such condition. *)
Theorem extractModelFromTranscript_contract (fs : FileSystem)
  (transcriptPath : string) :
  (exists result,
      extractModelFromTranscript fs transcriptPath = Returns result) /\
  (fs transcriptPath = Missing \/
   (exists size, fs transcriptPath = Unreadable size) ->
   extractModelFromTranscript fs transcriptPath = Returns None) /\
  (forall bytes,
      Units.split (Utf8.decode bytes) Units.LF
      = map Utf8.decode (split bytes LF)) /\
  (forall line error,
      Json.parse (Units.trim (Utf8.decode line)) = Throws error ->
      no_model line) /\
  (forall line m,
      carries_model line m <->
      exists entry message,
        Json.parse (Units.trim (Utf8.decode line)) = Returns entry /\
        Json.get entry "message" = Some message /\
        Json.get message "model" = Some m /\
        Json.truthy m = true) /\
  (forall lines,
      exists r,
        scanLines (rev (map Utf8.decode lines)) = Returns r /\
        last_model lines r) /\
  (forall size k,
      windowSize size 0 = Nat.min size 4096 /\
      windowSize size (S k) = Nat.min size (2 * windowSize size k)) /\
  (forall content readSize,
      readSize <= String.length content ->
      String.length (tailWindow content readSize) = readSize /\
      exists front, content = front ++ tailWindow content readSize) /\
  (forall content,
      fs transcriptPath = Regular content ->
      exists k result,
        extractModelFromTranscript fs transcriptPath = Returns result /\
        (forall j, j < k ->
           windowSize (String.length content) j < String.length content /\
           last_model
             (windowLines content (windowSize (String.length content) j))
             None) /\
        last_model
          (windowLines content (windowSize (String.length content) k))
          result /\
        (result = None ->
         windowSize (String.length content) k = String.length content /\
         last_model (split content LF) None) /\
        ((forall j m,
             j <= k ->
             windowSize (String.length content) j < String.length content ->
             starts_inside_line content
               (windowSize (String.length content) j) ->
             ~ carries_model
                 (hd "" (windowLines content
                           (windowSize (String.length content) j))) m) ->
         last_model (split content LF) result)).
Proof.
  split; [|split; [|split; [|split; [|split; [|split; [|split; [|split]]]]]]].
  - apply extractModelFromTranscript_returns.
  - apply extract_not_regular.
  - exact Utf8Facts.decode_lines.
  - exact unparsable_line_skipped.
  - exact carries_model_iff.
  - exact scanLines_last_model.
  - intros size k. split; [unfold windowSize; f_equal|].
    rewrite windowSize_doubles. f_equal. lia.
  - intros content readSize Hsize.
    split; [now apply tailWindow_length|now apply tailWindow_end].
  - intros content Hc. rewrite (extract_regular fs transcriptPath content Hc).
    destruct (windowLoop_first_hit content (S (String.length content)) 0
                ltac:(lia)) as (k & result & Hrun & _ & Hbefore & Hat & Hnone).
    exists k, result. split; [exact Hrun|].
    assert (Hwhole : windowSize (String.length content) k
                     = String.length content ->
                     last_model (split content LF) result).
    { intros E. unfold windowLines in Hat.
      now rewrite E, tailWindow_whole in Hat. }
    split; [intros j Hj; apply Hbefore; lia|].
    split; [exact Hat|]. split.
    + intros ->. split; [now apply Hnone|]. apply Hwhole. now apply Hnone.
    + intros Hfrag. destruct result as [m|]; [|now apply Hwhole, Hnone].
      pose proof (windowSize_le (String.length content) k) as Hle.
      destruct (Nat.eq_dec (windowSize (String.length content) k)
                  (String.length content)) as [E|E]; [now apply Hwhole|].
      destruct (window_start content
                  (windowSize (String.length content) k) ltac:(lia))
        as [[front Hfront]|Hinside].
      * exact (aligned_window_model _ _ _ _ Hfront Hat).
      * apply (window_model_of_file content
                 (windowSize (String.length content) k));
          [exact Hle| |exact Hat|discriminate].
        destruct (modelOfLine_returns
                    (Utf8.decode
                       (hd "" (windowLines content
                                 (windowSize (String.length content) k)))))
          as [[m'|] Hfirst]; [|exact Hfirst].
        elim (Hfrag k m' (Nat.le_refl k) ltac:(lia) Hinside). exact Hfirst.
Qed.

(** The last record of the sample transcript carries the model; the line
    before it, which is not JSON, and the empty last piece are passed over. *)
Example extract_short_transcript :
  extractModelFromTranscript (fun _ => Regular Samples.shortTranscript)
    "transcript.jsonl"
  = Returns (Some (Json.Str (Json.units_of "m"))).
Proof. vm_compute. reflexivity. Qed.

(** The reader sees the decoded text of the file: a byte order mark before
    the record is trimmed as white space, a stray byte before it becomes
    U+FFFD and spoils the line, and a model written in two bytes is
    returned as one code unit. *)
Example extract_decoded_transcripts :
  extractModelFromTranscript (fun _ => Regular Samples.markedTranscript)
    "transcript.jsonl"
  = Returns (Some (Json.Str (Json.units_of "m"))) /\
  extractModelFromTranscript (fun _ => Regular Samples.strayByteTranscript)
    "transcript.jsonl"
  = Returns None /\
  extractModelFromTranscript (fun _ => Regular Samples.accentTranscript)
    "transcript.jsonl"
  = Returns (Some (Json.Str [233%N])).
Proof. repeat split; vm_compute; reflexivity. Qed.

(** C6 fails as stated: in the sample transcript of one line and 4097
    bytes no line parses, yet the first window of 4096 bytes starts after
    the first byte of the line, parses, and its model is returned. *)
Lemma window_piece_parsed_as_model :
  String.length Samples.garbledTranscript = 4097 /\
  Forall no_model (split Samples.garbledTranscript LF) /\
  last_model (split Samples.garbledTranscript LF) None /\
  extractModelFromTranscript (fun _ => Regular Samples.garbledTranscript)
    "transcript.jsonl"
  = Returns (Some (Json.Str (Json.units_of "m"))) /\
  ~ last_model (split Samples.garbledTranscript LF)
      (Some (Json.Str (Json.units_of "m"))).
Proof.
  assert (Hnone : Forall no_model (split Samples.garbledTranscript LF)).
  { assert (E : split Samples.garbledTranscript LF
                = [Samples.garbledTranscript]) by (vm_compute; reflexivity).
    rewrite E. constructor; [|constructor].
    unfold no_model. vm_compute. reflexivity. }
  split; [vm_compute; reflexivity|]. split; [exact Hnone|].
  split; [now apply last_model_none|].
  split; [vm_compute; reflexivity|].
  intros H.
  pose proof (last_model_unique _ _ _ H (last_model_none _ Hnone)).
  discriminate.
Qed.

End Transcript.

(** ** Which failures reach the caller *)

Section Propagation.
Import JS.

Variable World : Type.
Variable os : Platform World.

Lemma tryReadFile_returns (fs : FileSystem) (path : string) :
  exists content, tryReadFile fs path = Returns content.
Proof.
  unfold tryReadFile, readFileSync. destruct (fs path); simpl; eauto.
Qed.

(** C9. The range diff engine and the model resolver never throw:
    [computeRangePositions] is a total function of its arguments, also on
    the content [tryReadFile] gives for a file that is missing or cannot be
    read, and [extractModelFromTranscript] returns on every file system and
    path. [appendTrace] has no fallback: when the workspace root cannot be
    found, when the log directory is missing and cannot be created, or when
    the append fails, the error reaches the caller as it was thrown. *)
Theorem error_propagation_policy :
  (forall fs path edits,
      exists ranges,
        (content <- tryReadFile fs path ;;
         Returns (computeRangePositions edits content))%outcome
        = Returns ranges) /\
  (forall fs transcriptPath,
      exists result,
        extractModelFromTranscript fs transcriptPath = Returns result) /\
  (forall env w trace error,
      getWorkspaceRoot env = Throws error ->
      appendTrace os env w trace = Throws error) /\
  (forall env w trace root error,
      getWorkspaceRoot env = Returns root ->
      existsSync os w (join os root ".agent-trace") = false ->
      mkdirSync os w (join os root ".agent-trace") = Throws error ->
      appendTrace os env w trace = Throws error) /\
  (forall env w w' trace root error,
      getWorkspaceRoot env = Returns root ->
      (existsSync os w (join os root ".agent-trace") = true /\ w' = w \/
       existsSync os w (join os root ".agent-trace") = false /\
       mkdirSync os w (join os root ".agent-trace") = Returns w') ->
      appendFileSync os w' (join os root TRACE_PATH)
        (stringify os trace ++ nl) = Throws error ->
      appendTrace os env w trace = Throws error).
Proof.
  repeat apply conj.
  - intros fs path edits.
    destruct (tryReadFile_returns fs path) as [content ->]. simpl. eauto.
  - intros fs transcriptPath.
    apply extractModelFromTranscript_returns.
  - intros env w trace error Hroot. unfold appendTrace. now rewrite Hroot.
  - intros env w trace root error Hroot Hdir Hmk. unfold appendTrace.
    rewrite Hroot. cbn [bind]. now rewrite Hdir, Hmk.
  - intros env w w' trace root error Hroot Hdir Happend. unfold appendTrace.
    rewrite Hroot. cbn [bind].
    destruct Hdir as [[Hdir ->]|[Hdir Hmk]]; rewrite Hdir; cbn [negb];
      [|rewrite Hmk]; cbn [bind]; exact Happend.
Qed.

End Propagation.

(** On a read-only disk the directory of the log cannot be created, and
    [appendTrace] throws the error of [mkdirSync]. *)
Lemma error_propagation_policy_witness :
  appendTrace Samples.diskPlatform Samples.cursorEnv Samples.readOnlyDisk
    Samples.emptyRecord = Throws "EROFS".
Proof.
  refine (proj1 (proj2 (proj2 (proj2
            (error_propagation_policy Samples.Disk Samples.diskPlatform))))
            Samples.cursorEnv Samples.readOnlyDisk Samples.emptyRecord
            "/home/user/project" "EROFS" eq_refl eq_refl eq_refl).
Defined.

(** ** More on the line diff *)

Section LineDiff.
Import JS JSFacts.

(** *** Splitting and joining *)

Lemma split_lacks (s : string) (sep : ascii) :
  lacks sep s = true -> split s sep = [s].
Proof.
  induction s as [|c s IH]; simpl; [reflexivity|].
  destruct (Ascii.eqb c sep); simpl; [discriminate|].
  intros H. now rewrite (IH H).
Qed.

Lemma split_piece (piece rest : string) (sep : ascii) :
  lacks sep piece = true ->
  split (piece ++ String sep rest) sep = piece :: split rest sep.
Proof.
  induction piece as [|c piece IH]; simpl.
  - now rewrite Ascii.eqb_refl.
  - destruct (Ascii.eqb c sep); simpl; [discriminate|].
    intros H. now rewrite (IH H).
Qed.

(** Splitting a text joined from lines gives the lines back. *)
Lemma split_concat (pieces : list string) (sep : ascii) :
  pieces <> [] ->
  Forall (fun piece => lacks sep piece = true) pieces ->
  split (String.concat (String sep "") pieces) sep = pieces.
Proof.
  induction pieces as [|piece pieces IH]; [congruence|].
  intros _ Hall. inversion Hall as [|? ? Hp Hrest]; subst.
  destruct pieces as [|next pieces].
  - simpl. now apply split_lacks.
  - change (String.concat (String sep "") (piece :: next :: pieces))
      with (piece ++ String sep (String.concat (String sep "") (next :: pieces))).
    rewrite split_piece by exact Hp.
    f_equal. apply IH; [discriminate|exact Hrest].
Qed.

Lemma split_joinLines (lines : list string) :
  lines <> [] ->
  Forall (fun line => lacks LF line = true) lines ->
  split (joinLines lines) LF = lines.
Proof. apply split_concat. Qed.

(** *** The loops of the diff *)

Lemma lookAheadFrom_none (remaining : list string) (lookAhead : nat)
  (line : string) :
  ~ In line remaining -> lookAheadFrom remaining lookAhead line = None.
Proof.
  revert lookAhead.
  induction remaining as [|l rest IH]; intros lookAhead Hin; simpl;
    [reflexivity|].
  destruct (String.eqb l line) eqn:E.
  - apply String.eqb_eq in E. subst. exfalso. apply Hin. now left.
  - apply IH. intros H. apply Hin. now right.
Qed.

Lemma lookAheadFrom_first (skipped rest : list string) (lookAhead : nat)
  (line : string) :
  ~ In line skipped ->
  lookAheadFrom (skipped ++ line :: rest) lookAhead line
  = Some (lookAhead + List.length skipped).
Proof.
  revert lookAhead.
  induction skipped as [|l skipped IH]; intros lookAhead Hin; simpl.
  - rewrite String.eqb_refl. f_equal. lia.
  - destruct (String.eqb l line) eqn:E.
    + apply String.eqb_eq in E. subst. exfalso. apply Hin. now left.
    + rewrite IH by (intros H; apply Hin; now right). f_equal. lia.
Qed.

Lemma nth_error_skipn_In (A : Type) (l : list A) (n : nat) (x : A) :
  nth_error l n = Some x -> In x (skipn n l).
Proof.
  revert n. induction l as [|y l IH]; intros [|n]; simpl; try discriminate.
  - intros [= ->]. now left.
  - apply IH.
Qed.

Lemma skipn_In (A : Type) (l : list A) (n : nat) (x : A) :
  In x (skipn n l) -> In x l.
Proof.
  revert n. induction l as [|y l IH]; intros [|n]; simpl; auto.
  intros H. right. now apply (IH n).
Qed.

(** A line that is not ahead in the old text is pushed. *)
Lemma diffLoop_unmatched (oldLines : list string) (oldIdx : nat)
  (line : string) (rest : list string) (newIdx : nat) :
  ~ In line (skipn oldIdx oldLines) ->
  diffLoop oldLines oldIdx (line :: rest) newIdx
  = newIdx :: diffLoop oldLines oldIdx rest (S newIdx).
Proof.
  intros Hin. cbn [diffLoop].
  assert (Hsame : match nth_error oldLines oldIdx with
                  | Some l => String.eqb l line
                  | None => false
                  end = false).
  { destruct (nth_error oldLines oldIdx) as [l|] eqn:E; [|reflexivity].
    apply String.eqb_neq. intros ->. apply Hin.
    now apply nth_error_skipn_In. }
  rewrite Hsame. now rewrite lookAheadFrom_none.
Qed.

(** Lines that are not ahead in the old text are all pushed, and the
    position in the old text stays. *)
Lemma diffLoop_new_lines (oldLines : list string) (oldIdx : nat)
  (added rest : list string) (newIdx : nat) :
  (forall line, In line added -> ~ In line (skipn oldIdx oldLines)) ->
  diffLoop oldLines oldIdx (added ++ rest) newIdx
  = (seq newIdx (List.length added)
     ++ diffLoop oldLines oldIdx rest (newIdx + List.length added))%list.
Proof.
  revert newIdx.
  induction added as [|line added IH]; intros newIdx Hnew.
  - simpl. now rewrite Nat.add_0_r.
  - change ((line :: added) ++ rest)%list with (line :: (added ++ rest))%list.
    rewrite diffLoop_unmatched by (apply Hnew; now left).
    rewrite IH by (intros l Hl; apply Hnew; now right).
    simpl. now rewrite Nat.add_succ_r.
Qed.

(** Lines that follow in the old text in the same order are matched in
    place. *)
Lemma diffLoop_context (done context oldRest newRest : list string)
  (newIdx : nat) :
  diffLoop (done ++ context ++ oldRest) (List.length done)
    (context ++ newRest) newIdx
  = diffLoop (done ++ context ++ oldRest)
      (List.length done + List.length context) newRest
      (newIdx + List.length context).
Proof.
  revert done newIdx.
  induction context as [|line context IH]; intros done newIdx.
  - simpl. now rewrite !Nat.add_0_r.
  - change ((line :: context) ++ newRest)%list
      with (line :: (context ++ newRest))%list.
    cbn [diffLoop].
    rewrite nth_error_app2, Nat.sub_diag by lia. cbn [nth_error app].
    rewrite String.eqb_refl.
    replace (done ++ line :: context ++ oldRest)%list
      with ((done ++ [line]) ++ context ++ oldRest)%list
      by (rewrite <- app_assoc; reflexivity).
    replace (S (List.length done)) with (List.length (done ++ [line]))
      by (rewrite length_app; simpl; lia).
    rewrite IH. rewrite length_app. simpl.
    f_equal; lia.
Qed.

(** A line of the new text that occurs nowhere in the old text is pushed,
    wherever the loop stands. *)
Lemma diffLoop_reports_new (oldLines newLines : list string)
  (oldIdx newIdx i : nat) (line : string) :
  nth_error newLines i = Some line ->
  ~ In line oldLines ->
  In (newIdx + i) (diffLoop oldLines oldIdx newLines newIdx).
Proof.
  revert oldIdx newIdx i.
  induction newLines as [|l rest IH]; intros oldIdx newIdx [|i] Hi Hnew;
    try discriminate.
  - simpl in Hi. injection Hi as ->.
    rewrite diffLoop_unmatched
      by (intros H; apply Hnew; now apply skipn_In in H).
    rewrite Nat.add_0_r. now left.
  - simpl in Hi. cbn [diffLoop].
    replace (newIdx + S i) with (S newIdx + i) by lia.
    destruct (match nth_error oldLines oldIdx with
              | Some l0 => String.eqb l0 l
              | None => false
              end); [now apply IH|].
    destruct (lookAheadFrom (skipn oldIdx oldLines) oldIdx l);
      [now apply IH|].
    right. now apply IH.
Qed.

(** The old text is [context ++ removed ++ trailing], the new text is
    [context ++ added ++ trailing]. *)
Lemma diffLoop_replacement (context removed added trailing : list string) :
  (forall line, In line added -> ~ In line (removed ++ trailing)) ->
  (forall line, hd_error trailing = Some line -> ~ In line removed) ->
  diffLoop (context ++ removed ++ trailing) 0
           (context ++ added ++ trailing) 0
  = seq (List.length context) (List.length added).
Proof.
  intros Hadded Htrailing.
  pose proof (diffLoop_context [] context (removed ++ trailing)
                (added ++ trailing) 0) as Hctx.
  cbn [app List.length plus] in Hctx. rewrite Hctx. clear Hctx.
  assert (Hskip : skipn (List.length context)
                    (context ++ removed ++ trailing)
                  = (removed ++ trailing)%list).
  { rewrite skipn_app, Nat.sub_diag, skipn_all. reflexivity. }
  rewrite diffLoop_new_lines by (rewrite Hskip; exact Hadded).
  rewrite <- (app_nil_r (seq _ _)) at 2. f_equal.
  destruct trailing as [|line trailing]; [reflexivity|].
  destruct removed as [|gone removed].
  - simpl app. apply (diffLoop_same context (line :: trailing)).
  - assert (Hnth : nth_error
                     (context ++ (gone :: removed) ++ line :: trailing)
                     (List.length context) = Some gone)
      by (rewrite nth_error_app2, Nat.sub_diag by lia; reflexivity).
    assert (Hne : String.eqb gone line = false).
    { apply String.eqb_neq. intros ->.
      apply (Htrailing line eq_refl). now left. }
    cbn [diffLoop]. rewrite Hnth, Hne, Hskip.
    rewrite (lookAheadFrom_first (gone :: removed) trailing)
      by (apply (Htrailing line eq_refl)).
    replace (context ++ (gone :: removed) ++ line :: trailing)%list
      with ((context ++ (gone :: removed) ++ [line]) ++ trailing)%list
      by (rewrite <- !app_assoc; reflexivity).
    replace (S (List.length context + List.length (gone :: removed)))
      with (List.length (context ++ (gone :: removed) ++ [line]))
      by (rewrite !length_app; simpl; lia).
    apply diffLoop_same.
Qed.

(** *** What the diff reports *)

(** X1. The offsets [diffToFindChangedLines] returns are in strictly
    increasing order, and each is the index of a line of the new text. *)
Theorem diffToFindChangedLines_offsets (oldStr newStr : string) :
  StronglySorted lt (diffToFindChangedLines oldStr newStr) /\
  Forall (fun offset => offset < List.length (split newStr LF))
         (diffToFindChangedLines oldStr newStr).
Proof.
  unfold diffToFindChangedLines.
  destruct (diffLoop_increasing (split oldStr LF) (split newStr LF) 0 0)
    as [Hs Hf].
  split; [exact Hs|].
  eapply Forall_impl; [|exact Hf]. simpl. intros; lia.
Qed.

(** X2. When the old text is context, removed lines, trailing lines and
    the new text is the same context, added lines, the same trailing
    lines, and no added line occurs among the removed or trailing lines and
    the first trailing line does not occur among the removed ones, the
    diff reports exactly the offsets of the added lines. With nothing added
    (a deletion between context) it reports nothing. *)
Theorem diffToFindChangedLines_replacement
  (context removed added trailing : list string) :
  Forall (fun line => lacks LF line = true)
         (context ++ removed ++ added ++ trailing) ->
  (context ++ removed ++ trailing)%list <> [] ->
  (context ++ added ++ trailing)%list <> [] ->
  (forall line, In line added -> ~ In line (removed ++ trailing)) ->
  (forall line, hd_error trailing = Some line -> ~ In line removed) ->
  diffToFindChangedLines (joinLines (context ++ removed ++ trailing))
                         (joinLines (context ++ added ++ trailing))
  = seq (List.length context) (List.length added).
Proof.
  intros Hlines Hold Hnew Hadded Htrailing.
  apply Forall_app in Hlines. destruct Hlines as [Hc Hlines].
  apply Forall_app in Hlines. destruct Hlines as [Hr Hlines].
  apply Forall_app in Hlines. destruct Hlines as [Ha Ht].
  unfold diffToFindChangedLines.
  rewrite !split_joinLines; try assumption;
    try (repeat (apply Forall_app; split); assumption).
  now apply diffLoop_replacement.
Qed.

Lemma diffToFindChangedLines_replacement_witness :
  diffToFindChangedLines (old_string Cases.importEdit)
                         (new_string Cases.importEdit) = [2; 3].
Proof.
  refine (diffToFindChangedLines_replacement Cases.importsBefore []
            Cases.importsAdded Cases.bodyAfter _ _ _ _ _).
  - repeat constructor.
  - discriminate.
  - discriminate.
  - intros line [<-|[<-|[]]] [H|[H|[]]]; discriminate H.
  - intros line _ [].
Defined.

(** X3. A line of the new text that occurs nowhere in the old text is
    always reported as changed. *)
Theorem diffToFindChangedLines_reports_new_line (oldStr newStr : string)
  (offset : nat) (line : string) :
  nth_error (split newStr LF) offset = Some line ->
  ~ In line (split oldStr LF) ->
  In offset (diffToFindChangedLines oldStr newStr).
Proof.
  intros Hline Hnew. unfold diffToFindChangedLines.
  apply (diffLoop_reports_new _ _ 0 0 offset line Hline Hnew).
Qed.

Lemma diffToFindChangedLines_reports_new_line_witness :
  In 1 (diffToFindChangedLines (old_string Samples.middleLineEdit)
                               (new_string Samples.middleLineEdit)).
Proof.
  refine (diffToFindChangedLines_reports_new_line
            (old_string Samples.middleLineEdit)
            (new_string Samples.middleLineEdit) 1 "NEW" eq_refl _).
  intros [H|[H|[H|[]]]]; discriminate H.
Defined.

End LineDiff.

(** ** More on the ranges of an edit *)

Section RangeSets.
Import JS JSFacts.
Local Open Scope Z_scope.

(** *** Merged ranges *)

(** The merged ranges hold the lines of the open run and of the offsets
    still to come, and no other line. *)
Lemma mergeLoop_covers (startLine : Z) (offsets : list nat) :
  forall (rangeStart rangeEnd : nat) (line : Z),
    (rangeStart <= rangeEnd)%nat ->
    covers (mergeLoop startLine rangeStart rangeEnd offsets) line <->
    startLine + Z.of_nat rangeStart <= line <= startLine + Z.of_nat rangeEnd
    \/ exists o, In o offsets /\ line = startLine + Z.of_nat o.
Proof.
  unfold covers.
  induction offsets as [|o rest IH]; intros rangeStart rangeEnd line Hle;
    simpl.
  - rewrite Exists_cons, Exists_nil. simpl. split.
    + intros [H|[]]. now left.
    + intros [H|(o & [] & _)]. now left.
  - destruct (Nat.eqb o (rangeEnd + 1)) eqn:E.
    + apply Nat.eqb_eq in E. rewrite (IH rangeStart o line ltac:(lia)).
      split.
      * intros [H|(o' & Ho' & H)].
        -- destruct (Z.eq_dec line (startLine + Z.of_nat o)) as [->|Hne].
           ++ right. exists o. split; [now left|reflexivity].
           ++ left. lia.
        -- right. exists o'. split; [now right|exact H].
      * intros [H|(o' & [<-|Ho'] & H)].
        -- left. lia.
        -- left. lia.
        -- right. now exists o'.
    + rewrite Exists_cons. simpl. rewrite (IH o o line ltac:(lia)). split.
      * intros [H|[H|(o' & Ho' & H)]].
        -- now left.
        -- right. exists o. split; [now left|lia].
        -- right. exists o'. split; [now right|exact H].
      * intros [H|(o' & [<-|Ho'] & H)].
        -- now left.
        -- right. left. lia.
        -- right. right. now exists o'.
Qed.

(** Between two merged ranges lies at least one line that is not
    attributed. *)
Lemma mergeLoop_separated (startLine : Z) (offsets : list nat) :
  forall rangeStart rangeEnd : nat,
    (rangeStart <= rangeEnd)%nat ->
    StronglySorted lt offsets ->
    Forall (fun o => rangeEnd < o)%nat offsets ->
    StronglySorted separated
      (mergeLoop startLine rangeStart rangeEnd offsets) /\
    Forall (fun r => startLine + Z.of_nat rangeStart <= start_line r)
      (mergeLoop startLine rangeStart rangeEnd offsets).
Proof.
  induction offsets as [|o rest IH]; intros rangeStart rangeEnd Hle Hs Hf;
    simpl.
  - split; repeat constructor; simpl; lia.
  - inversion Hs as [|? ? Hs' Hall]; subst.
    inversion Hf as [|? ? Ho Hf']; subst.
    destruct (Nat.eqb o (rangeEnd + 1)) eqn:E.
    + apply Nat.eqb_eq in E.
      apply (IH rangeStart o ltac:(lia) Hs' Hall).
    + apply Nat.eqb_neq in E.
      destruct (IH o o ltac:(lia) Hs' Hall) as [H1 H2].
      split.
      * constructor; [exact H1|].
        eapply Forall_impl; [|exact H2].
        unfold separated. simpl. intros r Hr. lia.
      * constructor; [simpl; lia|].
        eapply Forall_impl; [|exact H2]. simpl. intros r Hr. lia.
Qed.

(** A run of consecutive offsets is merged into one range. *)
Lemma mergeLoop_run (startLine : Z) (count : nat) :
  forall rangeStart rangeEnd : nat,
    mergeLoop startLine rangeStart rangeEnd (seq (S rangeEnd) count)
    = [ {| start_line := startLine + Z.of_nat rangeStart;
           end_line := startLine + Z.of_nat (rangeEnd + count) |} ].
Proof.
  induction count as [|count IH]; intros rangeStart rangeEnd; simpl.
  - now rewrite Nat.add_0_r.
  - replace (rangeEnd + 1)%nat with (S rangeEnd) by lia.
    rewrite Nat.eqb_refl, IH. do 3 f_equal. lia.
Qed.

(** *** Lines and occurrences *)

Lemma split_length_count (s : string) (sep : ascii) :
  List.length (split s sep) = S (countChar sep s).
Proof.
  induction s as [|c s IH]; simpl; [reflexivity|].
  destruct (Ascii.eqb c sep); simpl; [now rewrite IH|].
  destruct (split s sep); simpl in *; lia.
Qed.

Lemma countChar_app (c : ascii) (a b : string) :
  countChar c (a ++ b) = (countChar c a + countChar c b)%nat.
Proof. induction a as [|d a IH]; simpl; [reflexivity|]. rewrite IH. lia. Qed.

Lemma substring_prefix (b r : string) :
  String.substring 0 (String.length b) (b ++ r) = b.
Proof.
  induction b as [|c b IH]; simpl.
  - now destruct r.
  - now rewrite IH.
Qed.

Lemma append_same_length (b b' x x' : string) :
  b ++ x = b' ++ x' -> String.length b = String.length b' -> b = b'.
Proof.
  revert b'. induction b as [|c b IH]; intros [|c' b'] E L; simpl in *;
    try discriminate; [reflexivity|].
  injection E as -> E. f_equal. apply IH; [exact E|lia].
Qed.

(** [indexOf] finds no occurrence to the right of another one. *)
Lemma indexOfFrom_first (s needle : string) (i : nat) :
  indexOfFrom s needle 0 = Some i ->
  forall b a, s = b ++ needle ++ a -> (i <= String.length b)%nat.
Proof.
  revert i. induction s as [|c s IH]; intros i; simpl.
  - destruct (startsWith "" needle); [|discriminate].
    intros [= <-] b a _. lia.
  - destruct (startsWith (String c s) needle) eqn:E.
    + intros [= <-] b a _. lia.
    + rewrite indexOfFrom_shift.
      destruct (indexOfFrom s needle 0) as [j|] eqn:Ej; [|discriminate].
      simpl. intros [= <-] b a Hs.
      destruct b as [|d b]; simpl in Hs.
      * rewrite Hs, startsWith_app in E. discriminate.
      * injection Hs as -> Hs. specialize (IH j eq_refl b a Hs).
        simpl. lia.
Qed.

Lemma first_occurrence_indexOf (needle s before after : string) :
  first_occurrence needle s before after ->
  indexOf s needle = Z.of_nat (String.length before).
Proof.
  intros [Hs Hfirst]. unfold indexOf.
  destruct (indexOfFrom s needle 0) as [i|] eqn:E.
  - destruct (indexOfFrom_Some _ _ _ E) as (b & a & Hb & Hlen).
    pose proof (Hfirst b a Hb).
    pose proof (indexOfFrom_first _ _ _ E before after Hs).
    f_equal. lia.
  - exfalso. apply (indexOfFrom_None _ _ E). now exists before, after.
Qed.

Lemma first_occurrence_lineAt (needle s before after : string) :
  first_occurrence needle s before after ->
  lineAt s (indexOf s needle) = lineOf before.
Proof.
  intros H. rewrite (first_occurrence_indexOf _ _ _ _ H).
  destruct H as [-> _].
  unfold lineAt, lineOf, substring.
  rewrite Nat2Z.id, Nat.sub_0_r, substring_prefix, split_length_count.
  reflexivity.
Qed.

(** Every text that occurs has a first occurrence. *)
Lemma contains_first_occurrence (needle s : string) :
  contains needle s -> exists before after, first_occurrence needle s before after.
Proof.
  intros Hc. apply includes_contains in Hc. unfold includes in Hc.
  destruct (indexOfFrom s needle 0) as [i|] eqn:E; [|discriminate].
  destruct (indexOfFrom_Some _ _ _ E) as (b & a & Hb & Hlen).
  exists b, a. split; [exact Hb|].
  intros b' a' Hb'. rewrite Hlen.
  apply (indexOfFrom_first _ _ _ E b' a' Hb').
Qed.

(** What the callback does with an edit without explicit range whose new
    text is found in the file. *)
Lemma editRanges_found (edit : FileEdit) (content before after : string) :
  range edit = None ->
  new_string edit <> "" ->
  first_occurrence (new_string edit) content before after ->
  editRanges (Some content) edit =
  if truthy (old_string edit) then
    match diffToFindChangedLines (old_string edit) (new_string edit) with
    | [] => []
    | first :: others => mergeLoop (lineOf before) first first others
    end
  else
    [ {| start_line := lineOf before;
         end_line := lineOf before + lineCount (new_string edit) - 1 |} ].
Proof.
  intros Hr Hnew Hocc.
  assert (Hidx : negb (indexOf content (new_string edit) =? -1) = true).
  { rewrite (first_occurrence_indexOf _ _ _ _ Hocc).
    destruct (Z.of_nat (String.length before) =? -1) eqn:E;
      [apply Z.eqb_eq in E; lia|reflexivity]. }
  assert (Hcontent : truthy content = true).
  { destruct Hocc as [-> _]. destruct before; simpl; [|reflexivity].
    destruct (new_string edit); [contradiction|reflexivity]. }
  apply truthy_nonempty in Hnew.
  unfold editRanges, fallbackRange. rewrite Hr. simpl contentOf.
  simpl truthyContent. rewrite Hnew, Hcontent, Hidx.
  rewrite (first_occurrence_lineAt _ _ _ _ Hocc).
  destruct (truthy (old_string edit)); simpl; [reflexivity|].
  unfold lineCount. now rewrite split_length_count.
Qed.

Lemma first_occurrence_by_indexOf (needle s before after : string) :
  s = before ++ needle ++ after ->
  indexOfFrom s needle 0 = Some (String.length before) ->
  first_occurrence needle s before after.
Proof.
  intros Hs Hi. split; [exact Hs|].
  intros b a Hb. apply (indexOfFrom_first _ _ _ Hi b a Hb).
Qed.

(** *** What is attributed *)

(** X4. For an edit without explicit range whose old and new text are not
    empty and whose new text is found in the file, the lines inside the
    ranges are exactly the changed lines of the diff, counted from the line
    on which the first occurrence of the new text starts; and between two
    ranges lies at least one line that is not attributed. *)
Theorem diffed_edit_covers_changed_lines (edit : FileEdit)
  (content before after : string) :
  range edit = None ->
  old_string edit <> "" ->
  new_string edit <> "" ->
  first_occurrence (new_string edit) content before after ->
  (forall line,
      covers (computeRangePositions [edit] (Some content)) line <->
      exists offset,
        In offset (diffToFindChangedLines (old_string edit) (new_string edit))
        /\ line = lineOf before + Z.of_nat offset) /\
  StronglySorted separated (computeRangePositions [edit] (Some content)).
Proof.
  intros Hr Hold Hnew Hocc.
  rewrite computeRangePositions_one, (editRanges_found _ _ _ _ Hr Hnew Hocc).
  apply truthy_nonempty in Hold, Hnew. rewrite Hold, Hnew.
  destruct (diffLoop_increasing (split (old_string edit) LF)
              (split (new_string edit) LF) 0 0) as [Hs _].
  fold (diffToFindChangedLines (old_string edit) (new_string edit)) in Hs.
  destruct (diffToFindChangedLines (old_string edit) (new_string edit))
    as [|first others].
  - split; [|constructor]. intros line. unfold covers. rewrite Exists_nil.
    split; [contradiction|]. now intros (o & [] & _).
  - inversion Hs as [|? ? Hs' Hall]; subst. split.
    + intros line. rewrite (mergeLoop_covers _ _ first first line (le_n _)).
      split.
      * intros [H|(o & Ho & H)].
        -- exists first. split; [now left|lia].
        -- exists o. split; [now right|exact H].
      * intros (o & [<-|Ho] & H); [left; lia|right; now exists o].
    + apply (mergeLoop_separated _ others first first (le_n _) Hs' Hall).
Qed.

Lemma importFile_occurrence :
  first_occurrence (new_string Cases.importEdit) Cases.importFile
    ("// header" ++ nl) (nl ++ "// end").
Proof. apply first_occurrence_by_indexOf; reflexivity. Qed.

Lemma diffed_edit_covers_changed_lines_witness :
  (forall line,
      covers (computeRangePositions [Cases.importEdit]
                (Some Cases.importFile)) line <->
      exists offset,
        In offset (diffToFindChangedLines (old_string Cases.importEdit)
                     (new_string Cases.importEdit))
        /\ line = lineOf ("// header" ++ nl) + Z.of_nat offset) /\
  StronglySorted separated
    (computeRangePositions [Cases.importEdit] (Some Cases.importFile)).
Proof.
  refine (diffed_edit_covers_changed_lines Cases.importEdit Cases.importFile
            ("// header" ++ nl) (nl ++ "// end") eq_refl _ _
            importFile_occurrence); discriminate.
Defined.

(** X5. For an edit without explicit range whose new text is found in the
    file, every range lies within the lines that the first occurrence of
    the new text takes in the file, and so within the file. *)
Theorem found_edit_ranges_within_file (edit : FileEdit)
  (content before after : string) :
  range edit = None ->
  new_string edit <> "" ->
  first_occurrence (new_string edit) content before after ->
  Forall (fun r =>
            lineOf before <= start_line r /\
            start_line r <= end_line r /\
            end_line r <= lineOf before + lineCount (new_string edit) - 1 /\
            end_line r <= lineCount content)
         (computeRangePositions [edit] (Some content)).
Proof.
  intros Hr Hnew Hocc.
  assert (Hfile : lineOf before + lineCount (new_string edit) - 1
                  <= lineCount content).
  { destruct Hocc as [-> _]. unfold lineOf, lineCount.
    rewrite !countChar_app. lia. }
  rewrite computeRangePositions_one, (editRanges_found _ _ _ _ Hr Hnew Hocc).
  apply truthy_nonempty in Hnew. rewrite Hnew.
  destruct (truthy (old_string edit)).
  2:{ constructor; [|constructor]. cbn [start_line end_line].
      unfold lineCount in *. lia. }
  destruct (diffLoop_increasing (split (old_string edit) LF)
              (split (new_string edit) LF) 0 0) as [Hs Hf].
  fold (diffToFindChangedLines (old_string edit) (new_string edit)) in Hs, Hf.
  destruct (diffToFindChangedLines (old_string edit) (new_string edit))
    as [|first others]; [constructor|].
  inversion Hs as [|? ? Hs' Hall]; subst.
  destruct (mergeLoop_ranges (lineOf before) others first first
              (le_n _) Hs' Hall) as [_ Hwf].
  apply Forall_forall. intros r Hin.
  pose proof (proj1 (Forall_forall _ _) Hwf r Hin) as [Hlow Hord].
  cbn beta in Hlow, Hord.
  assert (Hcov : covers (mergeLoop (lineOf before) first first others)
                        (end_line r)).
  { apply Exists_exists. exists r. split; [exact Hin|lia]. }
  apply (mergeLoop_covers _ _ first first _ (le_n _)) in Hcov.
  assert (Hend : exists o, In o (first :: others)
                           /\ end_line r = lineOf before + Z.of_nat o).
  { destruct Hcov as [H|(o & Ho & H)].
    - exists first. split; [now left|lia].
    - exists o. split; [now right|exact H]. }
  destruct Hend as (o & Ho & Heq).
  pose proof (proj1 (Forall_forall _ _) Hf o Ho) as Hbound.
  cbn beta in Hbound. rewrite split_length_count in Hbound.
  unfold lineCount in *. unfold lineOf in *. lia.
Qed.

Lemma found_edit_ranges_within_file_witness :
  Forall (fun r =>
            lineOf ("// header" ++ nl) <= start_line r /\
            start_line r <= end_line r /\
            end_line r <= lineOf ("// header" ++ nl)
                          + lineCount (new_string Cases.importEdit) - 1 /\
            end_line r <= lineCount Cases.importFile)
         (computeRangePositions [Cases.importEdit] (Some Cases.importFile)).
Proof.
  refine (found_edit_ranges_within_file Cases.importEdit Cases.importFile
            ("// header" ++ nl) (nl ++ "// end") eq_refl _
            importFile_occurrence); discriminate.
Defined.

(** X6. A replacement between context lines that is found in the file is
    attributed as exactly one range: the lines of the added text, and none
    of the context the tool sent along. *)
Theorem replacement_edit_range
  (context removed added trailing : list string)
  (content before after : string) :
  Forall (fun line => lacks LF line = true)
         (context ++ removed ++ added ++ trailing) ->
  added <> [] ->
  joinLines (context ++ removed ++ trailing) <> "" ->
  joinLines (context ++ added ++ trailing) <> "" ->
  (forall line, In line added -> ~ In line (removed ++ trailing)) ->
  (forall line, hd_error trailing = Some line -> ~ In line removed) ->
  first_occurrence (joinLines (context ++ added ++ trailing))
    content before after ->
  computeRangePositions
    [ {| old_string := joinLines (context ++ removed ++ trailing);
         new_string := joinLines (context ++ added ++ trailing);
         range := None |} ]
    (Some content)
  = [ {| start_line := lineOf before + Z.of_nat (List.length context);
         end_line := lineOf before + Z.of_nat (List.length context)
                     + Z.of_nat (List.length added) - 1 |} ].
Proof.
  intros Hlines Hadd Hold Hnew Hadded Htrailing Hocc.
  apply Forall_app in Hlines. destruct Hlines as [Hc Hlines].
  apply Forall_app in Hlines. destruct Hlines as [Hr Hlines].
  apply Forall_app in Hlines. destruct Hlines as [Ha Ht].
  set (edit := {| old_string := joinLines (context ++ removed ++ trailing);
                  new_string := joinLines (context ++ added ++ trailing);
                  range := None |}).
  rewrite computeRangePositions_one.
  rewrite (editRanges_found edit content before after eq_refl Hnew Hocc).
  subst edit. cbn [old_string new_string].
  apply truthy_nonempty in Hold, Hnew. rewrite Hold, Hnew.
  unfold diffToFindChangedLines.
  rewrite !split_joinLines;
    try (repeat (apply Forall_app; split); assumption).
  2:{ destruct context, added; try discriminate; congruence. }
  2:{ intros E. rewrite E in Hold. discriminate Hold. }
  rewrite (diffLoop_replacement _ _ _ _ Hadded Htrailing).
  destruct added as [|line added]; [contradiction|].
  cbn [List.length seq]. rewrite mergeLoop_run.
  do 2 f_equal. lia.
Qed.

Lemma replacement_edit_range_witness :
  computeRangePositions [Cases.importEdit] (Some Cases.importFile)
  = [ {| start_line := 4; end_line := 5 |} ].
Proof.
  refine (replacement_edit_range Cases.importsBefore [] Cases.importsAdded
            Cases.bodyAfter Cases.importFile ("// header" ++ nl)
            (nl ++ "// end") _ _ _ _ _ _ importFile_occurrence).
  - repeat constructor.
  - discriminate.
  - discriminate.
  - discriminate.
  - intros line [<-|[<-|[]]] [H|[H|[]]]; discriminate H.
  - intros line _ [].
Defined.

(** X7. An insertion (empty old text, no explicit range) whose new text is
    found in the file is attributed as one range: from the line on which
    the first occurrence of the new text starts, over as many lines as the
    new text has. *)
Theorem insertion_range_at_first_occurrence (edit : FileEdit)
  (content before after : string) :
  range edit = None ->
  old_string edit = "" ->
  new_string edit <> "" ->
  first_occurrence (new_string edit) content before after ->
  computeRangePositions [edit] (Some content)
  = [ {| start_line := lineOf before;
         end_line := lineOf before + lineCount (new_string edit) - 1 |} ].
Proof.
  intros Hr Hold Hnew Hocc.
  rewrite computeRangePositions_one, (editRanges_found _ _ _ _ Hr Hnew Hocc).
  apply truthy_nonempty in Hnew. now rewrite Hnew, Hold.
Qed.

Lemma insertion_range_at_first_occurrence_witness :
  computeRangePositions [Cases.insertedLines] (Some Cases.fiveLineFile)
  = [ {| start_line := 2; end_line := 4 |} ].
Proof.
  refine (insertion_range_at_first_occurrence Cases.insertedLines
            Cases.fiveLineFile ("line 1" ++ nl) (nl ++ "line 5")
            eq_refl eq_refl _ _).
  - discriminate.
  - apply first_occurrence_by_indexOf; reflexivity.
Defined.

(** X8. An edit without explicit range whose new text is not found (no
    file content, or a content that does not contain it) is attributed as
    the lines 1 to the number of lines of the new text. *)
Theorem unanchored_edit_range (edit : FileEdit)
  (fileContent : option string) :
  range edit = None ->
  new_string edit <> "" ->
  (fileContent = None \/
   exists content,
     fileContent = Some content /\ ~ contains (new_string edit) content) ->
  computeRangePositions [edit] fileContent
  = [ {| start_line := 1; end_line := lineCount (new_string edit) |} ].
Proof.
  intros Hr Hnew Hmiss.
  rewrite computeRangePositions_one.
  apply truthy_nonempty in Hnew. rewrite Hnew.
  assert (Hfb : fallbackRange fileContent edit
                = [ {| start_line := 1;
                       end_line := lineCount (new_string edit) |} ]).
  { unfold fallbackRange, lineCount. rewrite split_length_count.
    destruct Hmiss as [->|(content & -> & Hnot)]; [reflexivity|].
    simpl. destruct (truthy content); [|reflexivity].
    destruct (negb (indexOf content (new_string edit) =? -1)) eqn:E;
      [|reflexivity].
    apply indexOf_found in E. contradiction. }
  unfold editRanges. rewrite Hr.
  destruct Hmiss as [->|(content & -> & Hnot)].
  - simpl truthyContent. rewrite andb_false_r. exact Hfb.
  - destruct (truthy (old_string edit) && truthy (new_string edit)
              && truthyContent (Some content))%bool; [|exact Hfb].
    simpl contentOf.
    destruct (negb (indexOf content (new_string edit) =? -1)) eqn:E;
      [|exact Hfb].
    apply indexOf_found in E. contradiction.
Qed.

Lemma unanchored_edit_range_witness :
  computeRangePositions [Cases.strayLines]
    (Some "completely different content")
  = [ {| start_line := 1; end_line := 3 |} ].
Proof.
  refine (unanchored_edit_range Cases.strayLines
            (Some "completely different content") eq_refl _ _).
  - discriminate.
  - right. eexists. split; [reflexivity|].
    apply indexOfFrom_None. reflexivity.
Defined.

End RangeSets.

(** ** More on model identifiers, paths and the workspace root *)

Section BuilderParts.
Import JS JSFacts.

(** X9. [normalizeModelId] gives undefined only for the empty identifier
    (and for undefined); every other result is not empty and keeps the raw
    identifier: it is the identifier itself, or the identifier behind one
    of the providers anthropic, openai, google and a slash, and then the
    raw identifier held no slash. *)
Theorem normalizeModelId_keeps_raw_id (m : string) :
  (normalizeModelId (Some m) = None <-> m = "") /\
  (forall r,
      normalizeModelId (Some m) = Some r ->
      r <> "" /\
      (r = m \/
       exists provider,
         In provider ["anthropic"; "openai"; "google"] /\
         r = provider ++ "/" ++ m /\
         ~ contains "/" m)).
Proof.
  unfold normalizeModelId.
  destruct (truthy m) eqn:Hm; cbn [negb].
  2:{ destruct m; [|discriminate]. split; [tauto|discriminate]. }
  assert (Hne : m <> "") by now apply truthy_nonempty.
  destruct (includes m "/") eqn:Hs.
  - split; [split; [discriminate|contradiction]|].
    intros r [= <-]. split; [exact Hne|now left].
  - destruct (firstPrefix prefixes m) as [qualified|] eqn:Hp.
    + split; [split; [discriminate|contradiction]|].
      intros r [= <-]. apply firstPrefix_Some in Hp.
      destruct Hp as (before & prefix & provider & after & Ht & _ & _ & ->).
      split; [destruct provider; discriminate|].
      right. exists provider. split; [|split; [reflexivity|]].
      * assert (Hin : In (prefix, provider) prefixes)
          by (rewrite Ht; apply in_elt).
        unfold prefixes in Hin. simpl in Hin.
        repeat (destruct Hin as [[= <- <-]|Hin]; [simpl; tauto|]).
        contradiction.
      * intros Hc. apply includes_contains in Hc. congruence.
    + split; [split; [discriminate|contradiction]|].
      intros r [= <-]. split; [exact Hne|now left].
Qed.

(** *** The POSIX path model on plain segments *)

Lemma startsWith_refl (s : string) : startsWith s s = true.
Proof.
  induction s as [|c s IH]; simpl; [reflexivity|].
  now rewrite Ascii.eqb_refl.
Qed.

Lemma dropCommon_same (segments : list string) :
  Path.dropCommon segments segments = ([], []).
Proof.
  induction segments as [|seg segments IH]; simpl; [reflexivity|].
  now rewrite String.eqb_refl.
Qed.

Lemma dropCommon_app (common rest : list string) :
  Path.dropCommon common (common ++ rest) = ([], rest).
Proof.
  induction common as [|seg common IH]; simpl.
  - now destruct rest.
  - now rewrite String.eqb_refl.
Qed.

Lemma normalizeOnto_plain (segments rest stack : list string) :
  Forall (fun seg => plain seg = true) segments ->
  Path.normalizeOnto stack (segments ++ rest)
  = Path.normalizeOnto (rev segments ++ stack) rest.
Proof.
  revert stack. induction segments as [|seg segments IH]; intros stack H;
    [reflexivity|].
  inversion H as [|? ? Hp Hrest]; subst.
  unfold plain in Hp.
  apply andb_prop in Hp. destruct Hp as [Hp Hslash].
  apply andb_prop in Hp. destruct Hp as [Hp Hdd].
  apply andb_prop in Hp. destruct Hp as [He Hd].
  apply negb_true_iff in He, Hd, Hdd.
  simpl. rewrite He, Hd, Hdd. simpl.
  rewrite (IH (seg :: stack) Hrest). now rewrite <- app_assoc.
Qed.

Lemma plain_lacks_slash (segments : list string) :
  Forall (fun seg => plain seg = true) segments ->
  Forall (fun seg => lacks Path.slash seg = true) segments.
Proof.
  apply Forall_impl. intros seg H. unfold plain in H.
  now apply andb_prop in H.
Qed.

(** [path.resolve] of the absolute path of plain segments gives the
    segments. *)
Lemma resolve_absolute (workdir : string) (segments : list string) :
  segments <> [] ->
  Forall (fun seg => plain seg = true) segments ->
  Path.resolve workdir (absolute segments) = segments.
Proof.
  intros Hne Hplain. unfold Path.resolve, absolute.
  change (startsWith ("/" ++ String.concat "/" segments) "/") with true.
  cbv iota.
  pose proof (split_concat segments Path.slash Hne
                (plain_lacks_slash _ Hplain)) as Hsplit.
  pose proof (split_piece "" (String.concat "/" segments) Path.slash
                eq_refl) as Hfirst.
  unfold Path.slash in *. cbn [append] in Hfirst.
  cbn [append]. rewrite Hfirst, Hsplit.
  cbn [Path.normalizeOnto String.eqb orb].
  rewrite <- (app_nil_r segments) at 1.
  rewrite (normalizeOnto_plain segments [] [] Hplain).
  simpl. now rewrite app_nil_r, rev_involutive.
Qed.

Lemma append_assoc (a b c : string) : (a ++ b) ++ c = a ++ b ++ c.
Proof. induction a as [|x a IH]; simpl; [reflexivity|now rewrite IH]. Qed.

Lemma concat_app (sep : string) (a b : list string) :
  a <> [] -> b <> [] ->
  String.concat sep (a ++ b) = String.concat sep a ++ sep ++ String.concat sep b.
Proof.
  intros Ha Hb. induction a as [|x a IH]; [congruence|].
  destruct a as [|y a].
  - simpl. destruct b; [congruence|reflexivity].
  - change (String.concat sep ((x :: y :: a) ++ b))
      with (x ++ sep ++ String.concat sep ((y :: a) ++ b)).
    rewrite IH by discriminate.
    change (String.concat sep (x :: y :: a))
      with (x ++ sep ++ String.concat sep (y :: a)).
    now rewrite !append_assoc.
Qed.

(** X10. The workspace root itself is stored as the empty path, whatever
    the root is. *)
Theorem toRelativePath_of_root (workdir root : string) :
  toRelativePath workdir root root = "".
Proof.
  unfold toRelativePath, Path.relative.
  now rewrite startsWith_refl, dropCommon_same.
Qed.

(** X11. A file below the root is stored by its path from the root: for a
    root and a rest of plain segments, the path root/rest is stored as
    rest, so that joining it to the root gives the path back. *)
Theorem toRelativePath_below_root (workdir : string)
  (rootSegments restSegments : list string) :
  rootSegments <> [] -> restSegments <> [] ->
  Forall (fun seg => plain seg = true) (rootSegments ++ restSegments) ->
  toRelativePath workdir
    (absolute rootSegments ++ "/" ++ String.concat "/" restSegments)
    (absolute rootSegments)
  = String.concat "/" restSegments /\
  absolute rootSegments ++ "/"
  ++ toRelativePath workdir
       (absolute rootSegments ++ "/" ++ String.concat "/" restSegments)
       (absolute rootSegments)
  = absolute (rootSegments ++ restSegments).
Proof.
  intros Hroot Hrest Hplain.
  assert (Hpath : absolute rootSegments ++ "/"
                  ++ String.concat "/" restSegments
                  = absolute (rootSegments ++ restSegments)).
  { unfold absolute. rewrite (concat_app "/" _ _ Hroot Hrest).
    now rewrite !append_assoc. }
  assert (Hrel : toRelativePath workdir
                   (absolute rootSegments ++ "/"
                    ++ String.concat "/" restSegments)
                   (absolute rootSegments)
                 = String.concat "/" restSegments).
  { unfold toRelativePath. rewrite startsWith_app.
    rewrite Hpath. unfold Path.relative.
    pose proof (proj1 (Forall_app _ _ _) Hplain) as [Hr _].
    rewrite (resolve_absolute workdir rootSegments Hroot Hr).
    rewrite (resolve_absolute workdir (rootSegments ++ restSegments));
      [|destruct rootSegments; [congruence|discriminate]|exact Hplain].
    now rewrite dropCommon_app. }
  split; [exact Hrel|]. now rewrite Hrel.
Qed.

Lemma toRelativePath_below_root_witness :
  toRelativePath "/tmp" "/home/user/project/src/file.ts" "/home/user/project"
  = "src/file.ts" /\
  "/home/user/project" ++ "/"
  ++ toRelativePath "/tmp" "/home/user/project/src/file.ts"
       "/home/user/project"
  = "/home/user/project/src/file.ts".
Proof.
  refine (toRelativePath_below_root "/tmp" ["home"; "user"; "project"]
            ["src"; "file.ts"] _ _ _).
  - discriminate.
  - discriminate.
  - repeat constructor.
Defined.

Lemma lacks_app (c : ascii) (a b : string) :
  lacks c (a ++ b) = lacks c a && lacks c b.
Proof.
  induction a as [|d a IH]; simpl; [reflexivity|].
  rewrite IH. now rewrite andb_assoc.
Qed.

Lemma append_length (a b : string) :
  String.length (a ++ b) = String.length a + String.length b.
Proof. induction a as [|c a IH]; simpl; [reflexivity|now rewrite IH]. Qed.

(** A name that is made longer stays a plain segment. *)
Lemma plain_extended (name suffix : string) :
  plain name = true -> suffix <> "" -> lacks Path.slash suffix = true ->
  plain (name ++ suffix) = true /\ String.eqb name (name ++ suffix) = false.
Proof.
  intros Hp Hs Hl. unfold plain in *.
  apply andb_prop in Hp. destruct Hp as [Hp Hslash].
  apply andb_prop in Hp. destruct Hp as [Hp Hdd].
  apply andb_prop in Hp. destruct Hp as [He Hd].
  apply negb_true_iff in He, Hd, Hdd.
  apply String.eqb_neq in He, Hd, Hdd.
  assert (Hlen : String.length name + 1 <= String.length (name ++ suffix)).
  { rewrite append_length. destruct suffix; [contradiction|simpl; lia]. }
  split.
  - rewrite lacks_app, Hslash, Hl.
    assert (H1 : name ++ suffix <> "").
    { intros E. rewrite E in Hlen. simpl in Hlen. lia. }
    assert (H2 : name ++ suffix <> ".").
    { intros E. rewrite E in Hlen. simpl in Hlen.
      destruct name; [contradiction|simpl in Hlen; lia]. }
    assert (H3 : name ++ suffix <> "..").
    { intros E. rewrite E in Hlen.
      destruct name as [|c [|d name]]; simpl in Hlen; try lia;
        [contradiction|].
      simpl in E. injection E as -> _. contradiction. }
    apply String.eqb_neq in H1, H2, H3. now rewrite H1, H2, H3.
  - apply String.eqb_neq. intros E. rewrite <- E in Hlen. lia.
Qed.

Lemma dropCommon_prefix (common a b : list string) :
  Path.dropCommon (common ++ a) (common ++ b) = Path.dropCommon a b.
Proof.
  induction common as [|seg common IH]; simpl; [reflexivity|].
  now rewrite String.eqb_refl.
Qed.

(** The path of a directory whose name extends the name of another starts
    with the characters of the path of the other. *)
Lemma absolute_extended (parents : list string) (name suffix : string)
  (rest : list string) :
  has_prefix (absolute (parents ++ [name]))
             (absolute (parents ++ (name ++ suffix) :: rest)).
Proof.
  unfold absolute.
  assert (H : has_prefix (String.concat "/" (parents ++ [name]))
                (String.concat "/" (parents ++ (name ++ suffix) :: rest))).
  { induction parents as [|seg parents IH].
    - simpl. destruct rest as [|r rest].
      + now exists suffix.
      + exists (suffix ++ "/" ++ String.concat "/" (r :: rest)).
        now rewrite append_assoc.
    - destruct IH as [tail IH].
      exists tail.
      cbn [app].
      destruct (parents ++ (name ++ suffix)%string :: rest)%list
        as [|x xs] eqn:Ex; [now destruct parents|].
      destruct (parents ++ [name])%list as [|y ys] eqn:Ey;
        [now destruct parents|].
      cbn [String.concat] in *. rewrite IH. now rewrite !append_assoc. }
  destruct H as [tail H]. exists tail. rewrite H. reflexivity.
Qed.

(** X12. A file in a directory beside the root whose name extends the
    name of the root (root /a/b, file in /a/bc) is not under the root, yet
    its path starts with the characters of the root, and it is stored as a
    path that climbs out of the root: [..], the directory, the rest. *)
Theorem toRelativePath_beside_root (workdir : string)
  (parents : list string) (name suffix : string) (rest : list string) :
  Forall (fun seg => plain seg = true) (parents ++ name :: rest) ->
  suffix <> "" ->
  lacks Path.slash suffix = true ->
  toRelativePath workdir
    (absolute (parents ++ (name ++ suffix) :: rest))
    (absolute (parents ++ [name]))
  = String.concat "/" (".." :: (name ++ suffix) :: rest) /\
  under_root workdir (absolute (parents ++ [name]))
    (absolute (parents ++ (name ++ suffix) :: rest)) = false.
Proof.
  intros Hplain Hs Hl.
  apply Forall_app in Hplain. destruct Hplain as [Hparents Htail].
  inversion Htail as [|? ? Hname Hrest]; subst.
  destruct (plain_extended name suffix Hname Hs Hl) as [Hext Hne].
  assert (Hroot : Path.resolve workdir (absolute (parents ++ [name]))
                  = (parents ++ [name])%list).
  { apply resolve_absolute; [now destruct parents|].
    apply Forall_app. split; [exact Hparents|now constructor]. }
  assert (Hpath : Path.resolve workdir
                    (absolute (parents ++ (name ++ suffix) :: rest))
                  = (parents ++ (name ++ suffix)%string :: rest)%list).
  { apply resolve_absolute; [now destruct parents|].
    apply Forall_app. split; [exact Hparents|now constructor]. }
  split.
  - unfold toRelativePath.
    rewrite (proj2 (startsWith_has_prefix _ _)
               (absolute_extended parents name suffix rest)).
    unfold Path.relative. rewrite Hroot, Hpath, dropCommon_prefix.
    simpl Path.dropCommon. now rewrite Hne.
  - unfold under_root. rewrite Hroot, Hpath.
    clear Hroot Hpath Hparents.
    induction parents as [|seg parents IH]; simpl.
    + now rewrite Hne.
    + now rewrite String.eqb_refl.
Qed.

Lemma toRelativePath_beside_root_witness :
  toRelativePath "/tmp" "/srv/app-backup/notes/todo.md" "/srv/app"
  = "../app-backup/notes/todo.md" /\
  under_root "/tmp" "/srv/app" "/srv/app-backup/notes/todo.md" = false.
Proof.
  refine (toRelativePath_beside_root "/tmp" ["srv"] "app" "-backup"
            ["notes"; "todo.md"] _ _ _).
  - repeat constructor.
  - discriminate.
  - reflexivity.
Defined.

(** X13. [createTrace] takes the workspace root from CURSOR_PROJECT_DIR when
    it is set, an empty value included, else from CLAUDE_PROJECT_DIR, and
    asks [git] only when neither is set; it throws exactly when neither is
    set and [git] throws, with the error of [git]. *)
Theorem createTrace_workspace_root (env : ProcessEnv)
  (type : ContributorType) (filePath : string) (opts : TraceOptions) :
  (forall dir,
      CURSOR_PROJECT_DIR env = Some dir ->
      exists record,
        createTrace env type filePath opts = Returns record /\
        map path (files record) = [toRelativePath (cwd env) filePath dir]) /\
  (forall dir,
      CURSOR_PROJECT_DIR env = None ->
      CLAUDE_PROJECT_DIR env = Some dir ->
      exists record,
        createTrace env type filePath opts = Returns record /\
        map path (files record) = [toRelativePath (cwd env) filePath dir]) /\
  (forall out,
      CURSOR_PROJECT_DIR env = None ->
      CLAUDE_PROJECT_DIR env = None ->
      gitShowToplevel env = Returns out ->
      exists record,
        createTrace env type filePath opts = Returns record /\
        map path (files record)
        = [toRelativePath (cwd env) filePath (Trim.trim out)]) /\
  (forall error,
      createTrace env type filePath opts = Throws error <->
      CURSOR_PROJECT_DIR env = None /\
      CLAUDE_PROJECT_DIR env = None /\
      gitShowToplevel env = Throws error).
Proof.
  unfold createTrace, getWorkspaceRoot.
  destruct (CURSOR_PROJECT_DIR env) as [cursor|];
    [|destruct (CLAUDE_PROJECT_DIR env) as [claude|];
      [|destruct (gitShowToplevel env) as [out|e|]]];
    cbn [bind]; repeat apply conj;
    try (intros; discriminate);
    try (intros dir [= <-]; eexists; split; reflexivity);
    try (intros dir _ [= <-]; eexists; split; reflexivity);
    try (intros out' _ _ [= <-]; eexists; split; reflexivity);
    try (intros error; split; [discriminate|intros (H1 & H2 & H3); discriminate]).
  intros error. split.
  - intros [= <-]. now repeat split.
  - now intros (_ & _ & [= <-]).
Qed.

End BuilderParts.

(** ** More on the transcript reader *)

Section TranscriptParts.
Import JS JSFacts.
Local Open Scope nat_scope.

Lemma windowSize_small (size k : nat) :
  size <= 4096 -> windowSize size k = size.
Proof.
  intros H. unfold windowSize.
  pose proof (Nat.pow_nonzero 2 k ltac:(lia)) as Hp.
  set (p := 2 ^ k) in *. lia.
Qed.

(** The first piece of a split text is the start of the text. *)
Lemma split_head_prefix (s : string) (sep : ascii) (x : string)
  (xs : list string) :
  split s sep = x :: xs -> has_prefix x s.
Proof.
  revert x xs. induction s as [|c s IH]; intros x xs; simpl.
  - intros [= <- _]. now exists "".
  - destruct (Ascii.eqb c sep).
    + intros [= <- _]. now exists (String c s).
    + destruct (split s sep) as [|y ys] eqn:E.
      * intros [= <- _]. now exists s.
      * intros [= <- _]. destruct (IH y ys eq_refl) as [r ->].
        now exists r.
Qed.

(** Every piece of a split text occurs in the text. *)
Lemma split_piece_contains (s : string) (sep : ascii) (piece : string) :
  In piece (split s sep) -> contains piece s.
Proof.
  revert piece. induction s as [|c s IH]; intros piece; simpl.
  - intros [<-|[]]. now exists "", "".
  - destruct (Ascii.eqb c sep).
    + intros [<-|H]; [now exists "", (String c s)|].
      destruct (IH piece H) as (b & a & ->). now exists (String c b), a.
    + destruct (split s sep) as [|y ys] eqn:E.
      * intros [<-|[]]. exists "", s. reflexivity.
      * intros [<-|H].
        -- destruct (split_head_prefix s sep y ys E) as [r ->].
           now exists "", r.
        -- destruct (IH piece (or_intror H)) as (b & a & ->).
           now exists (String c b), a.
Qed.

(** X14. On a transcript of at most 4096 bytes the reader returns exactly
    the model of the last line of the file whose decoded text carries one,
    and undefined when no line does. *)
Theorem extractModelFromTranscript_small_file (fs : FileSystem)
  (transcriptPath content : string) :
  fs transcriptPath = Regular content ->
  String.length content <= 4096 ->
  exists result,
    extractModelFromTranscript fs transcriptPath = Returns result /\
    last_model (split content LF) result.
Proof.
  intros Hc Hsmall. rewrite (extract_regular fs transcriptPath content Hc).
  destruct (windowLoop_first_hit content (S (String.length content)) 0
              ltac:(lia)) as (k & result & Hrun & _ & _ & Hat & _).
  exists result. split; [exact Hrun|].
  unfold windowLines in Hat.
  now rewrite (windowSize_small _ k Hsmall), tailWindow_whole in Hat.
Qed.

Lemma extractModelFromTranscript_small_file_witness :
  extractModelFromTranscript (fun _ => Regular Samples.markedTranscript)
    "transcript.jsonl"
  = Returns (Some (Json.Str (Json.units_of "m"))) /\
  last_model (split Samples.markedTranscript LF)
    (Some (Json.Str (Json.units_of "m"))).
Proof.
  destruct (extractModelFromTranscript_small_file
              (fun _ => Regular Samples.markedTranscript) "transcript.jsonl"
              Samples.markedTranscript eq_refl
              (proj1 (Nat.leb_le (String.length Samples.markedTranscript)
                        4096) eq_refl))
    as (result & Hrun & Hlast).
  assert (Hmodel : extractModelFromTranscript
                     (fun _ => Regular Samples.markedTranscript)
                     "transcript.jsonl"
                   = Returns (Some (Json.Str (Json.units_of "m"))))
    by (vm_compute; reflexivity).
  rewrite Hmodel in Hrun. injection Hrun as <-.
  split; [exact Hmodel|exact Hlast].
Defined.

(** X15. The reader never returns a falsy value: what it returns is the
    truthy [model] of the [message] that the decoded text of a piece of
    the file parses to. *)
Theorem extractModelFromTranscript_truthy (fs : FileSystem)
  (transcriptPath : string) (m : Json.value) :
  extractModelFromTranscript fs transcriptPath = Returns (Some m) ->
  Json.truthy m = true /\
  exists content piece entry message,
    fs transcriptPath = Regular content /\
    contains piece content /\
    Json.parse (Units.trim (Utf8.decode piece)) = Returns entry /\
    Json.get entry "message" = Some message /\
    Json.get message "model" = Some m.
Proof.
  intros Hrun.
  destruct (fs transcriptPath) as [|size|content] eqn:Hc.
  - rewrite extract_not_regular in Hrun by (now left). discriminate.
  - rewrite extract_not_regular in Hrun by (right; now exists size).
    discriminate.
  - rewrite (extract_regular fs transcriptPath content Hc) in Hrun.
    destruct (windowLoop_first_hit content (S (String.length content)) 0
                ltac:(lia)) as (k & result & Hrun' & _ & _ & Hat & _).
    rewrite Hrun' in Hrun. injection Hrun as ->.
    inversion Hat as [before line after m' Hlines Hline _|]; subst.
    apply carries_model_iff in Hline.
    destruct Hline as (entry & message & Hp & Hmsg & Hmodel & Ht).
    split; [exact Ht|].
    exists content, line, entry, message.
    repeat split; try assumption.
    pose proof (windowSize_le (String.length content) k) as Hle.
    destruct (tailWindow_end content _ Hle) as [front Hfront].
    unfold windowLines in Hlines.
    assert (Hin : In line (split (tailWindow content
                     (windowSize (String.length content) k)) LF))
      by (rewrite Hlines; apply in_elt).
    destruct (split_piece_contains _ _ _ Hin) as (b & a & Hw).
    exists (front ++ b), a. rewrite Hfront at 1. rewrite Hw.
    now rewrite !append_assoc.
Qed.

Lemma extractModelFromTranscript_truthy_witness :
  Json.truthy (Json.Str (Json.units_of "m")) = true /\
  exists content piece entry message,
    Regular Samples.shortTranscript = Regular content /\
    contains piece content /\
    Json.parse (Units.trim (Utf8.decode piece)) = Returns entry /\
    Json.get entry "message" = Some message /\
    Json.get message "model" = Some (Json.Str (Json.units_of "m")).
Proof.
  refine (extractModelFromTranscript_truthy
            (fun _ => Regular Samples.shortTranscript) "transcript.jsonl"
            (Json.Str (Json.units_of "m")) _).
  vm_compute. reflexivity.
Defined.

Lemma append_empty (s : string) : s ++ "" = s.
Proof. induction s as [|c s IH]; simpl; [reflexivity|now rewrite IH]. Qed.

(** An end piece that is long enough holds the end of the text. *)
Lemma append_end (a b c d : string) :
  a ++ b = c ++ d -> String.length b <= String.length d ->
  exists x, d = x ++ b.
Proof.
  revert a. induction c as [|e c IH]; intros a E L; simpl in E.
  - exists a. now rewrite E.
  - destruct a as [|e' a]; simpl in E.
    + exfalso. rewrite E in L. simpl in L. rewrite append_length in L. lia.
    + injection E as _ E. now apply (IH a).
Qed.

Lemma blank_line_no_model : no_model "".
Proof. reflexivity. Qed.

(** X16. When the transcript ends with a line that carries a model,
    followed by nothing or by one line feed, and the line is shorter than
    the first window of 4096 bytes, the reader returns the model of that
    line, whatever stands before it. *)
Theorem extractModelFromTranscript_last_line (fs : FileSystem)
  (transcriptPath front line ending : string) (m : Json.value) :
  fs transcriptPath = Regular (front ++ line ++ ending) ->
  front = "" \/ (exists lines, front = lines ++ nl) ->
  ending = "" \/ ending = nl ->
  lacks LF line = true ->
  carries_model line m ->
  String.length (line ++ ending) < 4096 ->
  extractModelFromTranscript fs transcriptPath = Returns (Some m).
Proof.
  intros Hc Hfront Hending Hline Hm Hshort.
  set (content := front ++ line ++ ending) in *.
  set (size := String.length content).
  (* the lines of the end of the file *)
  assert (Hrest : exists after,
             split (line ++ ending) LF = line :: after /\
             Forall no_model after).
  { destruct Hending as [->| ->].
    - exists []. rewrite append_empty, (split_lacks _ _ Hline). now split.
    - exists [""]. unfold nl. rewrite (split_piece _ _ _ Hline). simpl.
      split; [reflexivity|]. constructor; [exact blank_line_no_model|].
      constructor. }
  destruct Hrest as (after & Hsplit & Hafter).
  (* the first window ends with these lines *)
  assert (Hwindow : exists before,
             windowLines content (windowSize size 0)
             = (before ++ line :: after)%list).
  { pose proof (windowSize_le size 0) as Hle.
    destruct (tailWindow_end content _ Hle) as [cut Hcut].
    pose proof (tailWindow_length content _ Hle) as Hlen.
    fold size in Hlen. unfold windowLines.
    destruct Hfront as [Hf|[lines Hf]].
    - assert (Hsize : size = String.length (line ++ ending))
        by (unfold size, content; now rewrite Hf).
      assert (Hw : windowSize size 0 = size)
        by (apply windowSize_small; lia).
      rewrite Hw. unfold size. rewrite tailWindow_whole.
      unfold content. rewrite Hf. simpl. exists []. exact Hsplit.
    - assert (Hsize : String.length (nl ++ line ++ ending) <= size).
      { unfold size, content. rewrite Hf, !append_length. lia. }
      assert (Hfit : String.length (nl ++ line ++ ending)
                     <= String.length
                          (tailWindow content (windowSize size 0))).
      { rewrite Hlen. unfold windowSize.
        change (4096 * 2 ^ 0) with 4096.
        simpl String.length in *. lia. }
      assert (Hcontent : lines ++ nl ++ line ++ ending
                         = cut ++ tailWindow content (windowSize size 0)).
      { rewrite <- Hcut. unfold content. rewrite Hf.
        now rewrite append_assoc. }
      destruct (append_end _ _ _ _ Hcontent Hfit) as [x Hx].
      rewrite Hx. unfold nl. cbn [append].
      rewrite split_at_separator, Hsplit.
      exists (split x LF). reflexivity. }
  destruct Hwindow as (before & Hlines).
  assert (Hfirst : last_model (windowLines content (windowSize size 0))
                              (Some m))
    by (apply (last_model_at _ before line after m Hlines Hm Hafter)).
  rewrite (extract_regular fs transcriptPath content Hc). fold size.
  destruct (windowLoop_first_hit content (S size) 0 ltac:(lia))
    as (k & result & Hrun & _ & Hbefore & Hat & _).
  fold size in Hrun, Hbefore, Hat. rewrite Hrun. f_equal.
  destruct k as [|k].
  - apply (last_model_unique _ _ _ Hat Hfirst).
  - destruct (Hbefore 0 ltac:(lia)) as [_ Hnone].
    pose proof (last_model_unique _ _ _ Hnone Hfirst). discriminate.
Qed.

Lemma shortTranscript_last_line :
  carries_model Samples.modelRecord (Json.Str (Json.units_of "m")).
Proof. reflexivity. Qed.

Lemma extractModelFromTranscript_last_line_witness :
  extractModelFromTranscript (fun _ => Regular Samples.shortTranscript)
    "transcript.jsonl"
  = Returns (Some (Json.Str (Json.units_of "m"))).
Proof.
  refine (extractModelFromTranscript_last_line
            (fun _ => Regular Samples.shortTranscript) "transcript.jsonl"
            ("{}" ++ nl ++ "not json" ++ nl) Samples.modelRecord nl
            (Json.Str (Json.units_of "m")) eq_refl _ _ _
            shortTranscript_last_line _).
  - right. now exists ("{}" ++ nl ++ "not json").
  - now right.
  - reflexivity.
  - apply Nat.ltb_lt. reflexivity.
Defined.

End TranscriptParts.

Lemma extractModelFromTranscript_contract_witness :
  extractModelFromTranscript (fun _ => Regular Samples.alignedTranscript)
    "transcript.jsonl"
  = Returns (Some (Json.Str (Json.units_of "m"))) /\
  last_model (JS.split Samples.alignedTranscript JS.LF)
    (Some (Json.Str (Json.units_of "m"))).
Proof.
  destruct (extractModelFromTranscript_contract
              (fun _ => Regular Samples.alignedTranscript)
              "transcript.jsonl")
    as (_ & _ & _ & _ & _ & _ & _ & _ & Hregular).
  destruct (Hregular _ eq_refl) as (k & result & Hrun & _ & _ & _ & Hfile).
  assert (Hmodel : extractModelFromTranscript
                     (fun _ => Regular Samples.alignedTranscript)
                     "transcript.jsonl"
                   = Returns (Some (Json.Str (Json.units_of "m"))))
    by (vm_compute; reflexivity).
  rewrite Hmodel in Hrun. injection Hrun as <-.
  split; [exact Hmodel|]. apply Hfile.
  assert (Hsize : String.length Samples.alignedTranscript = 4099)
    by (vm_compute; reflexivity).
  rewrite Hsize. intros j m _ Hsmall Hinside. exfalso.
  destruct j as [|j].
  - destruct Hinside as (front & c & Hcontent & Hc). apply Hc.
    assert (Hfront : String.length front = 2).
    { apply (f_equal String.length) in Hcontent.
      rewrite append_length in Hcontent. cbn [String.length] in Hcontent.
      rewrite tailWindow_length in Hcontent
        by (rewrite Hsize; unfold windowSize; simpl; lia).
      rewrite Hsize in Hcontent. unfold windowSize in Hcontent.
      simpl Nat.pow in Hcontent. lia. }
    destruct front as [|a [|b [|d front]]]; try discriminate Hfront.
    vm_compute in Hcontent.
    injection Hcontent as _ _ Hfeed. exact (eq_sym Hfeed).
  - unfold windowSize in Hsmall. rewrite Nat.pow_succ_r' in Hsmall.
    pose proof (Nat.pow_nonzero 2 j ltac:(lia)) as Hp.
    set (p := 2 ^ j) in *. lia.
Defined.

(** ** The hook handlers of Cursor and the model resolver *)

Section HookParts.
Import JS JSFacts.

Context {World : Type} (os : Platform World).

Lemma position_of_spread (positions : list RangePosition) :
  map position_of (map spread positions) = positions.
Proof.
  induction positions as [|[first last] more IH]; simpl; [reflexivity|].
  now rewrite IH.
Qed.

Lemma computeRangePositions_deletions (es : list FileEdit)
  (fileContent : option string) :
  (forall e, In e es -> new_string e = "") ->
  computeRangePositions es fileContent = [].
Proof.
  intros Hdel. induction es as [|e es IH]; [reflexivity|].
  rewrite computeRangePositions_cons, computeRangePositions_one.
  rewrite (Hdel e (or_introl eq_refl)). simpl.
  apply IH. intros e' He'. apply Hdel. now right.
Qed.

Lemma computeRangePositions_sent (es : list FileEdit)
  (fileContent : option string) :
  Forall (fun e => range e <> None) es ->
  computeRangePositions es fileContent
  = flat_map sentRange (filter (fun e => truthy (new_string e)) es).
Proof.
  intros Hsent. induction Hsent as [|e es He _ IH]; [reflexivity|].
  rewrite computeRangePositions_cons, computeRangePositions_one, IH.
  simpl. destruct (truthy (new_string e)); [|reflexivity].
  simpl. f_equal. unfold editRanges, sentRange.
  destruct (range e); [reflexivity|congruence].
Qed.

Lemma extract_model_truthy (fs : FileSystem) (transcriptPath : string)
  (m : Json.value) :
  extractModelFromTranscript fs transcriptPath = Returns (Some m) ->
  Json.truthy m = true.
Proof.
  intros Hrun.
  destruct (fs transcriptPath) as [|size|content] eqn:Hc.
  - rewrite extract_not_regular in Hrun by (now left). discriminate.
  - rewrite extract_not_regular in Hrun by (right; now exists size).
    discriminate.
  - rewrite (extract_regular fs transcriptPath content Hc) in Hrun.
    destruct (windowLoop_first_hit content (S (String.length content)) 0
                ltac:(lia)) as (k & result & Hrun' & _ & _ & Hat & _).
    rewrite Hrun' in Hrun. injection Hrun as ->.
    inversion Hat as [before line after m' Hlines Hline _|]; subst.
    apply carries_model_iff in Hline.
    now destruct Hline as (entry & message & _ & _ & _ & Ht).
Qed.

(** X17. The model resolver always returns, and never a falsy model. A
    model in the payload that is not empty is returned whatever the file
    system holds; an empty one is passed over for the transcript; with
    neither a model nor a transcript path the result is undefined. *)
Theorem resolveModel_contract (fs : FileSystem) (input : Hook.HookInput) :
  (exists result,
      Hook.resolveModel fs input = Returns result /\
      forall m, result = Some m -> Json.truthy m = true) /\
  (forall m,
      Hook.model input = Some m -> m <> "" ->
      Hook.resolveModel fs input
      = Returns (Some (Json.Str (Json.units_of m)))) /\
  (forall transcriptPath,
      Hook.model input = None \/ Hook.model input = Some "" ->
      Hook.transcript_path input = Some transcriptPath ->
      transcriptPath <> "" ->
      Hook.resolveModel fs input
      = extractModelFromTranscript fs transcriptPath) /\
  (truthyVar (Hook.model input) = false ->
   truthyVar (Hook.transcript_path input) = false ->
   Hook.resolveModel fs input = Returns None).
Proof.
  unfold Hook.resolveModel. repeat split.
  - destruct (Hook.model input) as [[|c rest]|].
    2:{ eexists. split; [reflexivity|]. now intros m [= <-]. }
    all: destruct (Hook.transcript_path input) as [[|d path]|];
      try (exists None; split; [reflexivity|discriminate]).
    all: destruct (extractModelFromTranscript_returns fs (String d path))
           as [result Hrun];
      exists result; split; [exact Hrun|];
      intros m ->; exact (extract_model_truthy _ _ _ Hrun).
  - intros m -> Hm. destruct m; [congruence|reflexivity].
  - intros transcriptPath Hmodel -> Hpath.
    destruct transcriptPath; [congruence|].
    now destruct Hmodel as [-> | ->].
  - intros Hmodel Hpath.
    destruct (Hook.model input) as [[|c rest]|]; try discriminate;
      now destruct (Hook.transcript_path input) as [[|d path]|].
Qed.

(** X18. An edit event whose edits add no text (deletions only, or no
    edits at all) is still recorded: when the workspace root is known, the
    record that [afterFileEdit] appends attributes line 1 of the file,
    whatever the edited file holds. *)
Theorem afterFileEdit_deletions_only (env : ProcessEnv) (fs : FileSystem)
  (w : World) (input : Hook.HookInput) (filePath root : string) :
  getWorkspaceRoot env = Returns root ->
  Hook.file_path input = Some filePath ->
  (forall e, In e (Hook.editsOf input) -> new_string e = "") ->
  exists trace,
    Hook.afterFileEdit os env fs w input = appendTrace os env w trace /\
    attributed trace = [ {| start_line := 1; end_line := 1 |} ] /\
    map path (files trace) = [toRelativePath (cwd env) filePath root].
Proof.
  intros Hroot Hpath Hdel.
  unfold Hook.afterFileEdit, Hook.readEdited, Hook.traceEdited.
  rewrite Hpath.
  destruct (tryReadFile_returns fs filePath) as [content ->].
  cbn [bind]. rewrite (computeRangePositions_deletions _ content Hdel).
  unfold createTrace. rewrite Hroot. cbn [bind].
  eexists. split; [reflexivity|]. split; reflexivity.
Qed.

(** X19. A payload without [file_path] writes nothing: when the
    workspace root is known, [afterFileEdit] and [afterTabFileEdit] throw a
    TypeError before the store is reached. *)
Theorem handlers_need_file_path (env : ProcessEnv) (fs : FileSystem)
  (w : World) (input : Hook.HookInput) :
  Hook.file_path input = None ->
  (exists root, getWorkspaceRoot env = Returns root) ->
  Hook.afterFileEdit os env fs w input = Throws "TypeError" /\
  Hook.afterTabFileEdit os env w input = Throws "TypeError".
Proof.
  intros Hpath [root Hroot].
  unfold Hook.afterFileEdit, Hook.afterTabFileEdit, Hook.readEdited,
    Hook.traceEdited.
  rewrite Hpath, Hroot. split; reflexivity.
Qed.

(** X20. When every edit of a tab edit event carries the range the editor
    sent, and at least one edit adds text, the record that
    [afterTabFileEdit] appends attributes exactly the ranges sent with the
    edits that add text, in the order of the edits; it links to no
    transcript, whether or not the payload names one. *)
Theorem afterTabFileEdit_sent_ranges (env : ProcessEnv) (w : World)
  (input : Hook.HookInput) (filePath root : string) :
  getWorkspaceRoot env = Returns root ->
  Hook.file_path input = Some filePath ->
  Forall (fun e => range e <> None) (Hook.editsOf input) ->
  Exists (fun e => new_string e <> "") (Hook.editsOf input) ->
  exists trace,
    Hook.afterTabFileEdit os env w input = appendTrace os env w trace /\
    attributed trace
    = flat_map sentRange
        (filter (fun e => truthy (new_string e)) (Hook.editsOf input)) /\
    transcripts trace = [None].
Proof.
  intros Hroot Hpath Hsent Hadds.
  unfold Hook.afterTabFileEdit, Hook.traceEdited. rewrite Hpath.
  unfold createTrace. rewrite Hroot. cbn [bind].
  eexists. split; [reflexivity|]. split; [|reflexivity].
  unfold attributed.
  cbn [files flat_map conversations ranges rangePositions map app].
  rewrite !app_nil_r, (computeRangePositions_sent _ None Hsent).
  destruct (flat_map sentRange
              (filter (fun e => truthy (new_string e)) (Hook.editsOf input)))
    as [|pos more] eqn:Hranges.
  - exfalso. apply Exists_exists in Hadds. destruct Hadds as (e & Hin & Hne).
    rewrite Forall_forall in Hsent. specialize (Hsent e Hin).
    assert (Hkept : In e (filter (fun e => truthy (new_string e))
                            (Hook.editsOf input))).
    { apply filter_In. split; [exact Hin|]. now apply truthy_nonempty. }
    destruct (range e) as [r|] eqn:Hr; [|congruence].
    assert (Hfound : In (verbatim r)
                        (flat_map sentRange
                           (filter (fun e => truthy (new_string e))
                              (Hook.editsOf input)))).
    { apply in_flat_map. exists e. split; [exact Hkept|].
      unfold sentRange. rewrite Hr. now left. }
    rewrite Hranges in Hfound. contradiction.
  - apply (position_of_spread (pos :: more)).
Qed.

End HookParts.

Lemma afterFileEdit_deletions_only_witness :
  exists trace,
    Hook.afterFileEdit Samples.diskPlatform Samples.cursorEnv
      (fun _ => Missing) Samples.readOnlyDisk
      {| Hook.hook_event_name := "afterFileEdit";
         Hook.model := Some "gpt-4o";
         Hook.transcript_path := None;
         Hook.conversation_id := None;
         Hook.generation_id := None;
         Hook.file_path := Some "/home/user/project/src/a.ts";
         Hook.edits := Some [Samples.rangedDeletion] |}
    = appendTrace Samples.diskPlatform Samples.cursorEnv
        Samples.readOnlyDisk trace /\
    attributed trace = [ {| start_line := 1; end_line := 1 |} ] /\
    map path (files trace)
    = [toRelativePath "/home/user/project" "/home/user/project/src/a.ts"
         "/home/user/project"].
Proof.
  refine (afterFileEdit_deletions_only Samples.diskPlatform
            Samples.cursorEnv (fun _ => Missing) Samples.readOnlyDisk
            {| Hook.hook_event_name := "afterFileEdit";
               Hook.model := Some "gpt-4o";
               Hook.transcript_path := None;
               Hook.conversation_id := None;
               Hook.generation_id := None;
               Hook.file_path := Some "/home/user/project/src/a.ts";
               Hook.edits := Some [Samples.rangedDeletion] |}
            "/home/user/project/src/a.ts" "/home/user/project"
            eq_refl eq_refl _).
  intros e [<-|[]]. reflexivity.
Defined.

Lemma handlers_need_file_path_witness :
  Hook.afterFileEdit Samples.diskPlatform Samples.cursorEnv
    (fun _ => Missing) Samples.readOnlyDisk
    {| Hook.hook_event_name := "afterFileEdit";
       Hook.model := None;
       Hook.transcript_path := None;
       Hook.conversation_id := None;
       Hook.generation_id := None;
       Hook.file_path := None;
       Hook.edits := Some [Samples.rangedInsertion] |}
  = Throws "TypeError" /\
  Hook.afterTabFileEdit Samples.diskPlatform Samples.cursorEnv
    Samples.readOnlyDisk
    {| Hook.hook_event_name := "afterFileEdit";
       Hook.model := None;
       Hook.transcript_path := None;
       Hook.conversation_id := None;
       Hook.generation_id := None;
       Hook.file_path := None;
       Hook.edits := Some [Samples.rangedInsertion] |}
  = Throws "TypeError".
Proof.
  refine (handlers_need_file_path Samples.diskPlatform Samples.cursorEnv
            (fun _ => Missing) Samples.readOnlyDisk
            {| Hook.hook_event_name := "afterFileEdit";
               Hook.model := None;
               Hook.transcript_path := None;
               Hook.conversation_id := None;
               Hook.generation_id := None;
               Hook.file_path := None;
               Hook.edits := Some [Samples.rangedInsertion] |} eq_refl _).
  now exists "/home/user/project".
Defined.

Lemma afterTabFileEdit_sent_ranges_witness :
  exists trace,
    Hook.afterTabFileEdit Samples.diskPlatform Samples.cursorEnv
      Samples.readOnlyDisk
      {| Hook.hook_event_name := "afterTabFileEdit";
         Hook.model := Some "gpt-4o";
         Hook.transcript_path := Some "/tmp/transcript.jsonl";
         Hook.conversation_id := Some "c1";
         Hook.generation_id := None;
         Hook.file_path := Some "/home/user/project/src/a.ts";
         Hook.edits := Some [Samples.rangedDeletion;
                             Samples.rangedInsertion] |}
    = appendTrace Samples.diskPlatform Samples.cursorEnv
        Samples.readOnlyDisk trace /\
    attributed trace = [ {| start_line := 10; end_line := 15 |} ] /\
    transcripts trace = [None].
Proof.
  refine (afterTabFileEdit_sent_ranges Samples.diskPlatform
            Samples.cursorEnv Samples.readOnlyDisk
            {| Hook.hook_event_name := "afterTabFileEdit";
               Hook.model := Some "gpt-4o";
               Hook.transcript_path := Some "/tmp/transcript.jsonl";
               Hook.conversation_id := Some "c1";
               Hook.generation_id := None;
               Hook.file_path := Some "/home/user/project/src/a.ts";
               Hook.edits := Some [Samples.rangedDeletion;
                                   Samples.rangedInsertion] |}
            "/home/user/project/src/a.ts" "/home/user/project"
            eq_refl eq_refl _ _).
  - repeat constructor; discriminate.
  - apply Exists_cons_tl, Exists_cons_hd. discriminate.
Defined.

(** ** Heading anchors: [slugify] *)

Section Slugs.
Import Site.

Ltac by_units c :=
  destruct c as [[] [] [] [] [] [] [] []]; vm_compute;
  try reflexivity; try discriminate; intros; try reflexivity;
  discriminate.

Lemma lowered_unit_kept (c : ascii) :
  isWord (toLowerCaseUnit c) || Trim.isWhiteSpace (toLowerCaseUnit c)
  || isHyphen (toLowerCaseUnit c) = true ->
  isSlugUnit (toLowerCaseUnit c) || Trim.isWhiteSpace (toLowerCaseUnit c)
  = true.
Proof. by_units c. Qed.

Lemma slug_unit_no_space (c : ascii) :
  isSlugUnit c = true -> Trim.isWhiteSpace c = false.
Proof. by_units c. Qed.

Lemma slug_unit_lowered (c : ascii) :
  isSlugUnit c = true -> toLowerCaseUnit c = c.
Proof. by_units c. Qed.

Lemma slug_unit_kept (c : ascii) :
  isSlugUnit c = true ->
  isWord c || Trim.isWhiteSpace c || isHyphen c = true.
Proof. by_units c. Qed.

Lemma space_unit_lowered (c : ascii) :
  Trim.isWhiteSpace c = true ->
  toLowerCaseUnit c = c /\ isHyphen c = false.
Proof.
  destruct c as [[] [] [] [] [] [] [] []]; vm_compute;
    try discriminate; intros _; split; reflexivity.
Qed.

Lemma hyphen_unit (c : ascii) : isHyphen c = true -> c = "-"%char.
Proof. apply Ascii.eqb_eq. Qed.

Lemma every_implies (p q : ascii -> bool) (s : string) :
  (forall c, p c = true -> q c = true) ->
  every p s = true -> every q s = true.
Proof.
  intros Hpq. induction s as [|c s IH]; simpl; [reflexivity|].
  intros H. apply andb_true_iff in H. destruct H as [Hc Hs].
  now rewrite (Hpq c Hc), IH.
Qed.

Lemma removeSpecial_units (s : string) :
  every (fun c => isSlugUnit c || Trim.isWhiteSpace c)
    (removeSpecial (toLowerCase s)) = true.
Proof.
  induction s as [|c s IH]; simpl; [reflexivity|].
  destruct (isWord (toLowerCaseUnit c)
            || Trim.isWhiteSpace (toLowerCaseUnit c)
            || isHyphen (toLowerCaseUnit c)) eqn:Hkeep; [|exact IH].
  simpl. now rewrite (lowered_unit_kept c Hkeep), IH.
Qed.

Lemma replaceRuns_units (C p q : ascii -> bool) (inRun : bool) (s : string) :
  (forall c, p c = true -> C c = false -> q c = true) ->
  q "-"%char = true ->
  every p s = true -> every q (replaceRuns C inRun s) = true.
Proof.
  intros Hpq Hq. revert inRun.
  induction s as [|c s IH]; intros inRun; simpl; [reflexivity|].
  intros H. apply andb_true_iff in H. destruct H as [Hc Hs].
  destruct (C c) eqn:HC.
  - destruct inRun; simpl; [now apply IH|]. now rewrite Hq, IH.
  - simpl. now rewrite (Hpq c Hc HC), IH.
Qed.

Lemma replaceRuns_hyphens (inRun : bool) (s : string) :
  adjacent isHyphen (replaceRuns isHyphen inRun s) = false /\
  (inRun = true ->
   adjacent isHyphen (String "-" (replaceRuns isHyphen inRun s)) = false).
Proof.
  revert inRun. induction s as [|c s IH]; intros inRun.
  - simpl. now split.
  - cbn [replaceRuns]. destruct (isHyphen c) eqn:Hc.
    + destruct inRun.
      * apply IH.
      * split; [now apply IH|discriminate].
    + destruct (IH false) as [Hrest _]. split.
      * cbn [adjacent]. rewrite Hc.
        now destruct (replaceRuns isHyphen false s).
      * intros _. cbn [adjacent]. rewrite Hc.
        destruct (replaceRuns isHyphen false s); [reflexivity|].
        now rewrite andb_false_r.
Qed.

Lemma adjacent_hyphens (before after : string) :
  adjacent isHyphen (before ++ "--" ++ after) = true.
Proof.
  induction before as [|c before IH]; [reflexivity|].
  change (String c before ++ "--" ++ after)
    with (String c (before ++ "--" ++ after)).
  revert IH. generalize (before ++ "--" ++ after). intros s Hs.
  destruct s as [|d s]; [discriminate|].
  change (isHyphen c && isHyphen d || adjacent isHyphen (String d s) = true).
  rewrite Hs. apply orb_true_r.
Qed.

Lemma trim_no_space (s : string) :
  every (fun c => negb (Trim.isWhiteSpace c)) s = true -> Trim.trim s = s.
Proof.
  intros Hs.
  assert (Hstart : Trim.trimStart s = s).
  { destruct s as [|c s]; [reflexivity|]. simpl in *.
    apply andb_true_iff in Hs. destruct Hs as [Hc _].
    now destruct (Trim.isWhiteSpace c). }
  unfold Trim.trim. rewrite Hstart. unfold Trim.trimEnd.
  assert (Hend : Trim.trimEndAux s
                 = match s with EmptyString => None | _ => Some s end).
  { induction s as [|c s IH]; [reflexivity|]. simpl in *.
    apply andb_true_iff in Hs. destruct Hs as [Hc Hs].
    assert (Hs' : Trim.trimStart s = s).
    { destruct s as [|d s]; [reflexivity|]. simpl in *.
      apply andb_true_iff in Hs. destruct Hs as [Hd _].
      now destruct (Trim.isWhiteSpace d). }
    rewrite (IH Hs Hs'). destruct s; [|reflexivity].
    now destruct (Trim.isWhiteSpace c). }
  rewrite Hend. now destruct s.
Qed.

(** The slug before the final [trim]. *)
Lemma slugify_units (text : string) :
  every isSlugUnit
    (replaceRuns isHyphen false
       (replaceRuns Trim.isWhiteSpace false
          (removeSpecial (toLowerCase text)))) = true.
Proof.
  apply (replaceRuns_units isHyphen isSlugUnit isSlugUnit);
    [now intros c Hc _|reflexivity|].
  apply (replaceRuns_units Trim.isWhiteSpace
           (fun c => isSlugUnit c || Trim.isWhiteSpace c) isSlugUnit);
    [|reflexivity|apply removeSpecial_units].
  intros c Hc Hspace. now rewrite Hspace, orb_false_r in Hc.
Qed.

Lemma slugify_untrimmed (text : string) :
  slugify text
  = replaceRuns isHyphen false
      (replaceRuns Trim.isWhiteSpace false
         (removeSpecial (toLowerCase text))).
Proof.
  unfold slugify. apply trim_no_space.
  apply (every_implies isSlugUnit); [|apply slugify_units].
  intros c Hc. now rewrite (slug_unit_no_space c Hc).
Qed.

Lemma toLowerCase_slug (s : string) :
  every isSlugUnit s = true -> toLowerCase s = s.
Proof.
  induction s as [|c s IH]; simpl; [reflexivity|].
  intros H. apply andb_true_iff in H. destruct H as [Hc Hs].
  now rewrite (slug_unit_lowered c Hc), IH.
Qed.

Lemma removeSpecial_slug (s : string) :
  every isSlugUnit s = true -> removeSpecial s = s.
Proof.
  induction s as [|c s IH]; simpl; [reflexivity|].
  intros H. apply andb_true_iff in H. destruct H as [Hc Hs].
  now rewrite (slug_unit_kept c Hc), IH.
Qed.

Lemma replaceRuns_none (C : ascii -> bool) (inRun : bool) (s : string) :
  every (fun c => negb (C c)) s = true -> replaceRuns C inRun s = s.
Proof.
  revert inRun. induction s as [|c s IH]; intros inRun; simpl;
    [reflexivity|].
  intros H. apply andb_true_iff in H. destruct H as [Hc Hs].
  destruct (C c); [discriminate|]. now rewrite IH.
Qed.

Lemma replaceRuns_single (inRun : bool) (s : string) :
  adjacent isHyphen s = false ->
  (inRun = true -> adjacent isHyphen (String "-" s) = false) ->
  replaceRuns isHyphen inRun s = s.
Proof.
  revert inRun. induction s as [|c s IH]; intros inRun Hs Hrun;
    [reflexivity|].
  assert (Hrest : adjacent isHyphen s = false).
  { cbn [adjacent] in Hs. destruct s; [reflexivity|].
    now apply orb_false_iff in Hs. }
  cbn [replaceRuns]. destruct (isHyphen c) eqn:Hc.
  - pose proof (hyphen_unit c Hc) as ->. destruct inRun.
    + specialize (Hrun eq_refl). discriminate.
    + f_equal. apply IH; [exact Hrest|]. now intros _.
  - f_equal. apply IH; [exact Hrest|discriminate].
Qed.

(** X21. A slug is made of small letters, digits, underscores and hyphens
    only, and no two hyphens of a slug follow each other. *)
Theorem slugify_alphabet (text : string) :
  every isSlugUnit (slugify text) = true /\
  ~ contains "--" (slugify text).
Proof.
  rewrite slugify_untrimmed. split; [apply slugify_units|].
  intros (before & after & Hsplit).
  pose proof (adjacent_hyphens before after) as Hpair.
  rewrite <- Hsplit in Hpair.
  destruct (replaceRuns_hyphens false
              (replaceRuns Trim.isWhiteSpace false
                 (removeSpecial (toLowerCase text)))) as [Hnone _].
  congruence.
Qed.

(** X22. [slugify] is idempotent: the slug of a slug is the slug. *)
Theorem slugify_idempotent (text : string) :
  slugify (slugify text) = slugify text.
Proof.
  rewrite (slugify_untrimmed (slugify text)).
  rewrite (slugify_untrimmed text).
  set (slug := replaceRuns isHyphen false
                 (replaceRuns Trim.isWhiteSpace false
                    (removeSpecial (toLowerCase text)))).
  pose proof (slugify_units text) as Hunits. fold slug in Hunits.
  destruct (replaceRuns_hyphens false
              (replaceRuns Trim.isWhiteSpace false
                 (removeSpecial (toLowerCase text)))) as [Hnone _].
  fold slug in Hnone.
  rewrite (toLowerCase_slug slug Hunits), (removeSpecial_slug slug Hunits).
  rewrite (replaceRuns_none Trim.isWhiteSpace false slug).
  - apply replaceRuns_single; [exact Hnone|discriminate].
  - apply (every_implies isSlugUnit); [|exact Hunits].
    intros c Hc. now rewrite (slug_unit_no_space c Hc).
Qed.

(** X23. White space at the start of a text is not dropped by the final
    [trim], which runs when no white space is left: it becomes the hyphen
    the slug starts with. *)
Theorem slugify_leading_space (c : ascii) (rest : string) :
  Trim.isWhiteSpace c = true ->
  exists slug, slugify (String c rest) = String "-" slug.
Proof.
  intros Hc. rewrite slugify_untrimmed.
  destruct (space_unit_lowered c Hc) as [Hlow Hhyphen].
  cbn [toLowerCase removeSpecial]. rewrite Hlow, Hc, orb_true_r.
  cbn [orb replaceRuns]. rewrite Hc. cbn [replaceRuns].
  change (isHyphen "-") with true. cbn iota. eexists. reflexivity.
Qed.

Lemma slugify_leading_space_witness :
  exists slug, slugify " Agent Trace" = String "-" slug.
Proof.
  refine (slugify_leading_space " "%char "Agent Trace" _). reflexivity.
Defined.

End Slugs.
